(** * Bitmap registry reconciliation: a shallow embedding of the JavaScript tools

    The development follows the repository file by file:

    - [Js]: the few JavaScript primitives the tools rely on (truthiness,
      number printing, [String.prototype.includes], stable sorting);
    - [DuplicateCompetition]: [loadRegistryIndex] and [resolveCompetition]
      of duplicate-competition.mjs;
    - [DuplicateValidator]: [validateEntries], [scanAllFiles] and the
      missing blocks of [generateReport] of duplicate-validator.mjs;
    - [SatComparator]: [loadFile], [compareFiles] and the exit code of
      sat-comparator.mjs;
    - [RegistryComparator]: the constructor, [getRegistryFileForBlock],
      [fetchRegistryFile] and [getInscriptionIdForBlock] of validator.mjs;
    - [TrueBitmapResolver]: the provider router, [getTxPositionInBlock],
      [extractTxId] and the First-is-First resolver of true-bitmap.mjs;
    - [DuplicateRemover]: [findSatFile], [removeLoserFromFile] and [main] of
      duplicate-remover.mjs;
    - [RegistryRun]: [getRegistryFiles], [compareFilePair], the comparison
      loop of [run] and the block conflicts of [generateReport] of
      validator.mjs.

    JavaScript numbers that hold satoshi ordinals, block heights and
    positions are integers and are modelled by [Z]; objects mutated in place
    become explicit state that is threaded through the calls. *)

From Stdlib Require Import ZArith String Ascii List Bool Lia Permutation Sorted.
From Stdlib Require Import DecimalString DecimalPos DecimalZ.
From stdpp Require Import gmap strings list.

Import ListNotations.
Local Open Scope string_scope.
Local Open Scope list_scope.
Local Open Scope Z_scope.

(** ** JavaScript primitives *)

Module Js.

(** [Boolean(n)] for a number: only zero is falsy (NaN cannot come out of
    [JSON.parse]). *)
Definition truthyNum (n : Z) : bool := negb (n =? 0).

(** [Boolean(s)] for a string: only the empty string is falsy. *)
Definition truthyStr (s : string) : bool :=
  match s with EmptyString => false | String _ _ => true end.

(** [Boolean(v)] for a value that may be [undefined]/[null] ([None]). *)
Definition truthyOptNum (v : option Z) : bool :=
  match v with Some n => truthyNum n | None => false end.

Definition truthyOptStr (v : option string) : bool :=
  match v with Some s => truthyStr s | None => false end.

(** [`${n}`] / [n.toString()] for an integer below 1e21. *)
Definition numToString (n : Z) : string :=
  NilZero.string_of_int (Z.to_int n).

(** [s.startsWith(p)]. *)
Fixpoint startsWith (p s : string) : bool :=
  match p, s with
  | EmptyString, _ => true
  | String a p', String b s' => if Ascii.eqb a b then startsWith p' s' else false
  | String _ _, EmptyString => false
  end.

(** [s.includes(p)]. *)
Fixpoint includes (p s : string) : bool :=
  startsWith p s ||
  match s with
  | EmptyString => false
  | String _ s' => includes p s'
  end.

(** [s.toLowerCase()] on the ASCII range. *)
Definition lowerAscii (c : ascii) : ascii :=
  let n := nat_of_ascii c in
  if (Nat.leb 65 n && Nat.leb n 90)%bool then ascii_of_nat (n + 32) else c.

Fixpoint toLowerCase (s : string) : string :=
  match s with
  | EmptyString => EmptyString
  | String c s' => String (lowerAscii c) (toLowerCase s')
  end.

(** A JSON scalar as a record field holds it; a missing field reads as
    [undefined]. *)
Inductive JsVal :=
| JsUndefined
| JsNull
| JsBool (b : bool)
| JsNum (n : Z)
| JsStr (s : string).

#[global] Instance JsVal_eq_dec : EqDecision JsVal.
Proof. solve_decision. Defined.

Definition JsVal_encode (v : JsVal) : unit + unit + bool + Z + string :=
  match v with
  | JsUndefined => inl (inl (inl (inl tt)))
  | JsNull => inl (inl (inl (inr tt)))
  | JsBool b => inl (inl (inr b))
  | JsNum n => inl (inr n)
  | JsStr s => inr s
  end.

Definition JsVal_decode (x : unit + unit + bool + Z + string) : JsVal :=
  match x with
  | inl (inl (inl (inl _))) => JsUndefined
  | inl (inl (inl (inr _))) => JsNull
  | inl (inl (inr b)) => JsBool b
  | inl (inr n) => JsNum n
  | inr s => JsStr s
  end.

#[global] Instance JsVal_countable : Countable JsVal.
Proof.
  apply (inj_countable' JsVal_encode JsVal_decode).
  intros []; reflexivity.
Defined.

(** [Boolean(v)]. *)
Definition truthy (v : JsVal) : bool :=
  match v with
  | JsUndefined | JsNull => false
  | JsBool b => b
  | JsNum n => truthyNum n
  | JsStr s => truthyStr s
  end.

(** [v === undefined] and [v !== 0]. *)
Definition isUndefined (v : JsVal) : bool :=
  match v with JsUndefined => true | _ => false end.

Definition notZero (v : JsVal) : bool :=
  match v with JsNum 0 => false | _ => true end.

(** [Array.prototype.sort(cmp)].  ECMAScript requires the sort to be stable;
    straight insertion (each element is moved left past the elements that
    compare strictly greater) is the model.  [insertSorted] works on the
    already processed prefix kept in reverse. *)
Section Sort.
Context {A : Type} (cmp : A -> A -> Z).

Fixpoint insertSorted (x : A) (revPrefix : list A) : list A :=
  match revPrefix with
  | [] => [x]
  | y :: rest =>
      if 0 <? cmp y x then y :: insertSorted x rest else x :: y :: rest
  end.

Definition sort (l : list A) : list A :=
  rev (fold_left (fun acc x => insertSorted x acc) l []).

End Sort.

End Js.

(** ** duplicate-competition.mjs *)

Module DuplicateCompetition.

(** An element of [results.winners] / [results.losers]: [{ block, sat }]. *)
Record Placed := { block : Z; sat : Z }.

(** An element of [results.unresolved]: [{ block, duplicateSats }]. *)
Record Unresolved := { unresolvedBlock : Z; duplicateSats : list Z }.

Record Results := {
  winners : list Placed;
  losers : list Placed;
  unresolved : list Unresolved
}.

(** A registry record as [loadRegistryIndex] reads it; a missing field is
    [None]. *)
Record RegistryEntry := { entryBlock : option Z; entrySat : option Z }.



(** One iteration of the [for ... of Object.entries(duplicates)] loop.  The
    keys of [duplicates] are the decimal renderings of block heights and
    [parseInt] gives the height back, so an entry is a pair of the height
    and its sats. *)
Definition resolveOne (blockToSat : gmap Z Z) (results : Results)
    (entry : Z * list Z) : Results :=
  let '(blockNum, sats) := entry in
  match blockToSat !! blockNum with
  | None =>
      {| winners := winners results;
         losers := losers results;
         unresolved := unresolved results ++
           [{| unresolvedBlock := blockNum; duplicateSats := sats |}] |}
  | Some registeredSat =>
      let winner := registeredSat in
      let losing := List.filter (fun s => negb (s =? winner)) sats in
      if (0 <? Z.of_nat (length losing)) then
        {| winners := winners results ++ [{| block := blockNum; sat := winner |}];
           losers := losers results ++
             map (fun loserSat => {| block := blockNum; sat := loserSat |}) losing;
           unresolved := unresolved results |}
      else results
  end.

Definition emptyResults : Results :=
  {| winners := []; losers := []; unresolved := [] |}.

Definition resolveCompetition (duplicates : list (Z * list Z))
    (blockToSat : gmap Z Z) : Results :=
  fold_left (resolveOne blockToSat) duplicates emptyResults.

(** Blocks that the index does not know never enter [winners] or [losers]. *)
Definition placedOnlyIndexed (blockToSat : gmap Z Z) (results : Results) : Prop :=
  (forall w, In w (winners results) -> blockToSat !! block w <> None) /\
  (forall l, In l (losers results) -> blockToSat !! block l <> None).



(** *** Properties *)

Lemma resolveOne_unresolved_mono blockToSat results entry u :
  In u (unresolved results) -> In u (unresolved (resolveOne blockToSat results entry)).
Proof.
  destruct entry as [b sats]. unfold resolveOne.
  destruct (blockToSat !! b) as [reg|]; simpl.
  - destruct (0 <? _); simpl; auto.
  - intros H. apply in_or_app. now left.
Qed.

Lemma fold_unresolved_mono blockToSat entries : forall results u,
  In u (unresolved results) ->
  In u (unresolved (fold_left (resolveOne blockToSat) entries results)).
Proof.
  induction entries as [|e es IH]; intros results u H; simpl; auto.
  apply IH. now apply resolveOne_unresolved_mono.
Qed.

Lemma resolveOne_placedOnlyIndexed blockToSat results entry :
  placedOnlyIndexed blockToSat results ->
  placedOnlyIndexed blockToSat (resolveOne blockToSat results entry).
Proof.
  intros [Hw Hl]. destruct entry as [b sats]. unfold resolveOne.
  destruct (blockToSat !! b) as [reg|] eqn:Hb; simpl; [|split; auto].
  destruct (0 <? _); simpl; [|split; auto].
  split.
  - intros w Hin. apply in_app_or in Hin as [Hin|[<-|[]]]; auto.
    simpl. congruence.
  - intros l Hin. apply in_app_or in Hin as [Hin|Hin]; auto.
    apply in_map_iff in Hin as (s & <- & _). simpl. congruence.
Qed.

Lemma fold_placedOnlyIndexed blockToSat entries : forall results,
  placedOnlyIndexed blockToSat results ->
  placedOnlyIndexed blockToSat (fold_left (resolveOne blockToSat) entries results).
Proof.
  induction entries as [|e es IH]; intros results H; simpl; auto.
  apply IH. now apply resolveOne_placedOnlyIndexed.
Qed.

Lemma fold_unresolved_In blockToSat entries : forall results b sats,
  In (b, sats) entries -> blockToSat !! b = None ->
  In {| unresolvedBlock := b; duplicateSats := sats |}
     (unresolved (fold_left (resolveOne blockToSat) entries results)).
Proof.
  induction entries as [|e es IH]; intros results b sats Hin Hb; [destruct Hin|].
  simpl. destruct Hin as [->|Hin].
  - apply fold_unresolved_mono. unfold resolveOne. rewrite Hb. simpl.
    apply in_or_app. right. now left.
  - now apply IH.
Qed.

(** C8. A duplicated block without an entry in the authoritative
    block -> sat index is put, with its duplicate sats, in [unresolved], and
    no winner and no loser is declared for it. *)
Theorem unindexed_block_unresolved (duplicates : list (Z * list Z))
    (blockToSat : gmap Z Z) (b : Z) (sats : list Z) :
  In (b, sats) duplicates ->
  blockToSat !! b = None ->
  let results := resolveCompetition duplicates blockToSat in
  In {| unresolvedBlock := b; duplicateSats := sats |} (unresolved results) /\
  (forall w, In w (winners results) -> block w <> b) /\
  (forall l, In l (losers results) -> block l <> b).
Proof.
  intros Hin Hb results.
  assert (Hinv : placedOnlyIndexed blockToSat results).
  { apply fold_placedOnlyIndexed. split; intros ? []. }
  destruct Hinv as [Hw Hl].
  split; [now apply fold_unresolved_In|].
  split.
  - intros w Hwin Heq. apply (Hw w Hwin). now rewrite Heq.
  - intros l Hlin Heq. apply (Hl l Hlin). now rewrite Heq.
Qed.

Lemma unindexed_block_unresolved_witness :
  let duplicates := [(5, [100; 200]); (7, [300; 400])] in
  let blockToSat : gmap Z Z := {[ 7 := 300 ]} in
  let results := resolveCompetition duplicates blockToSat in
  In {| unresolvedBlock := 5; duplicateSats := [100; 200] |} (unresolved results) /\
  (forall w, In w (winners results) -> block w <> 5) /\
  (forall l, In l (losers results) -> block l <> 5).
Proof.
  apply (unindexed_block_unresolved
           [(5, [100; 200]); (7, [300; 400])] {[ 7 := 300 ]} 5 [100; 200]).
  - simpl. now left.
  - reflexivity.
Defined.

(** *** The index and the verdicts in full *)



Lemma resolveOne_losers m r b sats l :
  In l (losers (resolveOne m r (b, sats))) <->
  In l (losers r) \/
  (block l = b /\ exists reg, m !! b = Some reg /\ In (sat l) sats /\ sat l <> reg).
Proof.
  unfold resolveOne. destruct (m !! b) as [reg|] eqn:Hb.
  - cbn zeta.
    assert (F : forall s, In s (List.filter (fun s => negb (s =? reg)) sats) <->
                          In s sats /\ s <> reg).
    { intros s0. rewrite filter_In. destruct (Z.eqb_spec s0 reg); simpl; intuition congruence. }
    destruct (List.filter (fun s => negb (s =? reg)) sats) as [|s0 rest] eqn:Ef.
    + simpl. split; [tauto|]. intros [H|(_ & reg' & E & Hin & Hne)]; [assumption|].
      injection E as <-. destruct (proj2 (F (sat l)) (conj Hin Hne)).
    + replace (0 <? Z.of_nat (length (s0 :: rest))) with true
        by (symmetry; apply Z.ltb_lt; simpl length; lia). cbn [losers].
      rewrite in_app_iff, in_map_iff. split.
      * intros [H|(s1 & <- & H1)]; [now left|]. right. simpl. split; [reflexivity|].
        exists reg. apply F in H1. tauto.
      * intros [H|(Eb & reg' & E & Hin & Hne)]; [now left|]. right.
        injection E as <-. exists (sat l). split.
        -- destruct l as [bl sl]. simpl in *. now subst.
        -- apply F. tauto.
  - simpl. split; [tauto|]. intros [H|(_ & reg & E & _)]; [assumption|discriminate].
Qed.

Lemma resolveOne_winners m r b sats w :
  In w (winners (resolveOne m r (b, sats))) <->
  In w (winners r) \/
  (block w = b /\ m !! b = Some (sat w) /\ exists s, In s sats /\ s <> sat w).
Proof.
  unfold resolveOne. destruct (m !! b) as [reg|] eqn:Hb.
  - cbn zeta.
    assert (F : forall s, In s (List.filter (fun s => negb (s =? reg)) sats) <->
                          In s sats /\ s <> reg).
    { intros s0. rewrite filter_In. destruct (Z.eqb_spec s0 reg); simpl; intuition congruence. }
    destruct (List.filter (fun s => negb (s =? reg)) sats) as [|s0 rest] eqn:Ef.
    + simpl. split; [tauto|]. intros [H|(_ & E & s1 & Hin & Hne)]; [assumption|].
      injection E as E. rewrite <- E in Hne. destruct (proj2 (F s1) (conj Hin Hne)).
    + replace (0 <? Z.of_nat (length (s0 :: rest))) with true
        by (symmetry; apply Z.ltb_lt; simpl length; lia). cbn [winners].
      rewrite in_app_iff. simpl. split.
      * intros [H|[<-|[]]]; [now left|]. right. simpl. split; [reflexivity|].
        split; [reflexivity|]. exists s0. apply F. now left.
      * intros [H|(Eb & E & _)]; [now left|]. right. left.
        injection E as E. destruct w as [bw sw]. simpl in *. now subst.
  - simpl. split; [tauto|]. intros [H|(_ & E & _)]; [assumption|discriminate].
Qed.

Lemma fold_losers m es : forall r l,
  In l (losers (fold_left (resolveOne m) es r)) <->
  In l (losers r) \/
  exists sats reg, In (block l, sats) es /\ m !! block l = Some reg /\
                   In (sat l) sats /\ sat l <> reg.
Proof.
  induction es as [|[b sats] es IH]; intros r l; cbn [fold_left In].
  - split; [tauto|]. intros [H|(? & ? & [] & _)]. assumption.
  - rewrite IH, resolveOne_losers. split.
    + intros [[H|(Eb & reg & E & Hin & Hne)]|(sats' & reg & Hin & H)].
      * now left.
      * right. exists sats, reg. subst b. auto.
      * right. exists sats', reg. tauto.
    + intros [H|(sats' & reg & [E|Hin] & Hm & Hs & Hne)].
      * left. now left.
      * injection E as -> ->. left. right. split; [reflexivity|]. eauto.
      * right. exists sats', reg. auto.
Qed.

Lemma fold_winners m es : forall r w,
  In w (winners (fold_left (resolveOne m) es r)) <->
  In w (winners r) \/
  exists sats, In (block w, sats) es /\ m !! block w = Some (sat w) /\
               exists s, In s sats /\ s <> sat w.
Proof.
  induction es as [|[b sats] es IH]; intros r w; cbn [fold_left In].
  - split; [tauto|]. intros [H|(? & [] & _)]. assumption.
  - rewrite IH, resolveOne_winners. split.
    + intros [[H|(Eb & E & Hs)]|(sats' & Hin & H)].
      * now left.
      * right. exists sats. subst b. auto.
      * right. exists sats'. tauto.
    + intros [H|(sats' & [E|Hin] & Hm & Hs)].
      * left. now left.
      * injection E as -> ->. left. right. auto.
      * right. exists sats'. auto.
Qed.




(** X9. The losers are exactly the duplicate sats of the indexed blocks that
    differ from the registered sat: the registered sat of a block is never
    among its losers, and no loser is invented. *)
Theorem losers_exact (duplicates : list (Z * list Z)) (blockToSat : gmap Z Z)
    (l : Placed) :
  In l (losers (resolveCompetition duplicates blockToSat)) <->
  exists sats reg, In (block l, sats) duplicates /\
    blockToSat !! block l = Some reg /\ In (sat l) sats /\ sat l <> reg.
Proof.
  unfold resolveCompetition. rewrite fold_losers. simpl. tauto.
Qed.

(** X10. A winner is declared for a block exactly when the block is indexed
    and one of its duplicate sats differs from the registered sat; the
    winner is then the registered sat, whether or not it is among the
    duplicates. *)
Theorem winners_exact (duplicates : list (Z * list Z)) (blockToSat : gmap Z Z)
    (w : Placed) :
  In w (winners (resolveCompetition duplicates blockToSat)) <->
  exists sats, In (block w, sats) duplicates /\
    blockToSat !! block w = Some (sat w) /\ exists s, In s sats /\ s <> sat w.
Proof.
  unfold resolveCompetition. rewrite fold_winners. simpl. tauto.
Qed.

End DuplicateCompetition.

(** ** duplicate-validator.mjs *)

Module DuplicateValidator.

Import Js.

(** A registry record [{ block, iD, sat }]. *)
Record Entry := { block : JsVal; iD : JsVal; sat : JsVal }.

(** An element of [results.invalidEntries]. *)
Record Invalid := { invalidFile : string; invalidEntry : Entry; reason : string }.

(** An element of a [duplicateBlocks] list: [{ file, sat, entry }]. *)
Record DupBlock := { dupBlockFile : string; dupBlockSat : JsVal; dupBlockEntry : Entry }.

(** An element of a [duplicateSats] list: [{ file, block, entry }]. *)
Record DupSat := { dupSatFile : string; dupSatBlock : JsVal; dupSatEntry : Entry }.

(** [this.results]. *)
Record Results := {
  duplicateBlocks : gmap JsVal (list DupBlock);
  duplicateSats : gmap JsVal (list DupSat);
  totalEntries : Z;
  uniqueBlocks : gset JsVal;
  uniqueSats : gset JsVal;
  invalidEntries : list Invalid
}.

(** The constructor's [this.results]. *)
Definition initialResults : Results :=
  {| duplicateBlocks := ∅; duplicateSats := ∅; totalEntries := 0;
     uniqueBlocks := ∅; uniqueSats := ∅; invalidEntries := [] |}.

Definition countEntry (r : Results) : Results :=
  {| duplicateBlocks := duplicateBlocks r; duplicateSats := duplicateSats r;
     totalEntries := totalEntries r + 1;
     uniqueBlocks := uniqueBlocks r; uniqueSats := uniqueSats r;
     invalidEntries := invalidEntries r |}.

Definition pushInvalid (i : Invalid) (r : Results) : Results :=
  {| duplicateBlocks := duplicateBlocks r; duplicateSats := duplicateSats r;
     totalEntries := totalEntries r;
     uniqueBlocks := uniqueBlocks r; uniqueSats := uniqueSats r;
     invalidEntries := invalidEntries r ++ [i] |}.

(** "Track unique blocks": add the block, or record a duplicate. *)
Definition trackBlock (filename : string) (entry : Entry) (r : Results) : Results :=
  let b := block entry in
  if decide (b ∈ uniqueBlocks r) then
    let seen := default [] (duplicateBlocks r !! b) in
    {| duplicateBlocks := <[b := (seen ++
         [{| dupBlockFile := filename; dupBlockSat := sat entry;
             dupBlockEntry := entry |}])%list]> (duplicateBlocks r);
       duplicateSats := duplicateSats r;
       totalEntries := totalEntries r;
       uniqueBlocks := uniqueBlocks r; uniqueSats := uniqueSats r;
       invalidEntries := invalidEntries r |}
  else
    {| duplicateBlocks := duplicateBlocks r; duplicateSats := duplicateSats r;
       totalEntries := totalEntries r;
       uniqueBlocks := {[ b ]} ∪ uniqueBlocks r; uniqueSats := uniqueSats r;
       invalidEntries := invalidEntries r |}.

(** "Track unique sats". *)
Definition trackSat (filename : string) (entry : Entry) (r : Results) : Results :=
  let s := sat entry in
  if decide (s ∈ uniqueSats r) then
    let seen := default [] (duplicateSats r !! s) in
    {| duplicateBlocks := duplicateBlocks r;
       duplicateSats := <[s := (seen ++
         [{| dupSatFile := filename; dupSatBlock := block entry;
             dupSatEntry := entry |}])%list]> (duplicateSats r);
       totalEntries := totalEntries r;
       uniqueBlocks := uniqueBlocks r; uniqueSats := uniqueSats r;
       invalidEntries := invalidEntries r |}
  else
    {| duplicateBlocks := duplicateBlocks r; duplicateSats := duplicateSats r;
       totalEntries := totalEntries r;
       uniqueBlocks := uniqueBlocks r; uniqueSats := {[ s ]} ∪ uniqueSats r;
       invalidEntries := invalidEntries r |}.

(** The body of the [for (const entry of entries)] loop. *)
Definition validateEntry (filename : string) (r : Results) (entry : Entry) : Results :=
  let r := countEntry r in
  if (negb (truthy (block entry)) || isUndefined (block entry))%bool then
    pushInvalid {| invalidFile := filename; invalidEntry := entry;
                   reason := "Missing block field" |} r
  else if (negb (truthy (sat entry)) && notZero (sat entry))%bool then
    pushInvalid {| invalidFile := filename; invalidEntry := entry;
                   reason := "Missing or invalid sat field" |} r
  else trackSat filename entry (trackBlock filename entry r).

Definition validateEntries (entries : list Entry) (filename : string)
    (r : Results) : Results :=
  fold_left (validateEntry filename) entries r.

(** [scanAllFiles]: every partition file, in listing order, through
    [validateEntries], starting from the constructor's results. *)
Definition scanAllFiles (files : list (string * list Entry)) : Results :=
  fold_left (fun r f => validateEntries (snd f) (fst f) r) files initialResults.

(** A record that passes both structure tests of [validateEntries]. *)
Definition wellFormed (e : Entry) : bool :=
  (negb (negb (truthy (block e)) || isUndefined (block e)) &&
   negb (negb (truthy (sat e)) && notZero (sat e)))%bool.

(** The records of all files in scan order, each with the name of its file. *)
Definition scanned (files : list (string * list Entry)) : list (string * Entry) :=
  flat_map (fun f => map (fun e => (fst f, e)) (snd f)) files.

(** The well-formed records of a scan that carry a given block, or sat. *)
Definition recordsOfBlock (b : JsVal) (l : list (string * Entry))
    : list (string * Entry) :=
  List.filter (fun fe => (wellFormed (snd fe) && bool_decide (block (snd fe) = b))%bool) l.

Definition recordsOfSat (s : JsVal) (l : list (string * Entry))
    : list (string * Entry) :=
  List.filter (fun fe => (wellFormed (snd fe) && bool_decide (sat (snd fe) = s))%bool) l.

Definition asDupBlock (fe : string * Entry) : DupBlock :=
  {| dupBlockFile := fst fe; dupBlockSat := sat (snd fe); dupBlockEntry := snd fe |}.

Definition asDupSat (fe : string * Entry) : DupSat :=
  {| dupSatFile := fst fe; dupSatBlock := block (snd fe); dupSatEntry := snd fe |}.

(** "Total duplicate instances" of the report: the summed lengths of the
    lists of a duplicate map. *)
Definition duplicateInstances {A} (m : gmap JsVal (list A)) : Z :=
  map_fold (fun _ l n => Z.of_nat (length l) + n) 0 m.

Definition TOTAL_BLOCKS : Z := 925655.

(** [missingBlocks] of [generateReport]: the heights below [TOTAL_BLOCKS]
    that [uniqueBlocks] does not have. *)
Definition missingBlocks (r : Results) : list Z :=
  List.filter (fun i => negb (bool_decide (JsNum i ∈ uniqueBlocks r)))
    (map Z.of_nat (seq 0 (Z.to_nat TOTAL_BLOCKS))).

(** The state of the block tracking after the records [l]. *)
Definition BlocksTrack (r : Results) (l : list (string * Entry)) : Prop :=
  forall b,
    (b ∈ uniqueBlocks r <-> recordsOfBlock b l <> []) /\
    duplicateBlocks r !! b =
      match tail (recordsOfBlock b l) with
      | [] => None
      | later => Some (map asDupBlock later)
      end.

Definition SatsTrack (r : Results) (l : list (string * Entry)) : Prop :=
  forall s,
    (s ∈ uniqueSats r <-> recordsOfSat s l <> []) /\
    duplicateSats r !! s =
      match tail (recordsOfSat s l) with
      | [] => None
      | later => Some (map asDupSat later)
      end.

(** *** Properties *)

(** What every reachable [results] satisfies: only truthy blocks are
    tracked, and an invalid record either lacks a truthy block or has a
    truthy block and a sat that is not the number zero. *)
Record Inv (r : Results) : Prop := {
  inv_unique : forall v, v ∈ uniqueBlocks r -> truthy v = true;
  inv_dupBlocks : forall k l d, duplicateBlocks r !! k = Some l -> In d l ->
    truthy (block (dupBlockEntry d)) = true;
  inv_dupSats : forall k l d, duplicateSats r !! k = Some l -> In d l ->
    truthy (block (dupSatEntry d)) = true;
  inv_invalid : forall i, In i (invalidEntries r) ->
    truthy (block (invalidEntry i)) = false \/
    (truthy (block (invalidEntry i)) = true /\ notZero (sat (invalidEntry i)) = true)
}.

(** The tracked information only grows. *)
Record Grows (r r' : Results) : Prop := {
  grows_invalid : forall i, In i (invalidEntries r) -> In i (invalidEntries r');
  grows_blocks : forall v, v ∈ uniqueBlocks r -> v ∈ uniqueBlocks r';
  grows_sats : forall v, v ∈ uniqueSats r -> v ∈ uniqueSats r'
}.

Lemma Grows_refl r : Grows r r.
Proof. split; auto. Qed.

Lemma Grows_trans r1 r2 r3 : Grows r1 r2 -> Grows r2 r3 -> Grows r1 r3.
Proof. intros [] []. split; auto. Qed.

Lemma Inv_initial : Inv initialResults.
Proof.
  split; simpl.
  - intros v Hv. set_solver.
  - intros k l d Hk. rewrite lookup_empty in Hk. discriminate.
  - intros k l d Hk. rewrite lookup_empty in Hk. discriminate.
  - intros i [].
Qed.

(** [entry.block === undefined] adds nothing to [!entry.block]. *)
Lemma block_test_truthy (e : Entry) :
  (negb (truthy (block e)) || isUndefined (block e))%bool = negb (truthy (block e)).
Proof. destruct (block e) as [| |b|n|str]; simpl; try reflexivity; apply orb_false_r. Qed.

Lemma validateEntry_Grows filename r e : Grows r (validateEntry filename r e).
Proof.
  unfold validateEntry.
  destruct (negb (truthy (block e)) || isUndefined (block e))%bool.
  { split; simpl; auto. intros i Hi. apply in_or_app. now left. }
  destruct (negb (truthy (sat e)) && notZero (sat e))%bool.
  { split; simpl; auto. intros i Hi. apply in_or_app. now left. }
  unfold trackSat, trackBlock.
  repeat case_decide; split; simpl; auto; set_solver.
Qed.

Lemma validateEntry_Inv filename r e : Inv r -> Inv (validateEntry filename r e).
Proof.
  intros [Hu Hb Hs Hi]. unfold validateEntry. rewrite block_test_truthy.
  destruct (truthy (block e)) eqn:Hblock; simpl negb; cbv iota.
  2:{ split; simpl; auto.
      intros i Hin. apply in_app_or in Hin as [Hin|[<-|[]]]; auto. }
  destruct (negb (truthy (sat e)) && notZero (sat e))%bool eqn:Hsat.
  { split; simpl; auto.
    intros i Hin. apply in_app_or in Hin as [Hin|[<-|[]]]; auto.
    simpl. right. split; auto.
    apply andb_true_iff in Hsat. tauto. }
  assert (HB : Inv (trackBlock filename e (countEntry r))).
  { unfold trackBlock. case_decide; split; simpl; auto.
    - intros k l d Hk Hd.
      destruct (decide (block e = k)) as [<-|Hne].
      + rewrite lookup_insert_eq in Hk. injection Hk as <-.
        apply in_app_or in Hd as [Hd|[<-|[]]]; auto.
        destruct (duplicateBlocks r !! block e) eqn:Hl; simpl in Hd; [|destruct Hd].
        eapply Hb; eauto.
      + rewrite lookup_insert_ne in Hk by done. eapply Hb; eauto.
    - intros v Hv. apply elem_of_union in Hv as [Hv|Hv]; auto.
      apply elem_of_singleton in Hv. now subst. }
  destruct HB as [Hu' Hb' Hs' Hi'].
  unfold trackSat. case_decide; split; simpl; auto.
  intros k l d Hk Hd.
  set (r1 := trackBlock filename e (countEntry r)) in *.
  destruct (decide (sat e = k)) as [<-|Hne].
  - rewrite lookup_insert_eq in Hk. injection Hk as <-.
    apply in_app_or in Hd as [Hd|[<-|[]]]; auto.
    destruct (duplicateSats r1 !! sat e) eqn:Hl; simpl in Hd; [|destruct Hd].
    eapply Hs'; eauto.
  - rewrite lookup_insert_ne in Hk by done. eapply Hs'; eauto.
Qed.

Lemma validateEntries_Grows filename entries : forall r,
  Grows r (validateEntries entries filename r).
Proof.
  unfold validateEntries.
  induction entries as [|e es IH]; intros r; simpl; [apply Grows_refl|].
  eapply Grows_trans; [apply validateEntry_Grows|apply IH].
Qed.

Lemma validateEntries_Inv filename entries : forall r,
  Inv r -> Inv (validateEntries entries filename r).
Proof.
  unfold validateEntries.
  induction entries as [|e es IH]; intros r H; simpl; auto.
  apply IH. now apply validateEntry_Inv.
Qed.

Lemma validateEntry_falsy_block filename r e :
  truthy (block e) = false ->
  In {| invalidFile := filename; invalidEntry := e; reason := "Missing block field" |}
     (invalidEntries (validateEntry filename r e)).
Proof.
  intros H. unfold validateEntry. rewrite block_test_truthy, H. simpl.
  apply in_or_app. right. now left.
Qed.

Lemma validateEntry_zero_sat filename r e :
  truthy (block e) = true -> sat e = JsNum 0 ->
  let r' := validateEntry filename r e in
  block e ∈ uniqueBlocks r' /\ JsNum 0 ∈ uniqueSats r'.
Proof.
  intros Hb Hs. unfold validateEntry. rewrite block_test_truthy, Hb.
  rewrite Hs. simpl. unfold trackSat, trackBlock. rewrite Hs.
  repeat case_decide; simpl; split; set_solver.
Qed.

Lemma validateEntries_reach filename entries e : forall r,
  In e entries ->
  exists r1, Grows (validateEntry filename r1 e) (validateEntries entries filename r).
Proof.
  unfold validateEntries.
  induction entries as [|x xs IH]; intros r Hin; [destruct Hin|].
  simpl. destruct Hin as [->|Hin].
  - exists r. apply (validateEntries_Grows filename xs).
  - apply IH, Hin.
Qed.

Lemma scan_fold_Grows files : forall r,
  Grows r (fold_left (fun r f => validateEntries (snd f) (fst f) r) files r).
Proof.
  induction files as [|f fs IH]; intros r; simpl; [apply Grows_refl|].
  eapply Grows_trans; [apply validateEntries_Grows|apply IH].
Qed.

Lemma scan_fold_Inv files : forall r, Inv r ->
  Inv (fold_left (fun r f => validateEntries (snd f) (fst f) r) files r).
Proof.
  induction files as [|f fs IH]; intros r H; simpl; auto.
  apply IH. now apply validateEntries_Inv.
Qed.

Lemma scan_fold_reach files filename entries e : forall r,
  In (filename, entries) files -> In e entries ->
  exists r1, Grows (validateEntry filename r1 e)
    (fold_left (fun r f => validateEntries (snd f) (fst f) r) files r).
Proof.
  induction files as [|f fs IH]; intros r Hf He; [destruct Hf|].
  simpl. destruct Hf as [->|Hf].
  - simpl. destruct (validateEntries_reach filename entries e r He) as [r1 H1].
    exists r1. eapply Grows_trans; [exact H1|apply scan_fold_Grows].
  - now apply IH.
Qed.

(** C10. In a scan of the registry, a record whose [block] is 0 or otherwise
    falsy is reported invalid with reason 'Missing block field' and stays out
    of [uniqueBlocks] and of both duplicate maps; a record with a truthy block
    and [sat] equal to the number 0 is accepted: it is never reported invalid
    and its block and sat are tracked. *)
Theorem falsy_block_invalid_zero_sat_valid
    (files : list (string * list Entry)) (filename : string)
    (entries : list Entry) (e : Entry) :
  In (filename, entries) files ->
  In e entries ->
  let r := scanAllFiles files in
  (truthy (block e) = false ->
     In {| invalidFile := filename; invalidEntry := e;
           reason := "Missing block field" |} (invalidEntries r) /\
     (block e ∉ uniqueBlocks r) /\
     (forall k l d, duplicateBlocks r !! k = Some l -> In d l -> dupBlockEntry d <> e) /\
     (forall k l d, duplicateSats r !! k = Some l -> In d l -> dupSatEntry d <> e)) /\
  (truthy (block e) = true -> sat e = JsNum 0 ->
     (forall i, In i (invalidEntries r) -> invalidEntry i <> e) /\
     block e ∈ uniqueBlocks r /\
     JsNum 0 ∈ uniqueSats r).
Proof.
  intros Hf He r.
  assert (HI : Inv r) by (apply scan_fold_Inv, Inv_initial).
  destruct (scan_fold_reach files filename entries e initialResults Hf He)
    as [r1 HG].
  fold (scanAllFiles files) in HG. fold r in HG.
  destruct HI as [Hu Hb Hs Hi]. destruct HG as [Gi Gb Gs].
  split.
  - intros Hfalsy. split; [|split; [|split]].
    + apply Gi. now apply validateEntry_falsy_block.
    + intros Hin. apply Hu in Hin. congruence.
    + intros k l d Hk Hd Heq. specialize (Hb k l d Hk Hd). congruence.
    + intros k l d Hk Hd Heq. specialize (Hs k l d Hk Hd). congruence.
  - intros Htruthy Hsat.
    destruct (validateEntry_zero_sat filename r1 e Htruthy Hsat) as [H1 H2].
    split; [|split; auto].
    intros i Hin Heq. destruct (Hi i Hin) as [H|[_ H]]; [congruence|].
    rewrite Heq, Hsat in H. discriminate.
Qed.

Lemma falsy_block_invalid_zero_sat_valid_witness :
  let genesis := {| block := JsNum 0; iD := JsStr "a"; sat := JsNum 5 |} in
  let first := {| block := JsNum 7; iD := JsStr "b"; sat := JsNum 0 |} in
  let r := scanAllFiles [("sat_0.json", [genesis; first])] in
  In {| invalidFile := "sat_0.json"; invalidEntry := genesis;
        reason := "Missing block field" |} (invalidEntries r) /\
  (forall i, In i (invalidEntries r) -> invalidEntry i <> first) /\
  JsNum 7 ∈ uniqueBlocks r /\ JsNum 0 ∈ uniqueSats r.
Proof.
  intros genesis first r.
  pose proof (falsy_block_invalid_zero_sat_valid
    [("sat_0.json", [genesis; first])] "sat_0.json" [genesis; first] genesis
    (or_introl eq_refl) (or_introl eq_refl)) as [Hg _].
  pose proof (falsy_block_invalid_zero_sat_valid
    [("sat_0.json", [genesis; first])] "sat_0.json" [genesis; first] first
    (or_introl eq_refl) (or_intror (or_introl eq_refl))) as [_ Hf].
  destruct (Hg eq_refl) as [H1 _].
  destruct (Hf eq_refl eq_refl) as (H2 & H3 & H4).
  repeat split; assumption.
Defined.

(** *** Accounting *)

Lemma validateEntries_scanned filename entries : forall r,
  validateEntries entries filename r =
  fold_left (fun r fe => validateEntry (fst fe) r (snd fe))
            (map (fun e => (filename, e)) entries) r.
Proof.
  unfold validateEntries.
  induction entries as [|e es IH]; intros r; simpl; [reflexivity|apply IH].
Qed.

Lemma scanAllFiles_scanned files :
  scanAllFiles files =
  fold_left (fun r fe => validateEntry (fst fe) r (snd fe)) (scanned files)
            initialResults.
Proof.
  unfold scanAllFiles, scanned. generalize initialResults.
  induction files as [|f fs IH]; intros r; simpl; [reflexivity|].
  now rewrite fold_left_app, IH, validateEntries_scanned.
Qed.

Lemma duplicateInstances_push {A} (m : gmap JsVal (list A)) k d :
  duplicateInstances (<[k := (default [] (m !! k) ++ [d])%list]> m) =
  duplicateInstances m + 1.
Proof.
  unfold duplicateInstances.
  set (f := fun (_ : JsVal) (l : list A) (n : Z) => Z.of_nat (length l) + n).
  assert (C : forall (j1 j2 : JsVal) (z1 z2 : list A) (y : Z),
            f j1 z1 (f j2 z2 y) = f j2 z2 (f j1 z1 y)) by (intros; unfold f; lia).
  destruct (m !! k) as [l|] eqn:E; simpl.
  - rewrite <- insert_delete_eq.
    rewrite (map_fold_delete_L f 0 k l m) by (intros; auto).
    rewrite (map_fold_insert_L f) by (intros; first [apply C|apply lookup_delete_eq]).
    unfold f at 1 3. rewrite length_app. simpl. lia.
  - rewrite (map_fold_insert_L f) by (intros; auto). unfold f at 1. simpl. lia.
Qed.

Lemma validateEntry_wellFormed filename r e :
  wellFormed e = true ->
  validateEntry filename r e = trackSat filename e (trackBlock filename e (countEntry r)).
Proof.
  unfold wellFormed, validateEntry. intros H.
  apply andb_true_iff in H as [H1 H2].
  apply negb_true_iff in H1, H2. now rewrite H1, H2.
Qed.

Lemma validateEntry_malformed filename r e :
  wellFormed e = false ->
  exists why, validateEntry filename r e =
    pushInvalid {| invalidFile := filename; invalidEntry := e; reason := why |}
                (countEntry r).
Proof.
  unfold wellFormed, validateEntry. intros H.
  destruct (negb (truthy (block e)) || isUndefined (block e))%bool; [eauto|].
  destruct (negb (truthy (sat e)) && notZero (sat e))%bool; [eauto|discriminate].
Qed.

Lemma recordsOfBlock_snoc b l fe :
  recordsOfBlock b (l ++ [fe]) =
  (recordsOfBlock b l ++
   if (wellFormed (snd fe) && bool_decide (block (snd fe) = b))%bool then [fe] else [])%list.
Proof. unfold recordsOfBlock. rewrite List.filter_app. reflexivity. Qed.

Lemma recordsOfSat_snoc s l fe :
  recordsOfSat s (l ++ [fe]) =
  (recordsOfSat s l ++
   if (wellFormed (snd fe) && bool_decide (sat (snd fe) = s))%bool then [fe] else [])%list.
Proof. unfold recordsOfSat. rewrite List.filter_app. reflexivity. Qed.

Lemma BlocksTrack_step r l filename e :
  BlocksTrack r l ->
  BlocksTrack (validateEntry filename r e) (l ++ [(filename, e)]).
Proof.
  intros H b. rewrite recordsOfBlock_snoc. cbn [snd].
  destruct (wellFormed e) eqn:W.
  - rewrite validateEntry_wellFormed by assumption.
    replace (uniqueBlocks (trackSat filename e (trackBlock filename e (countEntry r))))
      with (uniqueBlocks (trackBlock filename e (countEntry r)))
      by (unfold trackSat; case_decide; reflexivity).
    replace (duplicateBlocks (trackSat filename e (trackBlock filename e (countEntry r))))
      with (duplicateBlocks (trackBlock filename e (countEntry r)))
      by (unfold trackSat; case_decide; reflexivity).
    replace (uniqueBlocks (trackBlock filename e (countEntry r)))
      with (if decide (block e ∈ uniqueBlocks r) then uniqueBlocks r
            else {[ block e ]} ∪ uniqueBlocks r)
      by (unfold trackBlock; cbn [uniqueBlocks countEntry]; case_decide; reflexivity).
    destruct (H (block e)) as [Hu Hd]. destruct (H b) as [Hub Hdb].
    cbn [andb]. destruct (decide (block e = b)) as [Eb|Nb].
    + subst b. rewrite bool_decide_eq_true_2 by reflexivity.
      unfold trackBlock. cbn [uniqueBlocks duplicateBlocks countEntry].
      destruct (decide (block e ∈ uniqueBlocks r)) as [Hin|Hout].
      * cbn [duplicateBlocks]. rewrite lookup_insert_eq.
        apply Hu in Hin. destruct (recordsOfBlock (block e) l) as [|x t] eqn:Er;
          [contradiction|].
        split; [split; [discriminate|intros _; apply Hu; discriminate]|].
        rewrite Hd. simpl. destruct t as [|y t]; simpl; [reflexivity|].
        now rewrite map_app.
      * cbn [duplicateBlocks].
        assert (Er : recordsOfBlock (block e) l = []).
        { destruct (recordsOfBlock (block e) l); [reflexivity|].
          destruct Hout. apply Hu. discriminate. }
        rewrite Er in *. simpl. split; [|exact Hd].
        split; [discriminate|intros _; apply elem_of_union_l, elem_of_singleton; reflexivity].
    + rewrite bool_decide_eq_false_2 by assumption. rewrite app_nil_r.
      unfold trackBlock. cbn [uniqueBlocks duplicateBlocks countEntry].
      destruct (decide (block e ∈ uniqueBlocks r)) as [Hin|Hout];
        cbn [duplicateBlocks].
      * rewrite lookup_insert_ne by assumption. split; assumption.
      * split; [|assumption]. rewrite <- Hub, elem_of_union, elem_of_singleton.
        intuition congruence.
  - destruct (validateEntry_malformed filename r e W) as [why ->].
    cbn [andb]. rewrite app_nil_r. exact (H b).
Qed.

Lemma SatsTrack_step r l filename e :
  SatsTrack r l ->
  SatsTrack (validateEntry filename r e) (l ++ [(filename, e)]).
Proof.
  intros H s. rewrite recordsOfSat_snoc. cbn [snd].
  destruct (wellFormed e) eqn:W.
  - rewrite validateEntry_wellFormed by assumption.
    set (r1 := trackBlock filename e (countEntry r)).
    assert (U1 : uniqueSats r1 = uniqueSats r)
      by (unfold r1, trackBlock; case_decide; reflexivity).
    assert (D1 : duplicateSats r1 = duplicateSats r)
      by (unfold r1, trackBlock; case_decide; reflexivity).
    destruct (H (sat e)) as [Hu Hd]. destruct (H s) as [Hus Hds].
    cbn [andb]. unfold trackSat. rewrite U1, D1.
    destruct (decide (sat e = s)) as [Es|Ns].
    + subst s. rewrite bool_decide_eq_true_2 by reflexivity.
      destruct (decide (sat e ∈ uniqueSats r)) as [Hin|Hout];
        cbn [uniqueSats duplicateSats]; rewrite ?U1, ?D1.
      * rewrite lookup_insert_eq.
        apply Hu in Hin. destruct (recordsOfSat (sat e) l) as [|x t] eqn:Er;
          [contradiction|].
        split; [split; [discriminate|intros _; apply Hu; discriminate]|].
        rewrite Hd. simpl. destruct t as [|y t]; simpl; [reflexivity|].
        now rewrite map_app.
      * assert (Er : recordsOfSat (sat e) l = []).
        { destruct (recordsOfSat (sat e) l); [reflexivity|].
          destruct Hout. apply Hu. discriminate. }
        rewrite Er in *. simpl. split; [|exact Hd].
        split; [discriminate|intros _; apply elem_of_union_l, elem_of_singleton; reflexivity].
    + rewrite bool_decide_eq_false_2 by assumption. rewrite app_nil_r.
      destruct (decide (sat e ∈ uniqueSats r)) as [Hin|Hout];
        cbn [uniqueSats duplicateSats]; rewrite ?U1, ?D1.
      * rewrite lookup_insert_ne by assumption. split; assumption.
      * split; [|assumption]. rewrite <- Hus, elem_of_union, elem_of_singleton.
        intuition congruence.
  - destruct (validateEntry_malformed filename r e W) as [why ->].
    cbn [andb]. rewrite app_nil_r. exact (H s).
Qed.

Lemma BlocksTrack_scan l :
  BlocksTrack (fold_left (fun r fe => validateEntry (fst fe) r (snd fe)) l
                         initialResults) l.
Proof.
  induction l as [|[f e] l IH] using rev_ind.
  - intros b. simpl. split; [|apply lookup_empty].
    split; [set_solver|congruence].
  - rewrite fold_left_app. simpl. now apply BlocksTrack_step.
Qed.

Lemma SatsTrack_scan l :
  SatsTrack (fold_left (fun r fe => validateEntry (fst fe) r (snd fe)) l
                       initialResults) l.
Proof.
  induction l as [|[f e] l IH] using rev_ind.
  - intros b. simpl. split; [|apply lookup_empty].
    split; [set_solver|congruence].
  - rewrite fold_left_app. simpl. now apply SatsTrack_step.
Qed.

Lemma validateEntry_account filename r e :
  let r' := validateEntry filename r e in
  totalEntries r' = totalEntries r + 1 /\
  Z.of_nat (length (invalidEntries r')) + Z.of_nat (size (uniqueBlocks r')) +
    duplicateInstances (duplicateBlocks r') =
  Z.of_nat (length (invalidEntries r)) + Z.of_nat (size (uniqueBlocks r)) +
    duplicateInstances (duplicateBlocks r) + 1 /\
  Z.of_nat (length (invalidEntries r')) + Z.of_nat (size (uniqueSats r')) +
    duplicateInstances (duplicateSats r') =
  Z.of_nat (length (invalidEntries r)) + Z.of_nat (size (uniqueSats r)) +
    duplicateInstances (duplicateSats r) + 1.
Proof.
  cbn zeta. destruct (wellFormed e) eqn:W.
  - rewrite validateEntry_wellFormed by assumption.
    unfold trackSat, trackBlock.
    destruct (decide (block e ∈ uniqueBlocks (countEntry r))) as [Hb|Hb];
      cbn [uniqueBlocks uniqueSats duplicateBlocks duplicateSats totalEntries
           invalidEntries countEntry] in *;
      destruct (decide (sat e ∈ uniqueSats r)) as [Hs|Hs];
      cbn [uniqueBlocks uniqueSats duplicateBlocks duplicateSats totalEntries
           invalidEntries countEntry];
      rewrite ?duplicateInstances_push;
      rewrite ?size_union, ?size_singleton by set_solver;
      repeat split; lia.
  - destruct (validateEntry_malformed filename r e W) as [why ->].
    cbn [pushInvalid countEntry uniqueBlocks uniqueSats duplicateBlocks
         duplicateSats totalEntries invalidEntries].
    rewrite length_app. simpl. repeat split; lia.
Qed.

Lemma recordsOfBlock_falsy b l : truthy b = false -> recordsOfBlock b l = [].
Proof.
  intros Hb. unfold recordsOfBlock.
  induction l as [|[f e] l IH]; [reflexivity|]. cbn [List.filter snd].
  destruct (decide (block e = b)) as [E|N].
  - unfold wellFormed. rewrite E, Hb. exact IH.
  - rewrite bool_decide_eq_false_2 by assumption. rewrite andb_false_r. exact IH.
Qed.

(** X11. Every scanned record is accounted for once: [totalEntries] is the
    number of records of all files, and it is the number of invalid entries
    plus the unique blocks plus the duplicate-block instances, and also the
    invalid entries plus the unique sats plus the duplicate-sat instances. *)
Theorem every_record_accounted_once (files : list (string * list Entry)) :
  let r := scanAllFiles files in
  totalEntries r = Z.of_nat (length (scanned files)) /\
  totalEntries r =
    Z.of_nat (length (invalidEntries r)) + Z.of_nat (size (uniqueBlocks r)) +
    duplicateInstances (duplicateBlocks r) /\
  totalEntries r =
    Z.of_nat (length (invalidEntries r)) + Z.of_nat (size (uniqueSats r)) +
    duplicateInstances (duplicateSats r).
Proof.
  cbn zeta. rewrite scanAllFiles_scanned.
  induction (scanned files) as [|[f e] l IH] using rev_ind.
  - cbn [fold_left initialResults totalEntries invalidEntries uniqueBlocks
         uniqueSats duplicateBlocks duplicateSats length].
    unfold duplicateInstances. rewrite !map_fold_empty, size_empty.
    repeat split; reflexivity.
  - rewrite fold_left_app, length_app. cbn [fold_left fst snd length].
    destruct IH as (I1 & I2 & I3).
    destruct (validateEntry_account f
      (fold_left (fun r fe => validateEntry (fst fe) r (snd fe)) l initialResults) e)
      as (A1 & A2 & A3).
    cbn zeta in A1, A2, A3. repeat split; lia.
Qed.

(** X12. After a scan, the duplicate list of a block holds the well-formed
    records with this block in scan order, except the first one: the first
    record of a block only enters [uniqueBlocks], and a block has an entry in
    [duplicateBlocks] exactly when two or more records carry it. *)
Theorem duplicate_blocks_skip_first (files : list (string * list Entry)) (b : JsVal) :
  let r := scanAllFiles files in
  (b ∈ uniqueBlocks r <-> recordsOfBlock b (scanned files) <> []) /\
  duplicateBlocks r !! b =
    match tail (recordsOfBlock b (scanned files)) with
    | [] => None
    | later => Some (map asDupBlock later)
    end.
Proof.
  cbn zeta. rewrite scanAllFiles_scanned. apply BlocksTrack_scan.
Qed.

(** X13. Likewise for sats: the duplicate list of a sat holds the
    well-formed records with this sat in scan order, except the first one. *)
Theorem duplicate_sats_skip_first (files : list (string * list Entry)) (s : JsVal) :
  let r := scanAllFiles files in
  (s ∈ uniqueSats r <-> recordsOfSat s (scanned files) <> []) /\
  duplicateSats r !! s =
    match tail (recordsOfSat s (scanned files)) with
    | [] => None
    | later => Some (map asDupSat later)
    end.
Proof.
  cbn zeta. rewrite scanAllFiles_scanned. apply SatsTrack_scan.
Qed.

(** X14. The report lists as missing exactly the heights below
    [TOTAL_BLOCKS] that no well-formed record carries as a number; height 0
    is always listed, whatever the registry holds. *)
Theorem missing_blocks_exact (files : list (string * list Entry)) (i : Z) :
  let r := scanAllFiles files in
  (In i (missingBlocks r) <->
   0 <= i < TOTAL_BLOCKS /\ recordsOfBlock (JsNum i) (scanned files) = []) /\
  In 0 (missingBlocks r).
Proof.
  cbn zeta.
  assert (Hrange : forall j, In j (map Z.of_nat (seq 0 (Z.to_nat TOTAL_BLOCKS))) <->
                             0 <= j < TOTAL_BLOCKS).
  { intros j. rewrite in_map_iff. unfold TOTAL_BLOCKS. split.
    - intros (n & <- & Hn). apply in_seq in Hn. lia.
    - intros Hj. exists (Z.to_nat j). split; [lia|]. apply in_seq. lia. }
  assert (Hm : forall j, In j (missingBlocks (scanAllFiles files)) <->
             0 <= j < TOTAL_BLOCKS /\ recordsOfBlock (JsNum j) (scanned files) = []).
  { intros j. unfold missingBlocks. rewrite filter_In, Hrange, negb_true_iff.
    rewrite bool_decide_eq_false. rewrite scanAllFiles_scanned.
    destruct (BlocksTrack_scan (scanned files) (JsNum j)) as [Hu _].
    rewrite Hu. destruct (recordsOfBlock (JsNum j) (scanned files)).
    - intuition congruence.
    - split; intros [? H0]; [destruct H0|]; discriminate. }
  split; [apply Hm|]. apply Hm. split; [unfold TOTAL_BLOCKS; lia|].
  now apply recordsOfBlock_falsy.
Qed.

End DuplicateValidator.

(** ** sat-comparator.mjs *)

Module SatComparator.

(** A record of the parsed JSON array; a missing property is [None]. *)
Record RawEntry := {
  rawSat : option Z;
  rawBlock : option Z;
  rawBlockheight : option Z
}.

(** A JavaScript [Map] from numbers to numbers, in insertion order.
    [file1Data] maps a sat to its block (the [source] label stored next to
    the block is the same for every entry of a file and is left out);
    [file1BlockToSat] maps a block to a sat. *)
Definition NumMap := list (Z * Z).

Fixpoint mapGet (k : Z) (m : NumMap) : option Z :=
  match m with
  | [] => None
  | (k', v) :: m' => if k' =? k then Some v else mapGet k m'
  end.

(** [m.set(k, v)]: an existing key keeps its place and takes the new value, a
    new key goes last. *)
Fixpoint mapSet (k v : Z) (m : NumMap) : NumMap :=
  match m with
  | [] => [(k, v)]
  | (k', v') :: m' => if k' =? k then (k, v) :: m' else (k', v') :: mapSet k v m'
  end.

Definition mapKeys (m : NumMap) : list Z := map fst m.

Definition mapSize (m : NumMap) : Z := Z.of_nat (length m).

(** [new Set(iterable)]: the distinct values in order of first occurrence. *)
Definition setAdd (acc : list Z) (x : Z) : list Z :=
  if existsb (Z.eqb x) acc then acc else acc ++ [x].

Definition setFrom (l : list Z) : list Z := fold_left setAdd l [].

(** [entry.block || entry.blockheight]. *)
Definition blockOf (e : RawEntry) : option Z :=
  if Js.truthyOptNum (rawBlock e) then rawBlock e else rawBlockheight e.

(** [loadFile], after [JSON.parse]: entries without a sat or a block are
    skipped with a warning. *)
Definition loadEntry (dataMap : NumMap) (e : RawEntry) : NumMap :=
  match rawSat e, blockOf e with
  | Some s, Some b => mapSet s b dataMap
  | _, _ => dataMap
  end.

Definition loadFile (jsonData : list RawEntry) : NumMap :=
  fold_left loadEntry jsonData [].

Inductive DiffType := CONFLICT | FILE1_ONLY | FILE2_ONLY | BLOCK_CONFLICT.

(** An element of [this.differences]; a property the object literal does not
    set, or sets to [null], is [None].  The [description] text, a rendering
    of the other fields, is left out. *)
Record DiffEntry := {
  type : DiffType;
  sat : option Z;
  file1Block : option Z;
  file2Block : option Z;
  block : option Z;
  file1Sat : option Z;
  file2Sat : option Z
}.

Record Stats := {
  file1Count : Z;
  file2Count : Z;
  matches : Z;
  conflicts : Z;
  file1Only : Z;
  file2Only : Z
}.

(** The fields of a [SatComparator] object. *)
Record Comparator := {
  file1Data : NumMap;
  file2Data : NumMap;
  differences : list DiffEntry;
  stats : Stats
}.

(** [new SatComparator()]. *)
Definition newComparator : Comparator :=
  {| file1Data := []; file2Data := []; differences := [];
     stats := {| file1Count := 0; file2Count := 0; matches := 0;
                 conflicts := 0; file1Only := 0; file2Only := 0 |} |}.

Definition satConflict (s b1 b2 : Z) : DiffEntry :=
  {| type := CONFLICT; sat := Some s; file1Block := Some b1; file2Block := Some b2;
     block := None; file1Sat := None; file2Sat := None |}.

Definition onlyInFile1 (s b1 : Z) : DiffEntry :=
  {| type := FILE1_ONLY; sat := Some s; file1Block := Some b1; file2Block := None;
     block := None; file1Sat := None; file2Sat := None |}.

Definition onlyInFile2 (s b2 : Z) : DiffEntry :=
  {| type := FILE2_ONLY; sat := Some s; file1Block := None; file2Block := Some b2;
     block := None; file1Sat := None; file2Sat := None |}.

Definition blockConflict (b s1 s2 : Z) : DiffEntry :=
  {| type := BLOCK_CONFLICT; sat := None; file1Block := None; file2Block := None;
     block := Some b; file1Sat := Some s1; file2Sat := Some s2 |}.

(** "Build reverse mappings (block -> sat)". *)
Definition reverseMap (data : NumMap) : NumMap :=
  fold_left (fun acc e => mapSet (snd e) (fst e) acc) data [].

(** The body of [for (const sat of allSats)], on the pair of
    [this.differences] and [this.stats]. *)
Definition compareSat (data1 data2 : NumMap) (st : list DiffEntry * Stats)
    (s : Z) : list DiffEntry * Stats :=
  let '(diffs, stats) := st in
  match mapGet s data1, mapGet s data2 with
  | Some b1, Some b2 =>
      if b1 =? b2 then
        (diffs,
         {| file1Count := file1Count stats; file2Count := file2Count stats;
            matches := matches stats + 1; conflicts := conflicts stats;
            file1Only := file1Only stats; file2Only := file2Only stats |})
      else
        (diffs ++ [satConflict s b1 b2],
         {| file1Count := file1Count stats; file2Count := file2Count stats;
            matches := matches stats; conflicts := conflicts stats + 1;
            file1Only := file1Only stats; file2Only := file2Only stats |})
  | Some b1, None =>
      (diffs ++ [onlyInFile1 s b1],
       {| file1Count := file1Count stats; file2Count := file2Count stats;
          matches := matches stats; conflicts := conflicts stats;
          file1Only := file1Only stats + 1; file2Only := file2Only stats |})
  | None, Some b2 =>
      (diffs ++ [onlyInFile2 s b2],
       {| file1Count := file1Count stats; file2Count := file2Count stats;
          matches := matches stats; conflicts := conflicts stats;
          file1Only := file1Only stats; file2Only := file2Only stats + 1 |})
  | None, None => (diffs, stats)
  end.

(** The body of [for (const block of allBlocks)]. *)
Definition compareBlock (blockToSat1 blockToSat2 : NumMap)
    (diffs : list DiffEntry) (b : Z) : list DiffEntry :=
  match mapGet b blockToSat1, mapGet b blockToSat2 with
  | Some s1, Some s2 =>
      if (Js.truthyNum s1 && Js.truthyNum s2 && negb (s1 =? s2))%bool
      then diffs ++ [blockConflict b s1 s2]
      else diffs
  | _, _ => diffs
  end.

(** The comparator handed to [this.differences.sort]:
    [a.sat && b.sat], then [a.block && b.block], then 0. *)
Definition compareDiff (a b : DiffEntry) : Z :=
  if (Js.truthyOptNum (sat a) && Js.truthyOptNum (sat b))%bool
  then default 0 (sat a) - default 0 (sat b)
  else if (Js.truthyOptNum (block a) && Js.truthyOptNum (block b))%bool
  then default 0 (block a) - default 0 (block b)
  else 0.

(** [compareFiles], given the two parsed arrays. *)
Definition compareFiles (json1 json2 : list RawEntry) (this : Comparator)
    : Comparator :=
  let data1 := loadFile json1 in
  let data2 := loadFile json2 in
  let stats0 :=
    {| file1Count := mapSize data1; file2Count := mapSize data2;
       matches := matches (stats this); conflicts := conflicts (stats this);
       file1Only := file1Only (stats this); file2Only := file2Only (stats this) |} in
  let file1BlockToSat := reverseMap data1 in
  let file2BlockToSat := reverseMap data2 in
  let allSats := setFrom (mapKeys data1 ++ mapKeys data2) in
  let '(diffs1, stats1) :=
    fold_left (compareSat data1 data2) allSats (differences this, stats0) in
  let allBlocks := setFrom (mapKeys file1BlockToSat ++ mapKeys file2BlockToSat) in
  let diffs2 :=
    fold_left (compareBlock file1BlockToSat file2BlockToSat) allBlocks diffs1 in
  {| file1Data := data1; file2Data := data2;
     differences := Js.sort compareDiff diffs2;
     stats := stats1 |}.

(** [diff(A, B)] of the design: a fresh comparator run on the two files. *)
Definition diff (json1 json2 : list RawEntry) : Comparator :=
  compareFiles json1 json2 newComparator.

Definition entry (s b : Z) : RawEntry :=
  {| rawSat := Some s; rawBlock := Some b; rawBlockheight := None |}.

(** How many entries of a given type a list of differences holds. *)
Definition typeEqb (t u : DiffType) : bool :=
  match t, u with
  | CONFLICT, CONFLICT | FILE1_ONLY, FILE1_ONLY
  | FILE2_ONLY, FILE2_ONLY | BLOCK_CONFLICT, BLOCK_CONFLICT => true
  | _, _ => false
  end.

Definition countType (t : DiffType) (l : list DiffEntry) : Z :=
  Z.of_nat (length (List.filter (fun d => typeEqb (type d) t) l)).

Definition isFileOnly (d : DiffEntry) : Prop :=
  type d = FILE1_ONLY \/ type d = FILE2_ONLY.

(** The order asked of the output: of two entries, the earlier one has the
    smaller (or equal) sat when both carry a sat, and otherwise the smaller
    (or equal) block when both carry a block. *)
Definition SortedBySatThenBlock (l : list DiffEntry) : Prop :=
  forall (i j : nat) (a b : DiffEntry),
    (i < j)%nat -> nth_error l i = Some a -> nth_error l j = Some b ->
    match sat a, sat b with
    | Some sa, Some sb => sa <= sb
    | _, _ =>
        match block a, block b with
        | Some ba, Some bb => ba <= bb
        | _, _ => True
        end
    end.

(** The two shapes of an entry whose order the comparator can tell: a
    sat entry with a nonzero sat, a block conflict with a nonzero block. *)
Definition isSatEntry (d : DiffEntry) : Prop :=
  exists s, sat d = Some s /\ s <> 0 /\ block d = None.

Definition isBlockEntry (d : DiffEntry) : Prop :=
  exists b, sat d = None /\ block d = Some b /\ b <> 0.

(** The order the comparator aims at: sat entries by sat, before the block
    conflicts by block. *)
Definition precedes (a b : DiffEntry) : Prop :=
  match sat a, sat b with
  | Some sa, Some sb => sa <= sb
  | Some _, None => True
  | None, Some _ => False
  | None, None =>
      match block a, block b with
      | Some ba, Some bb => ba <= bb
      | _, _ => True
      end
  end.

(** The processed prefix of the insertion sort, kept in reverse, is in
    order when every element is preceded by all that follow it. *)
Fixpoint RevSorted (r : list DiffEntry) : Prop :=
  match r with
  | [] => True
  | y :: rest => Forall (fun e => precedes e y) rest /\ RevSorted rest
  end.

(** Only file-only entries, one per key, for files with disjoint sats. *)
Definition DisjointDiffClaim (json1 json2 : list RawEntry) : Prop :=
  let c := diff json1 json2 in
  (forall s, In s (mapKeys (loadFile json1)) -> ~ In s (mapKeys (loadFile json2))) ->
  Forall isFileOnly (differences c) /\
  Z.of_nat (length (differences c)) = mapSize (loadFile json1) + mapSize (loadFile json2) /\
  matches (stats c) = 0 /\ conflicts (stats c) = 0 /\
  countType BLOCK_CONFLICT (differences c) = 0.

(** What one pass of the sat loop adds for a sat, if anything. *)
Definition satEntryFor (data1 data2 : NumMap) (s : Z) : option DiffEntry :=
  match mapGet s data1, mapGet s data2 with
  | Some b1, Some b2 => if b1 =? b2 then None else Some (satConflict s b1 b2)
  | Some b1, None => Some (onlyInFile1 s b1)
  | None, Some b2 => Some (onlyInFile2 s b2)
  | None, None => None
  end.

(** What one pass of the block loop adds for a block, if anything. *)
Definition blockEntryFor (blockToSat1 blockToSat2 : NumMap) (b : Z)
    : option DiffEntry :=
  match mapGet b blockToSat1, mapGet b blockToSat2 with
  | Some s1, Some s2 =>
      if (Js.truthyNum s1 && Js.truthyNum s2 && negb (s1 =? s2))%bool
      then Some (blockConflict b s1 s2) else None
  | _, _ => None
  end.

(** The same difference seen from the other file. *)
Definition swapSides (d : DiffEntry) : DiffEntry :=
  {| type := match type d with
             | FILE1_ONLY => FILE2_ONLY
             | FILE2_ONLY => FILE1_ONLY
             | t => t
             end;
     sat := sat d;
     file1Block := file2Block d; file2Block := file1Block d;
     block := block d;
     file1Sat := file2Sat d; file2Sat := file1Sat d |}.

(** The record of a file that decides the block of a sat: the last one with
    this sat and a block. *)
Definition lastBlockFor (s : Z) (jsonData : list RawEntry) : option Z :=
  match List.find (fun e => match rawSat e, blockOf e with
                            | Some s', Some _ => s' =? s
                            | _, _ => false
                            end) (rev jsonData) with
  | Some e => blockOf e
  | None => None
  end.

(** The entry of a dataset that decides the sat of a block in the reverse
    map: the last one, in insertion order, with this block. *)
Definition lastSatFor (b : Z) (data : NumMap) : option Z :=
  match List.find (fun e => snd e =? b) (rev data) with
  | Some e => Some (fst e)
  | None => None
  end.

(** The exit code of [main] after a comparison that loaded both files. *)
Definition exitCode (c : Comparator) : Z :=
  if (0 <? Z.of_nat (length (differences c))) then 1 else 0.

(** *** The sort returns a permutation *)

Lemma insertSorted_perm {A} (cmp : A -> A -> Z) x r :
  Permutation (Js.insertSorted cmp x r) (x :: r).
Proof.
  induction r as [|y r IH]; simpl; [reflexivity|].
  destruct (0 <? cmp y x); [|reflexivity].
  rewrite IH. apply perm_swap.
Qed.

Lemma sort_fold_perm {A} (cmp : A -> A -> Z) l : forall acc,
  Permutation (fold_left (fun acc x => Js.insertSorted cmp x acc) l acc) (l ++ acc).
Proof.
  induction l as [|x l IH]; intros acc; simpl; [reflexivity|].
  rewrite IH, insertSorted_perm. symmetry. apply Permutation_middle.
Qed.

Lemma sort_perm {A} (cmp : A -> A -> Z) l : Permutation (Js.sort cmp l) l.
Proof.
  unfold Js.sort. rewrite <- Permutation_rev, sort_fold_perm.
  now rewrite app_nil_r.
Qed.

Lemma countType_perm t l l' :
  Permutation l l' -> countType t l = countType t l'.
Proof.
  unfold countType. intros H. f_equal.
  induction H as [|x l l' H IH|x y l|l l' l'' H1 IH1 H2 IH2]; simpl.
  - reflexivity.
  - destruct (typeEqb (type x) t); simpl; congruence.
  - destruct (typeEqb (type x) t), (typeEqb (type y) t); reflexivity.
  - congruence.
Qed.

Lemma countType_app t l l' :
  countType t (l ++ l') = countType t l + countType t l'.
Proof. unfold countType. rewrite List.filter_app, length_app. lia. Qed.

Lemma countType_uniform t u l :
  Forall (fun d => type d = u) l ->
  countType t l = if typeEqb u t then Z.of_nat (length l) else 0.
Proof.
  unfold countType. induction 1 as [|d l Hd _ IH]; simpl.
  - now destruct (typeEqb u t).
  - rewrite Hd. destruct (typeEqb u t); simpl; lia.
Qed.

(** *** Maps and sets *)

Lemma existsb_eqb_In x l : existsb (Z.eqb x) l = true <-> In x l.
Proof.
  rewrite existsb_exists. split.
  - intros (y & Hy & Heq). apply Z.eqb_eq in Heq. now subst.
  - intros H. exists x. split; [assumption|apply Z.eqb_refl].
Qed.

Lemma setAdd_In acc x y : In y (setAdd acc x) <-> In y acc \/ y = x.
Proof.
  unfold setAdd. destruct (existsb (Z.eqb x) acc) eqn:E.
  - apply existsb_eqb_In in E. split; [tauto|]. intros [H| ->]; assumption.
  - rewrite in_app_iff. simpl. intuition congruence.
Qed.

Lemma setAdd_NoDup acc x : List.NoDup acc -> List.NoDup (setAdd acc x).
Proof.
  intros H. unfold setAdd. destruct (existsb (Z.eqb x) acc) eqn:E; [assumption|].
  assert (Hx : ~ In x acc).
  { intros Hin. apply existsb_eqb_In in Hin. congruence. }
  clear E. induction H as [|y l Hy Hl IH]; simpl.
  - constructor; [intros []|constructor].
  - constructor.
    + rewrite in_app_iff. simpl. intros [Hin|[->|[]]]; [contradiction|].
      apply Hx. now left.
    + apply IH. intros Hin. apply Hx. now right.
Qed.

Lemma setFrom_fresh l : forall acc,
  List.NoDup l -> (forall x, In x l -> ~ In x acc) ->
  fold_left setAdd l acc = acc ++ l.
Proof.
  induction l as [|a l IH]; intros acc Hnd Hfresh; simpl.
  - now rewrite app_nil_r.
  - inversion Hnd as [|? ? Ha Hl]; subst.
    assert (E : setAdd acc a = acc ++ [a]).
    { unfold setAdd. destruct (existsb (Z.eqb a) acc) eqn:E; [|reflexivity].
      apply existsb_eqb_In in E. exfalso. apply (Hfresh a); [now left|assumption]. }
    rewrite E, IH, <- app_assoc; [reflexivity|assumption|].
    intros x Hx Hin. apply in_app_iff in Hin as [Hin|[<-|[]]].
    + apply (Hfresh x); [now right|assumption].
    + contradiction.
Qed.

Lemma setFrom_known l : forall acc,
  (forall x, In x l -> In x acc) -> fold_left setAdd l acc = acc.
Proof.
  induction l as [|a l IH]; intros acc Hin; simpl; [reflexivity|].
  assert (E : setAdd acc a = acc).
  { unfold setAdd. destruct (existsb (Z.eqb a) acc) eqn:E; [reflexivity|].
    assert (In a acc) as Ha by (apply Hin; now left).
    apply existsb_eqb_In in Ha. congruence. }
  rewrite E. apply IH. intros x Hx. apply Hin. now right.
Qed.

Lemma mapKeys_mapSet k v m : mapKeys (mapSet k v m) = setAdd (mapKeys m) k.
Proof.
  unfold mapKeys, setAdd. induction m as [|[k' v'] m IH]; simpl; [reflexivity|].
  rewrite (Z.eqb_sym k k'). destruct (k' =? k) eqn:E; simpl.
  - apply Z.eqb_eq in E. now subst.
  - rewrite IH. destruct (existsb (Z.eqb k) (map fst m)); reflexivity.
Qed.

Lemma mapGet_In k m : In k (mapKeys m) -> exists v, mapGet k m = Some v.
Proof.
  unfold mapKeys. induction m as [|[k' v'] m IH]; simpl; [intros []|].
  destruct (k' =? k) eqn:E; [eauto|].
  intros [->|H]; [rewrite Z.eqb_refl in E; discriminate|auto].
Qed.

Lemma mapGet_not_In k m : ~ In k (mapKeys m) -> mapGet k m = None.
Proof.
  unfold mapKeys. induction m as [|[k' v'] m IH]; simpl; [reflexivity|].
  intros H. destruct (k' =? k) eqn:E.
  - apply Z.eqb_eq in E. subst. exfalso. apply H. now left.
  - apply IH. intros Hin. apply H. now right.
Qed.

Lemma loadFile_NoDup json : List.NoDup (mapKeys (loadFile json)).
Proof.
  unfold loadFile.
  assert (G : forall acc, List.NoDup (mapKeys acc) ->
            List.NoDup (mapKeys (fold_left loadEntry json acc))).
  { induction json as [|e json IH]; intros acc H; simpl; [assumption|].
    apply IH. unfold loadEntry.
    destruct (rawSat e); [|assumption]. destruct (blockOf e); [|assumption].
    rewrite mapKeys_mapSet. now apply setAdd_NoDup. }
  apply G. constructor.
Qed.

Lemma reverseMap_keys data k :
  In k (mapKeys (reverseMap data)) -> In k (map snd data).
Proof.
  unfold reverseMap.
  assert (G : forall acc, In k (mapKeys (fold_left
              (fun acc e => mapSet (snd e) (fst e) acc) data acc)) ->
            In k (mapKeys acc) \/ In k (map snd data)).
  { induction data as [|e data IH]; intros acc H; simpl in *; [now left|].
    apply IH in H as [H|H]; [|now right; right].
    rewrite mapKeys_mapSet in H. apply setAdd_In in H as [H| ->]; auto. }
  intros H. apply G in H as [[]|H]. assumption.
Qed.

(** *** The two loops *)

Lemma compareSat_same data l : forall diffs st,
  (forall s, In s l -> In s (mapKeys data)) ->
  fold_left (compareSat data data) l (diffs, st) =
  (diffs,
   {| file1Count := file1Count st; file2Count := file2Count st;
      matches := matches st + Z.of_nat (length l); conflicts := conflicts st;
      file1Only := file1Only st; file2Only := file2Only st |}).
Proof.
  induction l as [|s l IH]; intros diffs st Hin.
  - simpl. destruct st; simpl. now rewrite Z.add_0_r.
  - cbn [fold_left]. unfold compareSat at 2.
    destruct (mapGet_In s data) as [b Hb]; [apply Hin; now left|].
    rewrite Hb, Z.eqb_refl, IH by (intros x Hx; apply Hin; now right).
    cbn [file1Count file2Count matches conflicts file1Only file2Only length].
    do 2 f_equal. lia.
Qed.

Lemma compareSat_only1 data1 data2 l : forall diffs st,
  (forall s, In s l -> In s (mapKeys data1) /\ ~ In s (mapKeys data2)) ->
  fold_left (compareSat data1 data2) l (diffs, st) =
  (diffs ++ map (fun s => onlyInFile1 s (default 0 (mapGet s data1))) l,
   {| file1Count := file1Count st; file2Count := file2Count st;
      matches := matches st; conflicts := conflicts st;
      file1Only := file1Only st + Z.of_nat (length l);
      file2Only := file2Only st |}).
Proof.
  induction l as [|s l IH]; intros diffs st Hin.
  - simpl. destruct st; simpl. now rewrite Z.add_0_r, app_nil_r.
  - cbn [fold_left]. unfold compareSat at 2.
    destruct (Hin s (or_introl eq_refl)) as [H1 H2].
    destruct (mapGet_In s data1 H1) as [b Hb].
    rewrite Hb, (mapGet_not_In s data2 H2), IH
      by (intros x Hx; apply Hin; now right).
    cbn [file1Count file2Count matches conflicts file1Only file2Only length map].
    rewrite Hb, <- app_assoc. simpl. do 2 f_equal. lia.
Qed.

Lemma compareSat_only2 data1 data2 l : forall diffs st,
  (forall s, In s l -> ~ In s (mapKeys data1) /\ In s (mapKeys data2)) ->
  fold_left (compareSat data1 data2) l (diffs, st) =
  (diffs ++ map (fun s => onlyInFile2 s (default 0 (mapGet s data2))) l,
   {| file1Count := file1Count st; file2Count := file2Count st;
      matches := matches st; conflicts := conflicts st;
      file1Only := file1Only st;
      file2Only := file2Only st + Z.of_nat (length l) |}).
Proof.
  induction l as [|s l IH]; intros diffs st Hin.
  - simpl. destruct st; simpl. now rewrite Z.add_0_r, app_nil_r.
  - cbn [fold_left]. unfold compareSat at 2.
    destruct (Hin s (or_introl eq_refl)) as [H1 H2].
    destruct (mapGet_In s data2 H2) as [b Hb].
    rewrite Hb, (mapGet_not_In s data1 H1), IH
      by (intros x Hx; apply Hin; now right).
    cbn [file1Count file2Count matches conflicts file1Only file2Only length map].
    rewrite Hb, <- app_assoc. simpl. do 2 f_equal. lia.
Qed.

Lemma compareBlock_same m l : forall diffs,
  fold_left (compareBlock m m) l diffs = diffs.
Proof.
  induction l as [|b l IH]; intros diffs; simpl; [reflexivity|].
  unfold compareBlock at 2. destruct (mapGet b m) as [s|]; [|apply IH].
  rewrite Z.eqb_refl, andb_false_r. apply IH.
Qed.

Lemma compareBlock_step m1 m2 diffs b :
  exists extra,
    compareBlock m1 m2 diffs b = diffs ++ extra /\
    Forall (fun d => type d = BLOCK_CONFLICT) extra /\
    (~ (In b (mapKeys m1) /\ In b (mapKeys m2)) -> extra = []).
Proof.
  unfold compareBlock.
  destruct (mapGet b m1) as [s1|] eqn:G1.
  2:{ exists []. rewrite app_nil_r. auto. }
  destruct (mapGet b m2) as [s2|] eqn:G2.
  2:{ exists []. rewrite app_nil_r. auto. }
  destruct (Js.truthyNum s1 && Js.truthyNum s2 && negb (s1 =? s2))%bool.
  2:{ exists []. rewrite app_nil_r. auto. }
  exists [blockConflict b s1 s2]. repeat split; [constructor; auto|].
  intros Hdis. exfalso. apply Hdis. split.
  - destruct (in_dec Z.eq_dec b (mapKeys m1)) as [|n]; [assumption|].
    rewrite (mapGet_not_In b m1 n) in G1. discriminate.
  - destruct (in_dec Z.eq_dec b (mapKeys m2)) as [|n]; [assumption|].
    rewrite (mapGet_not_In b m2 n) in G2. discriminate.
Qed.

Lemma compareBlock_shape m1 m2 l : forall diffs,
  exists extra,
    fold_left (compareBlock m1 m2) l diffs = diffs ++ extra /\
    Forall (fun d => type d = BLOCK_CONFLICT) extra /\
    ((forall b, In b l -> ~ (In b (mapKeys m1) /\ In b (mapKeys m2))) ->
     extra = []).
Proof.
  induction l as [|b l IH]; intros diffs.
  - exists []. simpl. rewrite app_nil_r. repeat split; auto.
  - cbn [fold_left].
    destruct (compareBlock_step m1 m2 diffs b) as (x & Ex & Fx & Nx).
    rewrite Ex.
    destruct (IH (diffs ++ x)) as (extra & E & HF & Hnone).
    exists (x ++ extra). rewrite E, <- app_assoc. repeat split.
    + apply Forall_app. now split.
    + intros Hdis. rewrite Nx, Hnone; [reflexivity| |].
      * intros b' Hb'. apply Hdis. now right.
      * apply Hdis. now left.
Qed.

Lemma allSats_same keys : List.NoDup keys -> setFrom (keys ++ keys) = keys.
Proof.
  intros H. unfold setFrom. rewrite fold_left_app.
  rewrite (setFrom_fresh keys [] H) by (intros ? ? []).
  simpl. apply setFrom_known. auto.
Qed.

Lemma allSats_disjoint keys1 keys2 :
  List.NoDup keys1 -> List.NoDup keys2 ->
  (forall s, In s keys1 -> ~ In s keys2) ->
  setFrom (keys1 ++ keys2) = keys1 ++ keys2.
Proof.
  intros H1 H2 Hdis. unfold setFrom. rewrite fold_left_app.
  rewrite (setFrom_fresh keys1 [] H1) by (intros ? ? []).
  simpl. apply setFrom_fresh; [assumption|].
  intros x Hx Hin. now apply (Hdis x).
Qed.

(** C4, as the code has it.  Comparing a dataset with itself records no
    difference entry at all: the matches are only counted, in
    [stats.matches], which ends equal to the size of the dataset, and every
    conflict counter stays at zero. *)
Theorem diff_same_counts_matches (json : list RawEntry) :
  let c := diff json json in
  differences c = [] /\
  matches (stats c) = mapSize (loadFile json) /\
  conflicts (stats c) = 0 /\
  file1Only (stats c) = 0 /\
  file2Only (stats c) = 0 /\
  countType BLOCK_CONFLICT (differences c) = 0.
Proof.
  unfold diff, compareFiles.
  rewrite (allSats_same _ (loadFile_NoDup json)).
  rewrite compareSat_same by auto.
  rewrite compareBlock_same. simpl.
  unfold mapSize, mapKeys. rewrite length_map. repeat split; reflexivity.
Qed.

(** C4, as stated, fails: for the one-entry dataset [{sat: 100, block: 5}]
    the list of differences is empty, so it does not hold one entry per key. *)
Lemma diff_same_has_no_match_entry :
  let json := [entry 100 5] in
  Z.of_nat (length (differences (diff json json))) <> mapSize (loadFile json).
Proof. vm_compute. discriminate. Qed.

(** C3, as stated, fails: sats 100 and 200 are distinct keys, yet both claim
    block 5 and the comparison adds a BLOCK_CONFLICT entry to the two
    file-only entries. *)
Lemma disjoint_sats_block_conflict :
  ~ DisjointDiffClaim [entry 100 5] [entry 200 5].
Proof.
  unfold DisjointDiffClaim. intros H.
  assert (Hdis : forall s, In s (mapKeys (loadFile [entry 100 5])) ->
                 ~ In s (mapKeys (loadFile [entry 200 5]))).
  { simpl. intros s [<-|[]] [E|[]]. discriminate. }
  destruct (H Hdis) as (_ & Hlen & _). vm_compute in Hlen. discriminate.
Qed.

(** C3, as the code has it.  For datasets with disjoint sat sets the
    comparison yields exactly one FILE1_ONLY entry per key of the first and
    one FILE2_ONLY entry per key of the second, no match and no sat
    conflict; when, moreover, no block is claimed in both datasets, these are
    the only entries. *)
Theorem disjoint_sats_diff (json1 json2 : list RawEntry) :
  let data1 := loadFile json1 in
  let data2 := loadFile json2 in
  let c := diff json1 json2 in
  (forall s, In s (mapKeys data1) -> ~ In s (mapKeys data2)) ->
  countType FILE1_ONLY (differences c) = mapSize data1 /\
  countType FILE2_ONLY (differences c) = mapSize data2 /\
  countType CONFLICT (differences c) = 0 /\
  matches (stats c) = 0 /\
  conflicts (stats c) = 0 /\
  ((forall b, In b (map snd data1) -> ~ In b (map snd data2)) ->
   Forall isFileOnly (differences c) /\
   countType BLOCK_CONFLICT (differences c) = 0 /\
   Z.of_nat (length (differences c)) = mapSize data1 + mapSize data2).
Proof.
  intros data1 data2 c Hdis. subst c. unfold diff, compareFiles.
  fold data1 data2.
  rewrite (allSats_disjoint (mapKeys data1) (mapKeys data2)
             (loadFile_NoDup json1) (loadFile_NoDup json2) Hdis).
  rewrite fold_left_app.
  rewrite compareSat_only1
    by (intros s Hs; split; [assumption|now apply Hdis]).
  rewrite compareSat_only2
    by (intros s Hs; split; [intros H1; now apply (Hdis s)|assumption]).
  cbn [differences stats newComparator file1Count file2Count matches conflicts
       file1Only file2Only app].
  set (only1 := map (fun s => onlyInFile1 s (default 0 (mapGet s data1))) (mapKeys data1)).
  set (only2 := map (fun s => onlyInFile2 s (default 0 (mapGet s data2))) (mapKeys data2)).
  destruct (compareBlock_shape (reverseMap data1) (reverseMap data2)
              (setFrom (mapKeys (reverseMap data1) ++ mapKeys (reverseMap data2)))
              (only1 ++ only2)) as (extra & E & HF & Hnone).
  rewrite E. clear E.
  assert (F1 : Forall (fun d => type d = FILE1_ONLY) only1).
  { subst only1. apply List.Forall_forall. intros d Hd.
    apply in_map_iff in Hd as (s & <- & _). reflexivity. }
  assert (F2 : Forall (fun d => type d = FILE2_ONLY) only2).
  { subst only2. apply List.Forall_forall. intros d Hd.
    apply in_map_iff in Hd as (s & <- & _). reflexivity. }
  assert (L1 : Z.of_nat (length only1) = mapSize data1).
  { subst only1. unfold mapSize, mapKeys. now rewrite !length_map. }
  assert (L2 : Z.of_nat (length only2) = mapSize data2).
  { subst only2. unfold mapSize, mapKeys. now rewrite !length_map. }
  rewrite !(countType_perm _ _ _ (sort_perm compareDiff _)).
  rewrite !countType_app.
  rewrite !(countType_uniform _ _ _ F1), !(countType_uniform _ _ _ F2),
          !(countType_uniform _ _ _ HF).
  cbn [typeEqb].
  do 5 (split; [lia|]).
  intros Hblocks.
  assert (Hextra : extra = []).
  { apply Hnone. intros b _ [H1 H2].
    apply reverseMap_keys in H1. apply reverseMap_keys in H2.
    now apply (Hblocks b). }
  subst extra. rewrite app_nil_r. split; [|split].
  - eapply Permutation_Forall; [symmetry; apply sort_perm|].
    apply Forall_app. split.
    + eapply List.Forall_impl; [|exact F1]. intros d Hd. now left.
    + eapply List.Forall_impl; [|exact F2]. intros d Hd. now right.
  - reflexivity.
  - rewrite (Permutation_length (sort_perm compareDiff _)), length_app. lia.
Qed.

Lemma disjoint_sats_diff_witness :
  let json1 := [entry 100 5; entry 101 6] in
  let json2 := [entry 200 7] in
  let c := diff json1 json2 in
  countType FILE1_ONLY (differences c) = 2 /\
  countType FILE2_ONLY (differences c) = 1 /\
  Z.of_nat (length (differences c)) = 3.
Proof.
  intros json1 json2 c.
  assert (Hdis : forall s, In s (mapKeys (loadFile json1)) ->
                 ~ In s (mapKeys (loadFile json2))).
  { simpl. intros s [<-|[<-|[]]] [E|[]]; discriminate. }
  destruct (disjoint_sats_diff json1 json2 Hdis) as (H1 & H2 & _ & _ & _ & H6).
  assert (Hblocks : forall b, In b (map snd (loadFile json1)) ->
                    ~ In b (map snd (loadFile json2))).
  { simpl. intros b [<-|[<-|[]]] [E|[]]; discriminate. }
  destruct (H6 Hblocks) as (_ & _ & H7).
  repeat split; assumption.
Defined.

(** *** The sort puts zero-free differences in order *)

Lemma compareDiff_sats x y sx sy :
  sat x = Some sx -> sx <> 0 -> sat y = Some sy -> sy <> 0 ->
  compareDiff y x = sy - sx.
Proof.
  intros Hx Nx Hy Ny. unfold compareDiff. rewrite Hx, Hy. simpl.
  unfold Js.truthyNum.
  destruct (Z.eqb_spec sy 0); [contradiction|].
  destruct (Z.eqb_spec sx 0); [contradiction|]. reflexivity.
Qed.

Lemma compareDiff_blocks x y bx by' :
  sat x = None -> block x = Some bx -> bx <> 0 ->
  sat y = None -> block y = Some by' -> by' <> 0 ->
  compareDiff y x = by' - bx.
Proof.
  intros Sx Hx Nx Sy Hy Ny. unfold compareDiff. rewrite Sx, Sy, Hx, Hy. simpl.
  unfold Js.truthyNum.
  destruct (Z.eqb_spec by' 0); [contradiction|].
  destruct (Z.eqb_spec bx 0); [contradiction|]. reflexivity.
Qed.

Lemma compareDiff_mixed x y :
  isBlockEntry x -> isSatEntry y -> compareDiff y x = 0.
Proof.
  intros (b & Sx & Bx & _) (s & Sy & _ & By). unfold compareDiff.
  rewrite Sx, Sy, By. simpl. now rewrite andb_false_r.
Qed.

Lemma insert_sat_entry x : isSatEntry x -> forall r,
  Forall isSatEntry r -> RevSorted r ->
  RevSorted (Js.insertSorted compareDiff x r).
Proof.
  intros (sx & Hx & Nx & Bx). induction r as [|y rest IH]; intros Hall Hs; simpl.
  { split; [constructor|exact I]. }
  inversion Hall as [|? ? Hy Hrest]; subst. destruct Hs as [Hprec Hs].
  destruct Hy as (sy & Hy & Ny & By).
  rewrite (compareDiff_sats x y sx sy Hx Nx Hy Ny).
  destruct (Z.ltb_spec 0 (sy - sx)); simpl.
  - split; [|now apply IH].
    eapply Permutation_Forall; [symmetry; apply insertSorted_perm|].
    constructor; [|assumption]. unfold precedes. rewrite Hx, Hy. lia.
  - split; [|split; assumption].
    constructor; [unfold precedes; rewrite Hx, Hy; lia|].
    rewrite List.Forall_forall in Hprec, Hrest |- *. intros e He.
    specialize (Hprec e He). destruct (Hrest e He) as (se & He' & _ & _).
    unfold precedes in *. rewrite He', Hy in Hprec. rewrite He', Hx. lia.
Qed.

Lemma insert_block_entry x : isBlockEntry x -> forall r,
  Forall (fun e => isSatEntry e \/ isBlockEntry e) r -> RevSorted r ->
  RevSorted (Js.insertSorted compareDiff x r).
Proof.
  intros Hbx. pose proof Hbx as (bx & Sx & Bx & Nx).
  induction r as [|y rest IH]; intros Hall Hs; simpl.
  { split; [constructor|exact I]. }
  inversion Hall as [|? ? Hy Hrest]; subst. destruct Hs as [Hprec Hs].
  destruct Hy as [Hy|Hy].
  - rewrite (compareDiff_mixed x y Hbx Hy). simpl.
    split; [|split; assumption].
    destruct Hy as (sy & Hy & _ & _).
    constructor; [unfold precedes; now rewrite Hy, Sx|].
    rewrite List.Forall_forall in Hprec |- *. intros e He.
    specialize (Hprec e He). unfold precedes in *. rewrite Hy in Hprec.
    rewrite Sx. destruct (sat e); [exact I|contradiction].
  - destruct Hy as (by' & Sy & By & Ny).
    rewrite (compareDiff_blocks x y bx by' Sx Bx Nx Sy By Ny).
    destruct (Z.ltb_spec 0 (by' - bx)); simpl.
    + split; [|now apply IH].
      eapply Permutation_Forall; [symmetry; apply insertSorted_perm|].
      constructor; [|assumption]. unfold precedes. rewrite Sx, Sy, Bx, By. lia.
    + split; [|split; assumption].
      constructor; [unfold precedes; rewrite Sx, Sy, Bx, By; lia|].
      rewrite List.Forall_forall in Hprec, Hrest |- *. intros e He.
      specialize (Hprec e He). unfold precedes in *. rewrite Sy, By in Hprec.
      rewrite Sx, Bx. destruct (Hrest e He) as [(se & He' & _ & _)|(be & Se & Be & _)].
      * now rewrite He'.
      * rewrite Se, Be in Hprec |- *. lia.
Qed.

Lemma fold_insert_sats l : forall r,
  Forall isSatEntry l -> Forall isSatEntry r -> RevSorted r ->
  let r' := fold_left (fun acc x => Js.insertSorted compareDiff x acc) l r in
  Forall isSatEntry r' /\ RevSorted r'.
Proof.
  induction l as [|x l IH]; intros r Hl Hr Hs; simpl; [now split|].
  inversion Hl as [|? ? Hx Hl']; subst. apply IH; [assumption| |].
  - eapply Permutation_Forall; [symmetry; apply insertSorted_perm|].
    now constructor.
  - now apply insert_sat_entry.
Qed.

Lemma fold_insert_blocks l : forall r,
  Forall isBlockEntry l -> Forall (fun e => isSatEntry e \/ isBlockEntry e) r ->
  RevSorted r ->
  RevSorted (fold_left (fun acc x => Js.insertSorted compareDiff x acc) l r).
Proof.
  induction l as [|x l IH]; intros r Hl Hr Hs; simpl; [assumption|].
  inversion Hl as [|? ? Hx Hl']; subst. apply IH; [assumption| |].
  - eapply Permutation_Forall; [symmetry; apply insertSorted_perm|].
    constructor; [now right|assumption].
  - now apply insert_block_entry.
Qed.

Lemma RevSorted_rev r : RevSorted r ->
  forall (i j : nat) (a b : DiffEntry),
    (i < j)%nat -> nth_error (rev r) i = Some a -> nth_error (rev r) j = Some b ->
    precedes a b.
Proof.
  induction r as [|y rest IH]; intros Hs i j a b Hij Ha Hb; simpl in *.
  { destruct i; discriminate. }
  destruct Hs as [Hprec Hs].
  assert (Hj : (j < length (rev rest ++ [y]))%nat)
    by (apply nth_error_Some; congruence).
  rewrite length_app in Hj. simpl in Hj.
  rewrite nth_error_app1 in Ha by lia.
  destruct (Nat.eq_dec j (length (rev rest))) as [->|Hne].
  - rewrite nth_error_app2, Nat.sub_diag in Hb by lia. simpl in Hb.
    injection Hb as <-. rewrite List.Forall_forall in Hprec. apply Hprec.
    apply in_rev. eapply nth_error_In. exact Ha.
  - rewrite nth_error_app1 in Hb by lia. now apply (IH Hs i j).
Qed.

Lemma precedes_sorted a b :
  isSatEntry a \/ isBlockEntry a ->
  precedes a b ->
  match sat a, sat b with
  | Some sa, Some sb => sa <= sb
  | _, _ =>
      match block a, block b with
      | Some ba, Some bb => ba <= bb
      | _, _ => True
      end
  end.
Proof.
  unfold precedes. intros [(s & Sa & _ & Ba)|(b' & Sa & Ba & _)]; rewrite Sa, Ba.
  - destruct (sat b); auto.
  - destruct (sat b); [contradiction|auto].
Qed.

(** A list of sat entries followed by block conflicts, none with a zero,
    comes out of the sort in order. *)
Lemma sort_zero_free sats blocks :
  Forall isSatEntry sats -> Forall isBlockEntry blocks ->
  SortedBySatThenBlock (Js.sort compareDiff (sats ++ blocks)).
Proof.
  intros Hs Hb. unfold Js.sort. rewrite fold_left_app.
  destruct (fold_insert_sats sats [] Hs (List.Forall_nil _) I) as [Hall Hsorted].
  set (r := fold_left _ sats []) in *.
  assert (Hr : RevSorted (fold_left
            (fun acc x => Js.insertSorted compareDiff x acc) blocks r)).
  { apply fold_insert_blocks; [assumption| |assumption].
    eapply List.Forall_impl; [|exact Hall]. intros e He. now left. }
  intros i j a b Hij Ha Hb'. apply precedes_sorted.
  - assert (Hin : In a (sats ++ blocks)).
    { eapply Permutation_in; [apply (sort_perm compareDiff)|].
      unfold Js.sort. rewrite fold_left_app. eapply nth_error_In. exact Ha. }
    apply in_app_iff in Hin as [Hin|Hin].
    + left. rewrite List.Forall_forall in Hs. now apply Hs.
    + right. rewrite List.Forall_forall in Hb. now apply Hb.
  - now apply (RevSorted_rev _ Hr i j).
Qed.

Lemma setFrom_In x l : In x (setFrom l) -> In x l.
Proof.
  unfold setFrom.
  assert (G : forall acc, In x (fold_left setAdd l acc) -> In x acc \/ In x l).
  { induction l as [|y l IH]; intros acc H; simpl in *; [now left|].
    apply IH in H as [H|H]; [|now right; right].
    apply setAdd_In in H as [H| ->]; auto. }
  intros H. apply G in H as [[]|H]. assumption.
Qed.

Lemma compareSat_entries data1 data2 l : forall diffs st,
  exists found,
    fst (fold_left (compareSat data1 data2) l (diffs, st)) = diffs ++ found /\
    Forall (fun d => exists s, In s l /\ sat d = Some s /\ block d = None) found.
Proof.
  induction l as [|s l IH]; intros diffs st.
  - exists []. simpl. now rewrite app_nil_r.
  - cbn [fold_left].
    assert (Hstep : exists x st', compareSat data1 data2 (diffs, st) s = (diffs ++ x, st') /\
              Forall (fun d => sat d = Some s /\ block d = None) x).
    { unfold compareSat.
      destruct (mapGet s data1) as [b1|], (mapGet s data2) as [b2|].
      - destruct (b1 =? b2); eexists _, _; split;
          [rewrite app_nil_r; reflexivity|constructor|reflexivity|].
        now repeat constructor.
      - eexists _, _. split; [reflexivity|]. now repeat constructor.
      - eexists _, _. split; [reflexivity|]. now repeat constructor.
      - exists [], st. now rewrite app_nil_r. }
    destruct Hstep as (x & st' & E & Hx). rewrite E.
    destruct (IH (diffs ++ x) st') as (found & E' & Hfound).
    exists (x ++ found). rewrite E', <- app_assoc. split; [reflexivity|].
    apply Forall_app. split.
    + eapply List.Forall_impl; [|exact Hx]. intros d [H1 H2]. exists s.
      repeat split; auto. now left.
    + eapply List.Forall_impl; [|exact Hfound]. intros d (s' & Hin & H1 & H2).
      exists s'. repeat split; auto. now right.
Qed.

Lemma compareBlock_entries m1 m2 l : forall diffs,
  exists extra,
    fold_left (compareBlock m1 m2) l diffs = diffs ++ extra /\
    Forall (fun d => exists b, In b l /\ sat d = None /\ block d = Some b) extra.
Proof.
  induction l as [|b l IH]; intros diffs.
  - exists []. simpl. now rewrite app_nil_r.
  - cbn [fold_left].
    assert (Hstep : exists x, compareBlock m1 m2 diffs b = diffs ++ x /\
              Forall (fun d => sat d = None /\ block d = Some b) x).
    { unfold compareBlock.
      destruct (mapGet b m1) as [s1|]; [|exists []; now rewrite app_nil_r].
      destruct (mapGet b m2) as [s2|]; [|exists []; now rewrite app_nil_r].
      destruct (_ && _)%bool; [|exists []; now rewrite app_nil_r].
      eexists. split; [reflexivity|]. now repeat constructor. }
    destruct Hstep as (x & E & Hx). rewrite E.
    destruct (IH (diffs ++ x)) as (extra & E' & Hextra).
    exists (x ++ extra). rewrite E', <- app_assoc. split; [reflexivity|].
    apply Forall_app. split.
    + eapply List.Forall_impl; [|exact Hx]. intros d [H1 H2]. exists b.
      repeat split; auto. now left.
    + eapply List.Forall_impl; [|exact Hextra]. intros d (b' & Hin & H1 & H2).
      exists b'. repeat split; auto. now right.
Qed.

(** When neither file has sat 0 or block 0 the differences do come out
    sorted by sat, the block conflicts after them sorted by block. *)
Theorem sorted_without_zero (json1 json2 : list RawEntry) :
  let data1 := loadFile json1 in
  let data2 := loadFile json2 in
  (forall s, In s (mapKeys data1 ++ mapKeys data2) -> s <> 0) ->
  (forall b, In b (map snd data1 ++ map snd data2) -> b <> 0) ->
  SortedBySatThenBlock (differences (diff json1 json2)).
Proof.
  intros data1 data2 Hsats Hblocks. unfold diff, compareFiles. fold data1 data2.
  destruct (compareSat_entries data1 data2
              (setFrom (mapKeys data1 ++ mapKeys data2)) []
              {| file1Count := mapSize data1; file2Count := mapSize data2;
                 matches := 0; conflicts := 0; file1Only := 0; file2Only := 0 |})
    as (found & E & Hfound).
  cbn [differences stats newComparator matches conflicts file1Only file2Only].
  destruct (fold_left (compareSat data1 data2) _ _) as [diffs1 stats1].
  simpl in E. subst diffs1.
  destruct (compareBlock_entries (reverseMap data1) (reverseMap data2)
              (setFrom (mapKeys (reverseMap data1) ++ mapKeys (reverseMap data2)))
              found) as (extra & E & Hextra).
  rewrite E. cbn [differences]. apply sort_zero_free.
  - eapply List.Forall_impl; [|exact Hfound].
    intros d (s & Hin & H1 & H2). exists s. repeat split; auto.
    apply Hsats. now apply setFrom_In.
  - eapply List.Forall_impl; [|exact Hextra].
    intros d (b & Hin & H1 & H2). exists b. repeat split; auto.
    apply Hblocks. apply setFrom_In in Hin.
    apply in_app_iff in Hin as [Hin|Hin]; apply reverseMap_keys in Hin;
      apply in_app_iff; auto.
Qed.

(** C5 fails on the code.  With sats 5, 0 and 3 in the first file and an
    empty second file, the comparator returns 0 whenever sat 0 is involved
    ([a.sat && b.sat] is falsy), nothing moves, and the output keeps sat 5
    before sat 3. *)
Theorem sat_zero_breaks_sort_order :
  let c := diff [entry 5 1; entry 0 2; entry 3 3] [] in
  map sat (differences c) = [Some 5; Some 0; Some 3] /\
  ~ SortedBySatThenBlock (differences c).
Proof.
  split; [reflexivity|].
  intros H.
  specialize (H 0%nat 2%nat (onlyInFile1 5 1) (onlyInFile1 3 3)).
  simpl in H. assert (5 <= 3) by (apply H; [lia|reflexivity|reflexivity]). lia.
Qed.

(** *** The comparison as a whole *)

Lemma mapGet_mapSet k v m k' :
  mapGet k' (mapSet k v m) = if k =? k' then Some v else mapGet k' m.
Proof.
  induction m as [|[k0 v0] m IH]; simpl; [reflexivity|].
  destruct (Z.eqb_spec k0 k) as [->|Hne]; simpl.
  - destruct (k =? k'); reflexivity.
  - destruct (Z.eqb_spec k0 k') as [->|Hne'].
    + destruct (Z.eqb_spec k k'); [congruence|reflexivity].
    + exact IH.
Qed.

Lemma mapGet_Some_In k v m : mapGet k m = Some v -> In k (mapKeys m).
Proof.
  intros H. destruct (in_dec Z.eq_dec k (mapKeys m)) as [|n]; [assumption|].
  rewrite (mapGet_not_In k m n) in H. discriminate.
Qed.

Lemma In_omap {A B : Type} (f : A -> option B) l y :
  In y (omap f l) <-> exists x, In x l /\ f x = Some y.
Proof.
  rewrite <- list_elem_of_In, list_elem_of_omap.
  split; intros (x & Hx & E); exists x; split; auto; now apply list_elem_of_In.
Qed.

Lemma setFrom_fold_In x l : forall acc,
  In x (fold_left setAdd l acc) <-> In x acc \/ In x l.
Proof.
  induction l as [|y l IH]; intros acc; simpl; [tauto|].
  rewrite IH, setAdd_In. intuition congruence.
Qed.

Lemma setFrom_In_iff x l : In x (setFrom l) <-> In x l.
Proof. unfold setFrom. rewrite setFrom_fold_In. simpl. tauto. Qed.

Lemma setFrom_NoDup l : List.NoDup (setFrom l).
Proof.
  unfold setFrom.
  assert (G : forall acc, List.NoDup acc -> List.NoDup (fold_left setAdd l acc)).
  { induction l as [|y l IH]; intros acc H; simpl; [assumption|].
    apply IH. now apply setAdd_NoDup. }
  apply G. constructor.
Qed.

Lemma compareSat_fold_diffs data1 data2 l : forall diffs st,
  fst (fold_left (compareSat data1 data2) l (diffs, st)) =
  diffs ++ omap (satEntryFor data1 data2) l.
Proof.
  induction l as [|s l IH]; intros diffs st; simpl; [now rewrite app_nil_r|].
  unfold satEntryFor at 1.
  destruct (mapGet s data1) as [b1|], (mapGet s data2) as [b2|];
    try destruct (b1 =? b2); rewrite IH; simpl; now rewrite <- ?app_assoc.
Qed.

Lemma compareBlock_fold_diffs m1 m2 l : forall diffs,
  fold_left (compareBlock m1 m2) l diffs = diffs ++ omap (blockEntryFor m1 m2) l.
Proof.
  induction l as [|b l IH]; intros diffs; simpl; [now rewrite app_nil_r|].
  unfold compareBlock at 2, blockEntryFor at 1.
  destruct (mapGet b m1) as [s1|], (mapGet b m2) as [s2|];
    try destruct (_ && _)%bool; rewrite IH; simpl; now rewrite <- ?app_assoc.
Qed.

(** The differences of a fresh comparison are, up to the order the sort
    gives them, what the two loops add. *)
Lemma differences_perm json1 json2 :
  let data1 := loadFile json1 in
  let data2 := loadFile json2 in
  Permutation (differences (diff json1 json2))
    (omap (satEntryFor data1 data2) (setFrom (mapKeys data1 ++ mapKeys data2)) ++
     omap (blockEntryFor (reverseMap data1) (reverseMap data2))
       (setFrom (mapKeys (reverseMap data1) ++ mapKeys (reverseMap data2)))).
Proof.
  intros data1 data2. unfold diff, compareFiles. fold data1 data2.
  pose proof (compareSat_fold_diffs data1 data2
    (setFrom (mapKeys data1 ++ mapKeys data2)) (differences newComparator)
    {| file1Count := mapSize data1; file2Count := mapSize data2;
       matches := matches (stats newComparator);
       conflicts := conflicts (stats newComparator);
       file1Only := file1Only (stats newComparator);
       file2Only := file2Only (stats newComparator) |}) as E.
  destruct (fold_left (compareSat data1 data2) _ _) as [diffs1 stats1].
  simpl in E. subst diffs1. cbn [differences].
  rewrite compareBlock_fold_diffs. apply sort_perm.
Qed.

Lemma In_differences json1 json2 d :
  let data1 := loadFile json1 in
  let data2 := loadFile json2 in
  In d (differences (diff json1 json2)) <->
  (exists s, satEntryFor data1 data2 s = Some d) \/
  (exists b, blockEntryFor (reverseMap data1) (reverseMap data2) b = Some d).
Proof.
  intros data1 data2. split.
  - intros H. eapply Permutation_in in H; [|apply differences_perm].
    apply in_app_iff in H as [H|H]; apply In_omap in H as (x & _ & E); eauto.
  - intros H. eapply Permutation_in; [symmetry; apply differences_perm|].
    apply in_app_iff. fold data1 data2. destruct H as [(s & E)|(b & E)].
    + left. apply In_omap. exists s. split; [|exact E].
      apply setFrom_In_iff, in_app_iff. unfold satEntryFor in E.
      destruct (mapGet s data1) eqn:G1; [left; eapply mapGet_Some_In; eauto|].
      destruct (mapGet s data2) eqn:G2; [right; eapply mapGet_Some_In; eauto|].
      discriminate.
    + right. apply In_omap. exists b. split; [|exact E].
      apply setFrom_In_iff, in_app_iff. unfold blockEntryFor in E.
      destruct (mapGet b (reverseMap data1)) eqn:G1; [|discriminate].
      left. eapply mapGet_Some_In; eauto.
Qed.

(** X1. The block a loaded file holds for a sat is the block of the last
    record of the array that has this sat and a block ([block], or
    [blockheight] when [block] is missing or 0); records without a sat or
    without a block decide nothing. *)
Theorem loadFile_last_record_wins (jsonData : list RawEntry) (s : Z) :
  mapGet s (loadFile jsonData) = lastBlockFor s jsonData.
Proof.
  unfold lastBlockFor, loadFile.
  induction jsonData as [|e json IH] using rev_ind; [reflexivity|].
  rewrite fold_left_app, rev_app_distr. simpl. unfold loadEntry at 1.
  destruct (rawSat e) as [s'|]; [|exact IH].
  destruct (blockOf e) as [b|] eqn:Eb; [|exact IH].
  rewrite mapGet_mapSet. destruct (s' =? s); [now rewrite Eb|exact IH].
Qed.

(** X2. The differences of a comparison, as a set, are exactly: a CONFLICT
    for each sat that both files hold with different blocks, a FILE1_ONLY
    or FILE2_ONLY for each sat only one file holds, and a BLOCK_CONFLICT for
    each block that both reverse maps hold with different, nonzero sats. *)
Theorem differences_exact (json1 json2 : list RawEntry) (d : DiffEntry) :
  let data1 := loadFile json1 in
  let data2 := loadFile json2 in
  In d (differences (diff json1 json2)) <->
  (exists s b1 b2, d = satConflict s b1 b2 /\
     mapGet s data1 = Some b1 /\ mapGet s data2 = Some b2 /\ b1 <> b2) \/
  (exists s b1, d = onlyInFile1 s b1 /\
     mapGet s data1 = Some b1 /\ mapGet s data2 = None) \/
  (exists s b2, d = onlyInFile2 s b2 /\
     mapGet s data1 = None /\ mapGet s data2 = Some b2) \/
  (exists b s1 s2, d = blockConflict b s1 s2 /\
     mapGet b (reverseMap data1) = Some s1 /\
     mapGet b (reverseMap data2) = Some s2 /\
     s1 <> 0 /\ s2 <> 0 /\ s1 <> s2).
Proof.
  intros data1 data2. rewrite In_differences. fold data1 data2.
  unfold satEntryFor, blockEntryFor. split.
  - intros [(s & E)|(b & E)].
    + destruct (mapGet s data1) as [b1|] eqn:G1, (mapGet s data2) as [b2|] eqn:G2;
        try discriminate.
      * destruct (Z.eqb_spec b1 b2); [discriminate|]. injection E as <-.
        left. exists s, b1, b2. auto.
      * injection E as <-. right. left. exists s, b1. auto.
      * injection E as <-. right. right. left. exists s, b2. auto.
    + destruct (mapGet b (reverseMap data1)) as [s1|] eqn:G1; [|discriminate].
      destruct (mapGet b (reverseMap data2)) as [s2|] eqn:G2; [|discriminate].
      unfold Js.truthyNum in E.
      destruct (Z.eqb_spec s1 0), (Z.eqb_spec s2 0), (Z.eqb_spec s1 s2);
        simpl in E; try discriminate.
      injection E as <-. right. right. right. exists b, s1, s2. auto 10.
  - intros [(s & b1 & b2 & -> & G1 & G2 & Hne)|[(s & b1 & -> & G1 & G2)|
            [(s & b2 & -> & G1 & G2)|(b & s1 & s2 & -> & G1 & G2 & N1 & N2 & Hne)]]].
    + left. exists s. rewrite G1, G2. destruct (Z.eqb_spec b1 b2); [contradiction|].
      reflexivity.
    + left. exists s. now rewrite G1, G2.
    + left. exists s. now rewrite G1, G2.
    + right. exists b. rewrite G1, G2. unfold Js.truthyNum.
      destruct (Z.eqb_spec s1 0), (Z.eqb_spec s2 0), (Z.eqb_spec s1 s2);
        try contradiction. reflexivity.
Qed.

Lemma satEntryFor_swap data1 data2 s :
  satEntryFor data2 data1 s = option_map swapSides (satEntryFor data1 data2 s).
Proof.
  unfold satEntryFor.
  destruct (mapGet s data1) as [b1|], (mapGet s data2) as [b2|]; try reflexivity.
  rewrite (Z.eqb_sym b2 b1). destruct (b1 =? b2); reflexivity.
Qed.

Lemma blockEntryFor_swap m1 m2 b :
  blockEntryFor m2 m1 b = option_map swapSides (blockEntryFor m1 m2 b).
Proof.
  unfold blockEntryFor.
  destruct (mapGet b m1) as [s1|], (mapGet b m2) as [s2|]; try reflexivity.
  rewrite (Z.eqb_sym s2 s1), (andb_comm (Js.truthyNum s2)).
  destruct (_ && _)%bool; reflexivity.
Qed.

Lemma omap_option_map {A B C : Type} (f : A -> option B) (g : B -> C)
    (l : list A) :
  omap (fun x => option_map g (f x)) l = map g (omap f l).
Proof.
  induction l as [|x l IH]; simpl; [reflexivity|].
  destruct (f x); simpl; [f_equal|]; exact IH.
Qed.

Lemma omap_ext_eq {A B : Type} (f g : A -> option B) (l : list A) :
  (forall x, f x = g x) -> omap f l = omap g l.
Proof.
  intros H. induction l as [|x l IH]; simpl; [reflexivity|].
  rewrite H. destruct (g x); [f_equal|]; exact IH.
Qed.

Lemma setFrom_app_comm l l' : Permutation (setFrom (l ++ l')) (setFrom (l' ++ l)).
Proof.
  apply Permutation.NoDup_Permutation; try apply setFrom_NoDup.
  intros x. rewrite !setFrom_In_iff, !in_app_iff. tauto.
Qed.

Lemma omap_perm {A B : Type} (f : A -> option B) (l l' : list A) :
  Permutation l l' -> Permutation (omap f l) (omap f l').
Proof.
  induction 1 as [|x l l' H IH|x y l|l l' l'' H1 IH1 H2 IH2]; simpl.
  - constructor.
  - destruct (f x); [now constructor|assumption].
  - destruct (f x), (f y); try reflexivity. constructor.
  - etransitivity; eassumption.
Qed.

Lemma countType_cons t d l :
  countType t (d :: l) = (if typeEqb (type d) t then 1 else 0) + countType t l.
Proof.
  unfold countType. simpl. destruct (typeEqb (type d) t); simpl length; lia.
Qed.

Lemma stats_fold data1 data2 l : forall diffs st,
  let r := fold_left (compareSat data1 data2) l (diffs, st) in
  file1Count (snd r) = file1Count st /\ file2Count (snd r) = file2Count st /\
  matches (snd r) + conflicts (snd r) + file1Only (snd r) =
    matches st + conflicts st + file1Only st +
    Z.of_nat (length (List.filter (fun s => bool_decide (is_Some (mapGet s data1))) l)) /\
  matches (snd r) + conflicts (snd r) + file2Only (snd r) =
    matches st + conflicts st + file2Only st +
    Z.of_nat (length (List.filter (fun s => bool_decide (is_Some (mapGet s data2))) l)) /\
  conflicts (snd r) = conflicts st + countType CONFLICT (omap (satEntryFor data1 data2) l) /\
  file1Only (snd r) = file1Only st + countType FILE1_ONLY (omap (satEntryFor data1 data2) l) /\
  file2Only (snd r) = file2Only st + countType FILE2_ONLY (omap (satEntryFor data1 data2) l).
Proof.
  induction l as [|s l IH]; intros diffs st; cbn zeta.
  - simpl. unfold countType. simpl. repeat split; lia.
  - cbn [fold_left List.filter omap list_omap].
    specialize (IH (fst (compareSat data1 data2 (diffs, st) s))
                   (snd (compareSat data1 data2 (diffs, st) s))).
    cbn zeta in IH. rewrite <- surjective_pairing in IH.
    destruct IH as (I1 & I2 & I3 & I4 & I5 & I6 & I7).
    rewrite I1, I2, I3, I4, I5, I6, I7. clear.
    unfold compareSat, satEntryFor.
    destruct (mapGet s data1) as [b1|], (mapGet s data2) as [b2|];
      try destruct (b1 =? b2); cbn [fst snd file1Count file2Count matches
        conflicts file1Only file2Only];
      rewrite ?bool_decide_eq_true_2 by eauto;
      rewrite ?bool_decide_eq_false_2 by (intros [? ?]; discriminate);
      cbn [length]; rewrite ?countType_cons; simpl; repeat split; lia.
Qed.

Lemma keys_counted (m : NumMap) l :
  List.NoDup (mapKeys m) -> List.NoDup l -> (forall x, In x (mapKeys m) -> In x l) ->
  Z.of_nat (length (List.filter (fun s => bool_decide (is_Some (mapGet s m))) l)) =
  mapSize m.
Proof.
  intros Hm Hl Hsub. unfold mapSize. f_equal.
  rewrite <- (length_map fst m). fold (mapKeys m).
  apply Permutation_length, Permutation.NoDup_Permutation;
    [now apply List.NoDup_filter|assumption|].
  intros x. rewrite filter_In, bool_decide_eq_true. split.
  - intros [_ [v Hv]]. eapply mapGet_Some_In; eauto.
  - intros Hx. split; [auto|]. destruct (mapGet_In x m Hx) as [v Hv]. eauto.
Qed.

Lemma blockEntry_types m1 m2 l t :
  t <> BLOCK_CONFLICT -> countType t (omap (blockEntryFor m1 m2) l) = 0.
Proof.
  intros Ht. rewrite (countType_uniform t BLOCK_CONFLICT).
  - destruct t; try reflexivity. contradiction.
  - apply List.Forall_forall. intros d Hd. apply In_omap in Hd as (b & _ & E).
    unfold blockEntryFor in E.
    destruct (mapGet b m1), (mapGet b m2); try discriminate.
    destruct (_ && _)%bool; [|discriminate]. injection E as <-. reflexivity.
Qed.

(** X3. Comparing the files in the other order reports the same differences
    seen from the other side: FILE1_ONLY and FILE2_ONLY change places, as do
    the file-1 and file-2 blocks and sats of every entry; no difference
    appears or disappears. *)
Theorem diff_swapped_files (json1 json2 : list RawEntry) :
  Permutation (differences (diff json2 json1))
              (map swapSides (differences (diff json1 json2))).
Proof.
  rewrite (differences_perm json2 json1).
  rewrite (Permutation_map swapSides (differences_perm json1 json2)).
  cbn zeta. rewrite map_app.
  apply Permutation_app.
  - rewrite <- omap_option_map.
    rewrite (omap_ext_eq _ _ _ (satEntryFor_swap (loadFile json1) (loadFile json2))).
    apply omap_perm, setFrom_app_comm.
  - rewrite <- omap_option_map.
    rewrite (omap_ext_eq _ _ _ (blockEntryFor_swap (reverseMap (loadFile json1))
                                                   (reverseMap (loadFile json2)))).
    apply omap_perm, setFrom_app_comm.
Qed.

(** X4. The counters of the summary add up: every sat of file 1 is counted
    once, as a match, a conflict or a file-1-only sat, and likewise for
    file 2; and the conflict, file-1-only and file-2-only counters are the
    numbers of entries of these types in the differences. *)
Theorem stats_account_for_every_sat (json1 json2 : list RawEntry) :
  let c := diff json1 json2 in
  file1Count (stats c) = matches (stats c) + conflicts (stats c) + file1Only (stats c) /\
  file2Count (stats c) = matches (stats c) + conflicts (stats c) + file2Only (stats c) /\
  countType CONFLICT (differences c) = conflicts (stats c) /\
  countType FILE1_ONLY (differences c) = file1Only (stats c) /\
  countType FILE2_ONLY (differences c) = file2Only (stats c).
Proof.
  intros c.
  assert (Hd : forall t, t <> BLOCK_CONFLICT ->
            countType t (differences c) =
            countType t (omap (satEntryFor (loadFile json1) (loadFile json2))
              (setFrom (mapKeys (loadFile json1) ++ mapKeys (loadFile json2))))).
  { intros t Ht. subst c. rewrite (countType_perm t _ _ (differences_perm json1 json2)).
    cbn zeta. rewrite countType_app, blockEntry_types by assumption. lia. }
  rewrite !Hd by discriminate. clear Hd. subst c.
  unfold diff, compareFiles.
  set (data1 := loadFile json1). set (data2 := loadFile json2).
  set (allSats := setFrom (mapKeys data1 ++ mapKeys data2)).
  pose proof (stats_fold data1 data2 allSats (differences newComparator)
    {| file1Count := mapSize data1; file2Count := mapSize data2;
       matches := matches (stats newComparator);
       conflicts := conflicts (stats newComparator);
       file1Only := file1Only (stats newComparator);
       file2Only := file2Only (stats newComparator) |}) as H.
  cbn zeta in H.
  destruct (fold_left (compareSat data1 data2) allSats _) as [diffs1 stats1].
  cbn [snd stats file1Count file2Count matches conflicts file1Only file2Only
       newComparator] in *.
  destruct H as (I1 & I2 & I3 & I4 & I5 & I6 & I7).
  rewrite (keys_counted data1 allSats) in I3.
  rewrite (keys_counted data2 allSats) in I4.
  - repeat split; lia.
  - apply loadFile_NoDup.
  - apply setFrom_NoDup.
  - intros x Hx. apply setFrom_In_iff, in_app_iff. now right.
  - apply loadFile_NoDup.
  - apply setFrom_NoDup.
  - intros x Hx. apply setFrom_In_iff, in_app_iff. now left.
Qed.

(** X5. [main] exits with code 0, "files are identical", exactly when the
    two files hold the same block for every sat and no block is tied to two
    different nonzero sats by the two reverse maps.  The first part alone is
    not enough: the reverse maps depend on the order of the records. *)
Theorem exit_code_zero_iff (json1 json2 : list RawEntry) :
  let data1 := loadFile json1 in
  let data2 := loadFile json2 in
  exitCode (diff json1 json2) = 0 <->
  (forall s, mapGet s data1 = mapGet s data2) /\
  (forall b s1 s2,
     mapGet b (reverseMap data1) = Some s1 ->
     mapGet b (reverseMap data2) = Some s2 ->
     s1 = 0 \/ s2 = 0 \/ s1 = s2).
Proof.
  intros data1 data2. unfold exitCode.
  assert (E : (0 <? Z.of_nat (length (differences (diff json1 json2)))) = false <->
              forall d, ~ In d (differences (diff json1 json2))).
  { destruct (differences (diff json1 json2)) as [|d l]; simpl.
    - split; [intros _ d []|reflexivity].
    - split; [discriminate|]. intros H. destruct (H d). now left. }
  split.
  - intros H.
    assert (Hno : forall d, ~ In d (differences (diff json1 json2))).
    { apply E. destruct (0 <? _); [discriminate|reflexivity]. }
    split.
    + intros s. pose proof (fun d => proj2 (In_differences json1 json2 d)) as Hin.
      cbn zeta in Hin. fold data1 data2 in Hin.
      destruct (satEntryFor data1 data2 s) as [d|] eqn:Es.
      * destruct (Hno d). apply Hin. eauto.
      * unfold satEntryFor in Es.
        destruct (mapGet s data1) as [b1|], (mapGet s data2) as [b2|];
          try discriminate; [|reflexivity].
        destruct (Z.eqb_spec b1 b2); [congruence|discriminate].
    + intros b s1 s2 G1 G2.
      destruct (Z.eq_dec s1 0) as [|N1]; [now left|].
      destruct (Z.eq_dec s2 0) as [|N2]; [now right; left|].
      destruct (Z.eq_dec s1 s2) as [|N]; [now right; right|].
      destruct (Hno (blockConflict b s1 s2)).
      apply In_differences. right. exists b. fold data1 data2.
      unfold blockEntryFor. rewrite G1, G2. unfold Js.truthyNum.
      destruct (Z.eqb_spec s1 0), (Z.eqb_spec s2 0), (Z.eqb_spec s1 s2);
        try contradiction. reflexivity.
  - intros [Hs Hb].
    assert (Hno : forall d, ~ In d (differences (diff json1 json2))).
    { intros d Hd. apply In_differences in Hd. fold data1 data2 in Hd.
      destruct Hd as [(s & Es)|(b & Eb)].
      - unfold satEntryFor in Es. rewrite (Hs s) in Es.
        destruct (mapGet s data2) as [b2|]; [|discriminate].
        rewrite Z.eqb_refl in Es. discriminate.
      - unfold blockEntryFor in Eb.
        destruct (mapGet b (reverseMap data1)) as [s1|] eqn:G1; [|discriminate].
        destruct (mapGet b (reverseMap data2)) as [s2|] eqn:G2; [|discriminate].
        unfold Js.truthyNum in Eb.
        destruct (Hb b s1 s2 G1 G2) as [->|[->| ->]]; simpl in Eb.
        + discriminate.
        + rewrite andb_false_r in Eb. discriminate.
        + rewrite Z.eqb_refl, andb_false_r in Eb. discriminate. }
    apply E in Hno. now rewrite Hno.
Qed.

(** X6. The reverse map ties a block to the sat of the last entry, in the
    insertion order of the loaded file, that has this block: when a file
    gives one block to several sats, only the last of them can appear in a
    BLOCK_CONFLICT. *)
Theorem reverseMap_last_sat_wins (data : NumMap) (b : Z) :
  mapGet b (reverseMap data) = lastSatFor b data.
Proof.
  unfold lastSatFor, reverseMap.
  induction data as [|[s b'] data IH] using rev_ind; [reflexivity|].
  rewrite fold_left_app, rev_app_distr. simpl.
  rewrite mapGet_mapSet. destruct (b' =? b); [reflexivity|exact IH].
Qed.

End SatComparator.

(** ** validator.mjs *)

Module RegistryComparator.

(** [getRegistryFileForBlock]: the name of the partition file that holds a
    block, [null] for a block out of range. *)
Definition getRegistryFileForBlock (block : Z) : option string :=
  if ((block <? 0) || (999999999 <? block))%bool then None
  else
    let rangeStart := (block / 10000) * 10000 in
    let rangeEnd := rangeStart + 9999 in
    Some (Js.numToString rangeStart ++ "-" ++ Js.numToString rangeEnd ++ ".json")%string.

(** A record of a registry partition file: [{ block, iD, sat }]. *)
Record RegistryEntry := { block : Z; iD : option string }.

(** One element of [this.results]. *)
Record FileResult := { filename : string; hasDifferences : bool }.

(** The fields of a [RegistryComparator] object. *)
Record Comparator := {
  repo1Base : string;
  repo2Base : string;
  repo1ListUrl : string;
  repo2ListUrl : string;
  results : list FileResult;
  registryCache : gmap string (list RegistryEntry);
  suppressFileOutput : Js.JsVal
}.

(** *** The constructor *)

(** A value handed to the constructor or found in a scope: a scalar, an
    object with scalar properties, or something opaque (a function, a class,
    an imported module). *)
Inductive Value :=
| VScalar (v : Js.JsVal)
| VObject (props : list (string * Js.JsVal))
| VOpaque.

Inductive Thrown :=
| ReferenceError (message : string)
| TypeError (message : string).

(** The bindings of the module: its imports, constants, functions and the
    class. *)
Definition moduleScope : list string :=
  ["https"; "fs"; "path"; "fileURLToPath"; "dirname"; "SatComparator";
   "__filename"; "__dirname"; "getRegistryFileForBlock"; "colors";
   "RegistryComparator"; "main"].

(** The formal parameters of [constructor()]. *)
Definition constructorParams : list string := [].

Fixpoint bindParams (params : list string) (args : list Value)
    : list (string * Value) :=
  match params with
  | [] => []
  | p :: params' =>
      match args with
      | [] => (p, VScalar Js.JsUndefined) :: bindParams params' []
      | a :: args' => (p, a) :: bindParams params' args'
      end
  end.

Fixpoint assoc (x : string) (l : list (string * Value)) : option Value :=
  match l with
  | [] => None
  | (y, v) :: l' => if String.eqb y x then Some v else assoc x l'
  end.

(** Identifier resolution inside the constructor: the parameters, then the
    module bindings, then the properties of the global object. *)
Definition resolveIdentifier (locals globals : list (string * Value))
    (x : string) : Thrown + Value :=
  match assoc x locals with
  | Some v => inr v
  | None =>
      if existsb (String.eqb x) moduleScope then inr VOpaque
      else match assoc x globals with
           | Some v => inr v
           | None => inl (ReferenceError (x ++ " is not defined"))
           end
  end.

Fixpoint getProp (x : string) (props : list (string * Js.JsVal)) : Js.JsVal :=
  match props with
  | [] => Js.JsUndefined
  | (y, v) :: props' => if String.eqb y x then v else getProp x props'
  end.

(** [o.suppressFileOutput]. *)
Definition readSuppressFileOutput (o : Value) : Thrown + Js.JsVal :=
  match o with
  | VScalar Js.JsUndefined | VScalar Js.JsNull =>
      inl (TypeError "Cannot read properties of undefined")
  | VScalar _ | VOpaque => inr Js.JsUndefined
  | VObject props => inr (getProp "suppressFileOutput" props)
  end.

(** [new RegistryComparator(...args)]: the assignments of the constructor in
    order; the last one evaluates [options.suppressFileOutput || false]. *)
Definition construct (globals : list (string * Value)) (args : list Value)
    : Thrown + Comparator :=
  let locals := bindParams constructorParams args in
  match resolveIdentifier locals globals "options" with
  | inl e => inl e
  | inr options =>
      match readSuppressFileOutput options with
      | inl e => inl e
      | inr flag =>
          inr {| repo1Base := "https://raw.githubusercontent.com/your-org/repo1/main/Registry/";
                 repo2Base := "https://raw.githubusercontent.com/your-org/repo2/main/Registry/";
                 repo1ListUrl := "https://api.github.com/repos/your-org/repo1/contents/Registry";
                 repo2ListUrl := "https://api.github.com/repos/your-org/repo2/contents/Registry";
                 results := [];
                 registryCache := ∅;
                 suppressFileOutput :=
                   if Js.truthy flag then flag else Js.JsBool false |}
      end
  end.

(** The global object of the runtime the tools start in. *)
Definition nodeGlobals : list (string * Value) :=
  [("globalThis", VOpaque); ("process", VOpaque); ("console", VOpaque);
   ("Buffer", VOpaque); ("setTimeout", VOpaque); ("Promise", VOpaque);
   ("Map", VOpaque); ("Date", VOpaque); ("JSON", VOpaque); ("Math", VOpaque)].

(** *** The registry cache *)

Section Lookups.

(** The network: [fetchJSON url] either resolves with the parsed partition
    file or rejects ([None]); the world changes with every request. *)
Context {World : Type}.
Variable fetchJSON : string -> World -> option (list RegistryEntry) * World.

(** A comparator at work: the object, the outside world, and the network
    requests issued so far, each with its URL and whether it succeeded. *)
Record RunState := {
  this : Comparator;
  world : World;
  requests : list (string * bool)
}.

Definition setCache (cache : gmap string (list RegistryEntry)) (c : Comparator)
    : Comparator :=
  {| repo1Base := repo1Base c; repo2Base := repo2Base c;
     repo1ListUrl := repo1ListUrl c; repo2ListUrl := repo2ListUrl c;
     results := results c; registryCache := cache;
     suppressFileOutput := suppressFileOutput c |}.

(** [fetchRegistryFile(repoBase, filename)]. *)
Definition fetchRegistryFile (repoBase filename : string) (st : RunState)
    : list RegistryEntry * RunState :=
  let cacheKey := (repoBase ++ filename)%string in
  match registryCache (this st) !! cacheKey with
  | Some data => (data, st)
  | None =>
      let url := (repoBase ++ filename)%string in
      match fetchJSON url (world st) with
      | (Some data, w) =>
          (data,
           {| this := setCache (<[cacheKey := data]> (registryCache (this st))) (this st);
              world := w;
              requests := requests st ++ [(url, true)] |})
      | (None, w) =>
          ([],
           {| this := this st; world := w;
              requests := requests st ++ [(url, false)] |})
      end
  end.

(** [getInscriptionIdForBlock(block, repoBase)]. *)
Definition getInscriptionIdForBlock (blk : Z) (repoBase : string) (st : RunState)
    : option string * RunState :=
  match getRegistryFileForBlock blk with
  | None => (None, st)
  | Some registryFile =>
      let '(registryData, st') := fetchRegistryFile repoBase registryFile st in
      match List.find (fun item => block item =? blk) registryData with
      | Some entry => (iD entry, st')
      | None => (None, st')
      end
  end.

(** The identity lookups of a run, in order: each asks for a block in one
    of the repositories. *)
Definition lookupAll (asked : list (Z * string)) (st : RunState) : RunState :=
  fold_left (fun st q => snd (getInscriptionIdForBlock (fst q) (snd q) st)) asked st.

(** The number of requests made for a URL. *)
Definition fetchCount (url : string) (log : list (string * bool)) : nat :=
  length (List.filter (fun r => String.eqb (fst r) url) log).

(** A fresh run: an empty cache and no request made yet. *)
Definition startRun (c : Comparator) (w : World) : RunState :=
  {| this := setCache ∅ c; world := w; requests := [] |}.

End Lookups.

(** The number of successful requests made for a URL. *)
Definition successCount (url : string) (log : list (string * bool)) : nat :=
  length (List.filter (fun r => (String.eqb (fst r) url && snd r)%bool) log).

(** No URL is requested again once a request for it has succeeded. *)
Fixpoint noFetchAfterSuccess (log : list (string * bool)) : Prop :=
  match log with
  | [] => True
  | (url, ok) :: rest =>
      (ok = true -> ~ In url (map fst rest)) /\ noFetchAfterSuccess rest
  end.

(** A repository that cannot be reached: every request is rejected. *)
Definition unreachable : string -> unit -> option (list RegistryEntry) * unit :=
  fun _ w => (None, w).

(** A repository that serves the same one-record partition for every URL. *)
Definition serving : string -> unit -> option (list RegistryEntry) * unit :=
  fun _ w => (Some [{| block := 5; iD := Some "abci0" |}], w).

(** The object the constructor would build, for a run of the lookups. *)
Definition blankComparator : Comparator :=
  {| repo1Base := "https://raw.githubusercontent.com/your-org/repo1/main/Registry/";
     repo2Base := "https://raw.githubusercontent.com/your-org/repo2/main/Registry/";
     repo1ListUrl := "https://api.github.com/repos/your-org/repo1/contents/Registry";
     repo2ListUrl := "https://api.github.com/repos/your-org/repo2/contents/Registry";
     results := []; registryCache := ∅; suppressFileOutput := Js.JsBool false |}.

(** What holds of a run at every moment: a URL fetched with success is in
    the cache, nothing is requested after its success, and no URL has
    succeeded twice. *)
Record Inv {World : Type} (st : @RunState World) : Prop := {
  inv_cached : forall url, In (url, true) (requests st) ->
    registryCache (this st) !! url <> None;
  inv_order : noFetchAfterSuccess (requests st);
  inv_count : forall url, (successCount url (requests st) <= 1)%nat
}.

(** No minus sign in a string. *)
Fixpoint dashFree (s : string) : bool :=
  match s with
  | EmptyString => true
  | String c s' => (negb (Ascii.eqb c "-") && dashFree s')%bool
  end.

(** *** Properties of the constructor *)

(** C9. Whatever the arguments, constructing a [RegistryComparator] throws a
    ReferenceError: the constructor declares no parameter, the module binds
    no [options], and (as in the runtime the tools use) neither does the
    global object. *)
Theorem constructor_always_throws (globals : list (string * Value))
    (args : list Value) :
  assoc "options" globals = None ->
  construct globals args = inl (ReferenceError "options is not defined").
Proof.
  intros H. unfold construct, resolveIdentifier. simpl. now rewrite H.
Qed.

Lemma constructor_always_throws_witness :
  construct nodeGlobals [VObject [("suppressFileOutput", Js.JsBool true)]] =
  inl (ReferenceError "options is not defined").
Proof.
  apply (constructor_always_throws nodeGlobals
           [VObject [("suppressFileOutput", Js.JsBool true)]]).
  reflexivity.
Defined.

(** *** Properties of the registry cache *)

Lemma successCount_app url log r :
  successCount url (log ++ [r]) =
  (successCount url log + (if (String.eqb (fst r) url && snd r)%bool then 1 else 0))%nat.
Proof.
  unfold successCount. rewrite List.filter_app, length_app. simpl.
  now destruct (String.eqb (fst r) url && snd r)%bool.
Qed.

Lemma successCount_zero url log :
  ~ In (url, true) log -> successCount url log = 0%nat.
Proof.
  unfold successCount. induction log as [|[u ok] log IH]; intros H; simpl.
  - reflexivity.
  - destruct (String.eqb u url) eqn:E; simpl.
    + apply String.eqb_eq in E. subst u. destruct ok; simpl.
      * exfalso. apply H. now left.
      * apply IH. intros Hin. apply H. now right.
    + apply IH. intros Hin. apply H. now right.
Qed.

Lemma noFetchAfterSuccess_app log url ok :
  noFetchAfterSuccess log -> ~ In (url, true) log ->
  noFetchAfterSuccess (log ++ [(url, ok)]).
Proof.
  induction log as [|[u b] log IH]; intros Hlog Hnot; simpl.
  - split; [intros _ []|exact I].
  - destruct Hlog as [Hu Hrest]. split.
    + intros Hb. rewrite map_app, in_app_iff. simpl.
      intros [Hin|[E|[]]]; [now apply Hu|].
      subst. apply Hnot. now left.
    + apply IH; [assumption|]. intros Hin. apply Hnot. now right.
Qed.

Lemma Inv_startRun {World : Type} (c : Comparator) (w : World) :
  Inv (startRun c w).
Proof. split; simpl; auto; intros url; try intros []; lia. Qed.

Lemma fetchRegistryFile_Inv {World : Type}
    (fetchJSON : string -> World -> option (list RegistryEntry) * World)
    repoBase filename st :
  Inv st -> Inv (snd (fetchRegistryFile fetchJSON repoBase filename st)).
Proof.
  intros [Hc Ho Hn]. unfold fetchRegistryFile.
  set (url := (repoBase ++ filename)%string).
  destruct (registryCache (this st) !! url) as [data|] eqn:Hcache; simpl.
  { now split. }
  assert (Hnot : ~ In (url, true) (requests st)).
  { intros Hin. now apply (Hc url). }
  destruct (fetchJSON url (world st)) as [[data|] w]; simpl; split; simpl.
  - intros u Hin. apply in_app_iff in Hin as [Hin|[E|[]]].
    + destruct (decide (url = u)) as [<-|Hne].
      * now rewrite lookup_insert_eq.
      * rewrite lookup_insert_ne by done. now apply Hc.
    + injection E as <-. now rewrite lookup_insert_eq.
  - now apply noFetchAfterSuccess_app.
  - intros u. rewrite successCount_app. simpl.
    destruct (String.eqb url u) eqn:E; simpl; [|specialize (Hn u); lia].
    apply String.eqb_eq in E. subst u.
    rewrite (successCount_zero url _ Hnot). lia.
  - intros u Hin. apply in_app_iff in Hin as [Hin|[E|[]]]; [now apply Hc|].
    discriminate.
  - now apply noFetchAfterSuccess_app.
  - intros u. rewrite successCount_app. simpl.
    rewrite andb_false_r. specialize (Hn u). lia.
Qed.

Lemma getInscriptionIdForBlock_Inv {World : Type}
    (fetchJSON : string -> World -> option (list RegistryEntry) * World)
    blk repoBase st :
  Inv st -> Inv (snd (getInscriptionIdForBlock fetchJSON blk repoBase st)).
Proof.
  intros H. unfold getInscriptionIdForBlock.
  destruct (getRegistryFileForBlock blk) as [file|]; [|assumption].
  pose proof (fetchRegistryFile_Inv fetchJSON repoBase file st H) as H'.
  destruct (fetchRegistryFile fetchJSON repoBase file st) as [data st'].
  simpl in H'. destruct (List.find _ data); assumption.
Qed.

Lemma lookupAll_Inv {World : Type}
    (fetchJSON : string -> World -> option (list RegistryEntry) * World)
    asked : forall st, Inv st -> Inv (lookupAll fetchJSON asked st).
Proof.
  unfold lookupAll. induction asked as [|q asked IH]; intros st H; simpl; auto.
  apply IH. now apply getInscriptionIdForBlock_Inv.
Qed.

(** C7, as the code has it.  In a run of identity lookups, whatever the
    network answers, every partition URL is fetched with success at most
    once and is never requested again after that success; a lookup whose
    partition is in the cache is served from it and leaves the run as it
    was, without any request.  (A rejected fetch is not cached.) *)
Theorem one_successful_fetch_per_partition {World : Type}
    (fetchJSON : string -> World -> option (list RegistryEntry) * World)
    (c : Comparator) (w : World) (asked : list (Z * string)) :
  let final := lookupAll fetchJSON asked (startRun c w) in
  (forall url, (successCount url (requests final) <= 1)%nat) /\
  noFetchAfterSuccess (requests final) /\
  (forall repoBase filename data (st : RunState),
     registryCache (this st) !! (repoBase ++ filename)%string = Some data ->
     fetchRegistryFile fetchJSON repoBase filename st = (data, st)).
Proof.
  intros final.
  destruct (lookupAll_Inv fetchJSON asked (startRun c w) (Inv_startRun c w))
    as [_ Ho Hn].
  repeat split; auto.
  intros repoBase filename data st Hhit. unfold fetchRegistryFile.
  now rewrite Hhit.
Qed.

Lemma one_successful_fetch_per_partition_witness :
  let base := repo1Base blankComparator in
  let final := lookupAll serving [(5, base); (6, base); (5, base)]
                 (startRun blankComparator tt) in
  requests final = [((base ++ "0-9999.json")%string, true)] /\
  fetchRegistryFile serving base "0-9999.json" final =
    ([{| block := 5; iD := Some "abci0" |}], final).
Proof.
  intros base final.
  destruct (one_successful_fetch_per_partition serving blankComparator tt
              [(5, base); (6, base); (5, base)]) as (_ & _ & Hhit).
  split; [reflexivity|].
  apply Hhit. reflexivity.
Defined.

(** C7, as stated, fails: when the partition cannot be fetched, two lookups
    for blocks of the same partition of the same repository issue two
    requests for the same file. *)
Lemma failed_fetch_is_repeated :
  let base := repo1Base blankComparator in
  let final := lookupAll unreachable [(5, base); (6, base)]
                 (startRun blankComparator tt) in
  ~ (fetchCount (base ++ "0-9999.json")%string (requests final) <= 1)%nat.
Proof. vm_compute. lia. Qed.

(** *** The partition files *)

Lemma numToString_inj n m : Js.numToString n = Js.numToString m -> n = m.
Proof.
  unfold Js.numToString. intros H.
  assert (G : forall k, NilZero.int_of_string (NilZero.string_of_int (Z.to_int k)) =
                        Some (Z.to_int k)).
  { intros k. apply NilZero.isi; destruct k; simpl; try discriminate;
      intros E; injection E as E; now apply Unsigned.to_uint_nonnil in E. }
  apply DecimalZ.to_int_inj.
  pose proof (G n) as Gn. rewrite H, G in Gn. now injection Gn.
Qed.

Lemma string_of_uint_dashFree d : dashFree (NilEmpty.string_of_uint d) = true.
Proof. induction d; simpl; auto. Qed.

Lemma numToString_dashFree n : 0 <= n -> dashFree (Js.numToString n) = true.
Proof.
  unfold Js.numToString. destruct n as [|p|p]; [reflexivity| |lia]. intros _.
  simpl. unfold NilZero.string_of_uint.
  destruct (Pos.to_uint p); try reflexivity; apply (string_of_uint_dashFree (_ _)).
Qed.

Lemma split_at_dash a : forall b r1 r2,
  dashFree a = true -> dashFree b = true ->
  (a ++ String "-" r1)%string = (b ++ String "-" r2)%string -> a = b.
Proof.
  induction a as [|c a IH]; intros [|c' b] r1 r2 Ha Hb E; simpl in *.
  - reflexivity.
  - injection E as <- _. discriminate.
  - injection E as -> _. discriminate.
  - injection E as <- E. f_equal.
    apply andb_true_iff in Ha as [_ Ha]. apply andb_true_iff in Hb as [_ Hb].
    eapply IH; eauto.
Qed.

(** X26. [getRegistryFileForBlock] names a file exactly for the blocks from
    0 to 999999999, and two such blocks get the same file exactly when they
    lie in the same range of 10000 blocks: no two ranges share a file name
    (and so a cache entry), and no range is split over two names. *)
Theorem same_file_iff_same_range (a b : Z) :
  0 <= a <= 999999999 -> 0 <= b <= 999999999 ->
  getRegistryFileForBlock a <> None /\
  (getRegistryFileForBlock a = getRegistryFileForBlock b <-> a / 10000 = b / 10000).
Proof.
  intros Ha Hb. unfold getRegistryFileForBlock.
  destruct (Z.ltb_spec a 0); [lia|]. destruct (Z.ltb_spec 999999999 a); [lia|].
  destruct (Z.ltb_spec b 0); [lia|]. destruct (Z.ltb_spec 999999999 b); [lia|].
  cbn [orb]. split; [discriminate|]. split.
  - intros E. injection E as E.
    apply split_at_dash in E.
    + apply numToString_inj in E. lia.
    + apply numToString_dashFree. apply Z.mul_nonneg_nonneg; [|lia].
      apply Z.div_pos; lia.
    + apply numToString_dashFree. apply Z.mul_nonneg_nonneg; [|lia].
      apply Z.div_pos; lia.
  - intros E. now rewrite E.
Qed.

Lemma same_file_iff_same_range_witness :
  getRegistryFileForBlock 840000 <> None /\
  (getRegistryFileForBlock 840000 = getRegistryFileForBlock 849999 <->
   840000 / 10000 = 849999 / 10000).
Proof.
  apply (same_file_iff_same_range 840000 849999); lia.
Defined.

End RegistryComparator.

(** ** true-bitmap.mjs *)

Module TrueBitmapResolver.

(** *** Data *)

(** The two providers the router knows ([primaryApis]). *)
Inductive Provider := Mempool | Blockstream.

Definition name (p : Provider) : string :=
  match p with Mempool => "mempool" | Blockstream => "blockstream" end.

(** Who issued a request: the router ([fetchFromAPI], with the credential
    check it triggers) or the per-block transaction list fetch. *)
Inductive Route := Router | BlockTxids.

(** What the run leaves behind: the HTTPS requests, with the provider name
    they were made under, and the moments a provider was marked exhausted. *)
Inductive Event :=
| Requested (via : Route) (apiName : string) (url : string)
| MarkedExhausted (p : Provider).

(** [status] of a transaction: [{ block_height, block_hash }]. *)
Record TxStatus := { block_height : option Z; block_hash : option string }.

(** The parsed body of a response, by the shape the code looks for: a
    transaction with its [status], an array of txids, a Blockchair block
    with the [transactions] of its first key, a blockchain.info block with
    the hash of each element of [tx], or anything else. *)
Inductive Payload :=
| TxBody (status : option TxStatus)
| TxidsBody (txids : list string)
| BlockchairBody (transactions : option (list string))
| RawBlockBody (tx : option (list (option string)))
| OtherBody.

(** The outcome of one HTTPS request (redirects followed): a 200 with a body
    that parses, another status code, a body that does not parse, or a
    network error. *)
Inductive Response :=
| RespOk (body : Payload)
| RespStatus (code : Z)
| RespBadJson (message : string)
| RespError (message : string).

(** [{ blockHeight, blockPosition }]. *)
Record LedgerPosition := { blockHeight : option Z; blockPosition : option Z }.

Definition unknownPosition : LedgerPosition :=
  {| blockHeight := None; blockPosition := None |}.

(** An element of [requestCounters]. *)
Record Counter := { count : Z; resetAt : Z; exhausted : bool }.

(** The fields of a [TrueBitmapResolver] that the access layer uses. *)
Record Resolver := {
  blockstreamAuthHeader : option string;
  blockstreamVerified : bool;
  blockCache : gmap string (list string);
  activeApiIndex : nat;
  mempoolCounter : Counter;
  blockstreamCounter : Counter
}.

Definition blockstreamBase : string := "https://blockstream.info/api".

(** [primaryApis], with their indices. *)
Definition primaryApis : list (nat * Provider) := [(0%nat, Mempool); (1%nat, Blockstream)].

(** The [builder] of each provider. *)
Definition builder (p : Provider) (apiType txidOrHash : string) : string :=
  match p with
  | Mempool => "https://mempool.space/api/tx/" ++ txidOrHash
  | Blockstream => blockstreamBase ++ "/" ++ apiType ++ "/" ++ txidOrHash
  end.

Definition requestCounter (p : Provider) (r : Resolver) : Counter :=
  match p with Mempool => mempoolCounter r | Blockstream => blockstreamCounter r end.

Definition setRequestCounter (p : Provider) (c : Counter) (r : Resolver) : Resolver :=
  {| blockstreamAuthHeader := blockstreamAuthHeader r;
     blockstreamVerified := blockstreamVerified r;
     blockCache := blockCache r;
     activeApiIndex := activeApiIndex r;
     mempoolCounter := match p with Mempool => c | Blockstream => mempoolCounter r end;
     blockstreamCounter :=
       match p with Mempool => blockstreamCounter r | Blockstream => c end |}.

Definition setAuth (header : option string) (verified : bool) (r : Resolver) : Resolver :=
  {| blockstreamAuthHeader := header;
     blockstreamVerified := verified;
     blockCache := blockCache r;
     activeApiIndex := activeApiIndex r;
     mempoolCounter := mempoolCounter r;
     blockstreamCounter := blockstreamCounter r |}.

Definition setActiveApiIndex (i : nat) (r : Resolver) : Resolver :=
  {| blockstreamAuthHeader := blockstreamAuthHeader r;
     blockstreamVerified := blockstreamVerified r;
     blockCache := blockCache r;
     activeApiIndex := i;
     mempoolCounter := mempoolCounter r;
     blockstreamCounter := blockstreamCounter r |}.

Definition setBlockCache (cache : gmap string (list string)) (r : Resolver) : Resolver :=
  {| blockstreamAuthHeader := blockstreamAuthHeader r;
     blockstreamVerified := blockstreamVerified r;
     blockCache := cache;
     activeApiIndex := activeApiIndex r;
     mempoolCounter := mempoolCounter r;
     blockstreamCounter := blockstreamCounter r |}.

(** [txList.indexOf(txid)], [None] for -1. *)
Fixpoint indexOf (txid : string) (txList : list string) : option Z :=
  match txList with
  | [] => None
  | t :: rest =>
      if String.eqb t txid then Some 0
      else match indexOf txid rest with
           | Some i => Some (i + 1)
           | None => None
           end
  end.

(** *** The provider access layer *)

Section AccessLayer.

(** The outside world: the network answers a request for a URL, sent with or
    without an Authorization header; the clock is read with [now]; the
    environment may hold Blockstream credentials, from which
    [refreshBlockstreamAuth] builds the header [envAuthHeader]. *)
Context {World : Type}.
Variable httpsGet : string -> option string -> World -> Response * World.
Variable now : World -> Z.
Variable envAuthHeader : option string.

(** A resolver at work. *)
Record RunState := {
  this : Resolver;
  world : World;
  trace : list Event
}.

(** A computation that may throw an [Error] with a message. *)
Definition M (A : Type) : Type := RunState -> (string + A) * RunState.

Definition update (f : Resolver -> Resolver) (st : RunState) : RunState :=
  {| this := f (this st); world := world st; trace := trace st |}.

Definition emit (e : Event) (st : RunState) : RunState :=
  {| this := this st; world := world st; trace := trace st ++ [e] |}.

(** One [https.get] of [fetchJSONWithRetry]. *)
Definition attemptWithRetry (via : Route) (url apiName : string) : M Payload :=
  fun st =>
    let header :=
      if (String.eqb apiName "blockstream" &&
          Js.truthyOptStr (blockstreamAuthHeader (this st)))%bool
      then blockstreamAuthHeader (this st) else None in
    let '(resp, w) := httpsGet url header (world st) in
    let st1 := {| this := this st; world := w;
                  trace := trace st ++ [Requested via apiName url] |} in
    match resp with
    | RespStatus code =>
        if ((code =? 401) && String.eqb apiName "blockstream")%bool
        then (inl "HTTP 401", update (setAuth None false) st1)
        else if code =? 429 then (inl "HTTP 429", st1)
        else (inl ("HTTP " ++ Js.numToString code)%string, st1)
    | RespOk body => (inr body, st1)
    | RespBadJson message => (inl ("JSON parse error: " ++ message)%string, st1)
    | RespError message => (inl message, st1)
    end.

(** [for (attempt = 1; attempt <= retries; attempt++)]: an attempt that
    fails is repeated while attempts remain; the last failure is thrown. *)
Fixpoint retrying {A : Type} (attempt : M A) (remaining : nat) : M A :=
  fun st =>
    match attempt st with
    | (inr x, st') => (inr x, st')
    | (inl error, st') =>
        match remaining with
        | O => (inl error, st')
        | S remaining' => retrying attempt remaining' st'
        end
    end.

(** [fetchJSONWithRetry(url, apiName)], with the default three attempts. *)
Definition fetchJSONWithRetry (via : Route) (url apiName : string) : M Payload :=
  retrying (attemptWithRetry via url apiName) 2.

(** One [https.get] of [fetchJSON], with the headers it is given. *)
Definition attemptPlain (via : Route) (url apiName : string)
    (header : option string) : M Payload :=
  fun st =>
    let '(resp, w) := httpsGet url header (world st) in
    let st1 := {| this := this st; world := w;
                  trace := trace st ++ [Requested via apiName url] |} in
    match resp with
    | RespStatus code =>
        (inl ("HTTP " ++ Js.numToString code ++ " for " ++ url)%string, st1)
    | RespOk body => (inr body, st1)
    | RespBadJson message => (inl ("JSON parse error: " ++ message)%string, st1)
    | RespError message => (inl message, st1)
    end.

Definition fetchJSON (via : Route) (url apiName : string)
    (header : option string) : M Payload :=
  retrying (attemptPlain via url apiName header) 2.

(** [refreshBlockstreamAuth]. *)
Definition refreshBlockstreamAuth (st : RunState) : RunState :=
  update (fun r => setAuth envAuthHeader (blockstreamVerified r) r) st.

(** [verifyBlockstreamCredentials]. *)
Definition verifyBlockstreamCredentials (st : RunState) : bool * RunState :=
  if blockstreamVerified (this st) then (true, st)
  else if negb (Js.truthyOptStr (blockstreamAuthHeader (this st))) then (false, st)
  else
    let url := (blockstreamBase ++ "/blocks/tip/height")%string in
    match fetchJSON Router url "blockstream" (blockstreamAuthHeader (this st)) st with
    | (inr _, st1) =>
        (true, update (fun r => setAuth (blockstreamAuthHeader r) true r) st1)
    | (inl message, st1) =>
        if Js.includes "401" message
        then (false, update (setAuth None false) st1)
        else (false, st1)
    end.

(** [counter.exhausted = true; this.activeApiIndex = Math.max(this.activeApiIndex, i + 1)]. *)
Definition markExhausted (i : nat) (p : Provider) (st : RunState) : RunState :=
  let c := requestCounter p (this st) in
  emit (MarkedExhausted p)
    (update (fun r =>
       setActiveApiIndex (Nat.max (activeApiIndex r) (i + 1))
         (setRequestCounter p
            {| count := count c; resetAt := resetAt c; exhausted := true |} r))
       st).

(** The first statements of the [try] block: for Blockstream, refresh the
    header and verify it once; then reset the quota when its window is over. *)
Definition prepare (p : Provider) (st : RunState) : RunState :=
  let st1 :=
    match p with
    | Mempool => st
    | Blockstream =>
        let st' := refreshBlockstreamAuth st in
        if (Js.truthyOptStr (blockstreamAuthHeader (this st')) &&
            negb (blockstreamVerified (this st')))%bool
        then snd (verifyBlockstreamCredentials st')
        else st'
    end in
  let counter := requestCounter p (this st1) in
  if resetAt counter <=? now (world st1)
  then update (setRequestCounter p
         {| count := 0; resetAt := now (world st1) + 3600000; exhausted := false |}) st1
  else st1.

(** The body of the [for] loop of [fetchFromAPI], from index [i] on. *)
Fixpoint routerLoop (rest : list (nat * Provider)) (txidOrHash apiType : string)
    (lastError : option string) (st : RunState)
    : (string + (string * Payload)) * RunState :=
  match rest with
  | [] => (inl (default "All primary APIs exhausted" lastError), st)
  | (i, p) :: rest' =>
      let url := builder p apiType txidOrHash in
      let st1 := prepare p st in
      let counter := requestCounter p (this st1) in
      if exhausted counter then routerLoop rest' txidOrHash apiType lastError st1
      else
        let st2 := update (setRequestCounter p
                     {| count := count counter + 1; resetAt := resetAt counter;
                        exhausted := exhausted counter |}) st1 in
        match fetchJSONWithRetry Router url (name p) st2 with
        | (inr data, st3) => (inr (name p, data), st3)
        | (inl error, st3) =>
            if (Js.includes "429" error || Js.includes "rate" (Js.toLowerCase error))%bool
            then routerLoop rest' txidOrHash apiType (Some error) (markExhausted i p st3)
            else
              match p with
              | Blockstream =>
                  if Js.includes "401" error then
                    match fetchJSONWithRetry Router url "blockstream"
                            (update (setAuth None false) st3) with
                    | (inr data, st4) => (inr ("blockstream", data), st4)
                    | (inl secondError, st4) =>
                        routerLoop rest' txidOrHash apiType (Some secondError)
                          (markExhausted i p st4)
                    end
                  else routerLoop rest' txidOrHash apiType (Some error) st3
              | Mempool => routerLoop rest' txidOrHash apiType (Some error) st3
              end
        end
  end.

(** [fetchFromAPI(endpoint, txidOrHash, apiType)]: the loop starts at
    [this.activeApiIndex]. *)
Definition fetchFromAPI (endpoint txidOrHash apiType : string) : M (string * Payload) :=
  fun st =>
    routerLoop (drop (activeApiIndex (this st)) primaryApis) txidOrHash apiType None st.

(** [Array.isArray(txList)]: the array, if the body is one. *)
Definition asTxids (body : Payload) : option (list string) :=
  match body with TxidsBody l => Some l | _ => None end.

(** The nested [try]/[catch] that fetches the txids of a block: mempool,
    then Blockstream, then Blockchair, then blockchain.info, each outside
    the router.  The result is [txList]: the array, or [None] when the body
    that arrived is not an array. *)
Definition fetchBlockTxids (blockHash : string) : M (option (list string)) :=
  fun st =>
    let blockUrl := ("https://mempool.space/api/block/" ++ blockHash ++ "/txids")%string in
    let blockstreamUrl := (blockstreamBase ++ "/block/" ++ blockHash ++ "/txids")%string in
    let blockchairUrl :=
      ("https://api.blockchair.com/bitcoin/dashboards/block/" ++ blockHash)%string in
    let blockchainInfoUrl := ("https://blockchain.info/rawblock/" ++ blockHash)%string in
    match fetchJSONWithRetry BlockTxids blockUrl "mempool" st with
    | (inr body, st1) => (inr (asTxids body), st1)
    | (inl mempoolError, st1) =>
        match fetchJSONWithRetry BlockTxids blockstreamUrl "blockstream" st1 with
        | (inr body, st2) => (inr (asTxids body), st2)
        | (inl blockstreamError, st2) =>
            let viaBlockchainInfo st3 :=
              match fetchJSONWithRetry BlockTxids blockchainInfoUrl "blockchaininfo" st3 with
              | (inr (RawBlockBody (Some tx)), st4) =>
                  (inr (Some (omap (fun t =>
                     if Js.truthyOptStr t then t else None) tx)), st4)
              | (_, st4) => (inl "All block txid APIs failed", st4)
              end in
            match fetchJSONWithRetry BlockTxids blockchairUrl "blockchair" st2 with
            | (inr (BlockchairBody (Some transactions)), st3) =>
                (inr (Some transactions), st3)
            | (_, st3) => viaBlockchainInfo st3
            end
        end
    end.

(** [getTxPositionInBlock(txid)]; every error ends in the null position. *)
Definition getTxPositionInBlock (txid : string) (st : RunState)
    : LedgerPosition * RunState :=
  match fetchFromAPI "tx" txid "tx" st with
  | (inl _, st1) => (unknownPosition, st1)
  | (inr (_, TxBody (Some status)), st1) =>
      match block_height status, block_hash status with
      | Some height, Some hash =>
          if (Js.truthyNum height && Js.truthyStr hash)%bool then
            let cacheKey := Js.numToString height in
            let located (txList : list string) st' :=
              ({| blockHeight := Some height; blockPosition := indexOf txid txList |}, st') in
            match blockCache (this st1) !! cacheKey with
            | Some txList => located txList st1
            | None =>
                match fetchBlockTxids hash st1 with
                | (inr (Some (t :: txList)), st2) =>
                    located (t :: txList)
                      (update (fun r =>
                         setBlockCache (<[cacheKey := t :: txList]> (blockCache r)) r) st2)
                | (_, st2) => (unknownPosition, st2)
                end
            end
          else (unknownPosition, st1)
      | _, _ => (unknownPosition, st1)
      end
  | (inr _, st1) => (unknownPosition, st1)
  end.

(** [new TrueBitmapResolver()]. *)
Definition newResolver (w : World) : RunState :=
  {| this :=
       {| blockstreamAuthHeader := envAuthHeader;
          blockstreamVerified := false;
          blockCache := ∅;
          activeApiIndex := 0;
          mempoolCounter := {| count := 0; resetAt := now w + 3600000; exhausted := false |};
          blockstreamCounter := {| count := 0; resetAt := now w + 3600000; exhausted := false |} |};
     world := w;
     trace := [] |}.

End AccessLayer.

(** *** The First-is-First resolver *)

(** [winner] of a verdict. *)
Inductive Winner := REPO1 | REPO2 | BOTH | NEITHER | UNKNOWN.

(** [correctRepo === 'REPO1' ? 'REPO2' : 'REPO1']. *)
Definition opponent (w : Winner) : Winner :=
  match w with REPO1 => REPO2 | _ => REPO1 end.

(** A conflict as the validator hands it over. *)
Record Conflict := {
  block : Z;
  repo1Id : string;
  repo2Id : string;
  file1Sat : Z;
  file2Sat : Z
}.

(** The object [resolveConflict] returns; a property that is not set is
    [None]. *)
Record Verdict := {
  verdictBlock : Z;
  winner : Winner;
  inscriptionId : option string;
  winningSat : option Z;
  losingSat : option Z;
  reason : string
}.

Definition idNotFound : string := "ID not found".

Definition isLowerHex (c : ascii) : bool :=
  let n := nat_of_ascii c in
  ((Nat.leb 48 n && Nat.leb n 57) || (Nat.leb 97 n && Nat.leb n 102))%bool.

Definition isDigit (c : ascii) : bool :=
  let n := nat_of_ascii c in (Nat.leb 48 n && Nat.leb n 57)%bool.

(** [[a-f0-9]{n}] at the start of a string: the match and what follows. *)
Fixpoint takeHex (n : nat) (s : string) : option (string * string) :=
  match n with
  | O => Some (EmptyString, s)
  | S n' =>
      match s with
      | String c s' =>
          if isLowerHex c then
            match takeHex n' s' with
            | Some (hex, rest) => Some (String c hex, rest)
            | None => None
            end
          else None
      | EmptyString => None
      end
  end.

(** [\d+$]. *)
Fixpoint allDigits (s : string) : bool :=
  match s with
  | EmptyString => true
  | String c s' => (isDigit c && allDigits s')%bool
  end.

(** [extractTxId]: the txid of [<txid>i<index>], [null] otherwise. *)
Definition extractTxId (inscription : string) : option string :=
  if (negb (Js.truthyStr inscription) || String.eqb inscription idNotFound)%bool
  then None
  else
    match takeHex 64 inscription with
    | Some (txid, String "i" (String d digits)) =>
        if allDigits (String d digits) then Some txid else None
    | _ => None
    end.

Section FirstIsFirst.

(** The resolver reaches the ledger and the inscription service through
    three operations of the object; each returns a value and leaves the
    object (and the world) in a new state.  The two functions below read the
    same in true-bitmap.mjs and in its earlier, Blockstream-only version;
    stated over the three operations, what is proved of them holds with
    either access layer. *)
Context {Obj : Type}.
Variable getTxPositionInBlock : string -> Obj -> LedgerPosition * Obj.
Variable getInscriptionSatoshi : string -> Obj -> option string * Obj.
Variable getInscriptionBySat : Z -> Z -> Obj -> option string * Obj.

(** What a resolution is made of: the verdict, and the ledger positions
    that were fetched for it, each with the repository on whose side the
    inscription stands. *)
Definition Resolution : Type := Verdict * list (Winner * LedgerPosition).

(** "Complete resolution for same inscription ID conflicts". *)
Definition resolveIdenticalInscriptionConflict (conflict : Conflict) (s : Obj)
       : Resolution * Obj :=
  let blk := block conflict in
  let unknown why s' :=
    (({| verdictBlock := blk; winner := UNKNOWN;
         inscriptionId := Some (repo1Id conflict);
         winningSat := None; losingSat := None; reason := why |}, []), s') in
  let '(actual, s1) := getInscriptionSatoshi (repo1Id conflict) s in
  match actual with
  | None => unknown "Could not determine actual satoshi" s1
  | Some actualSat =>
      if negb (Js.truthyStr actualSat)
      then unknown "Could not determine actual satoshi" s1
      else
        let repo1SatMatch := String.eqb actualSat (Js.numToString (file1Sat conflict)) in
        let repo2SatMatch := String.eqb actualSat (Js.numToString (file2Sat conflict)) in
        let decided (correctRepo : Winner) (correctInscriptionId : string)
                    (remainingSat : Z) :=
          let correctWins why fetched s' :=
            (({| verdictBlock := blk; winner := correctRepo;
                 inscriptionId := Some correctInscriptionId;
                 winningSat := None; losingSat := None; reason := why |},
              fetched), s') in
          let '(remaining, s2) := getInscriptionBySat remainingSat blk s1 in
          match remaining with
          | None =>
              correctWins ("Correct sat " ++ actualSat ++ ", remaining sat " ++
                           Js.numToString remainingSat ++
                           " has no valid bitmap inscription")%string [] s2
          | Some remainingInscriptionId =>
              if negb (Js.truthyStr remainingInscriptionId) then
                correctWins ("Correct sat " ++ actualSat ++ ", remaining sat " ++
                             Js.numToString remainingSat ++
                             " has no valid bitmap inscription")%string [] s2
              else
                match extractTxId correctInscriptionId,
                      extractTxId remainingInscriptionId with
                | Some correctTxid, Some remainingTxid =>
                    let '(correctTxData, s3) := getTxPositionInBlock correctTxid s2 in
                    let '(remainingTxData, s4) := getTxPositionInBlock remainingTxid s3 in
                    let fetched := [(correctRepo, correctTxData);
                                    (opponent correctRepo, remainingTxData)] in
                    let remainingWins why :=
                      (({| verdictBlock := blk; winner := opponent correctRepo;
                           inscriptionId := Some remainingInscriptionId;
                           winningSat := None; losingSat := None; reason := why |},
                        fetched), s4) in
                    let fallback :=
                      correctWins ("Correct sat " ++ actualSat ++
                        ", could not determine remaining inscription timing")%string
                        fetched s4 in
                    match blockHeight correctTxData, blockHeight remainingTxData with
                    | Some hc, Some hr =>
                        if hc <? hr then
                          correctWins ("Correct sat " ++ actualSat ++
                            ", inscribed in block " ++ Js.numToString hc ++
                            " (before " ++ Js.numToString hr ++ ")")%string fetched s4
                        else if hr <? hc then
                          remainingWins ("Wrong sat claim, but inscribed earlier (block " ++
                            Js.numToString hr ++ " before " ++ Js.numToString hc ++ ")")%string
                        else
                          match blockPosition correctTxData,
                                blockPosition remainingTxData with
                          | Some pc, Some pr =>
                              if pc <? pr then
                                correctWins ("Correct sat " ++ actualSat ++
                                  ", same block " ++ Js.numToString hc ++
                                  ", tx position " ++ Js.numToString pc ++
                                  " before " ++ Js.numToString pr)%string fetched s4
                              else if pr <? pc then
                                remainingWins ("Wrong sat claim, but tx position " ++
                                  Js.numToString pr ++ " before " ++ Js.numToString pc ++
                                  " in block " ++ Js.numToString hr)%string
                              else fallback
                          | _, _ => fallback
                          end
                    | _, _ => fallback
                    end
                | _, _ =>
                    correctWins ("Correct sat " ++ actualSat ++
                      ", invalid remaining inscription format")%string [] s2
                end
          end in
        if (repo1SatMatch && negb repo2SatMatch)%bool
        then decided REPO1 (repo1Id conflict) (file2Sat conflict)
        else if (repo2SatMatch && negb repo1SatMatch)%bool
        then decided REPO2 (repo2Id conflict) (file1Sat conflict)
        else if (repo1SatMatch && repo2SatMatch)%bool
        then (({| verdictBlock := blk; winner := BOTH;
                  inscriptionId := Some (repo1Id conflict);
                  winningSat := None; losingSat := None;
                  reason := ("Both agree: inscription on sat " ++ actualSat)%string |},
               []), s1)
        else unknown ("Inscription on sat " ++ actualSat ++ " (neither repo correct: " ++
                      Js.numToString (file1Sat conflict) ++ "/" ++
                      Js.numToString (file2Sat conflict) ++ ")")%string s1
  end.

(** "Resolve conflict using FiF rules". *)
Definition resolveConflict (conflict : Conflict) (s : Obj)    : Resolution * Obj :=
  let blk := block conflict in
  let id1 := repo1Id conflict in
  let id2 := repo2Id conflict in
  let plain (w : Winner) (id : option string) why s' :=
    (({| verdictBlock := blk; winner := w; inscriptionId := id;
         winningSat := None; losingSat := None; reason := why |}, []), s') in
  if String.eqb id1 id2 then resolveIdenticalInscriptionConflict conflict s
  else if (String.eqb id1 idNotFound && String.eqb id2 idNotFound)%bool
  then plain NEITHER None "Both IDs not found" s
  else if String.eqb id1 idNotFound
  then plain REPO2 (Some id2) "Repo1 ID not found" s
  else if String.eqb id2 idNotFound
  then plain REPO1 (Some id1) "Repo2 ID not found" s
  else
    match extractTxId id1, extractTxId id2 with
    | Some txid1, Some txid2 =>
        let '(tx1Data, s1) := getTxPositionInBlock txid1 s in
        let '(tx2Data, s2) := getTxPositionInBlock txid2 s1 in
        let fetched := [(REPO1, tx1Data); (REPO2, tx2Data)] in
        let repo1Wins why :=
          (({| verdictBlock := blk; winner := REPO1; inscriptionId := Some id1;
               winningSat := Some (file1Sat conflict);
               losingSat := Some (file2Sat conflict); reason := why |}, fetched), s2) in
        let repo2Wins why :=
          (({| verdictBlock := blk; winner := REPO2; inscriptionId := Some id2;
               winningSat := Some (file2Sat conflict);
               losingSat := Some (file1Sat conflict); reason := why |}, fetched), s2) in
        let missing :=
          match blockHeight tx1Data, blockHeight tx2Data with
          | None, Some _ => repo2Wins "Repo1 tx not confirmed"
          | Some _, None => repo1Wins "Repo2 tx not confirmed"
          | _, _ =>
              (({| verdictBlock := blk; winner := UNKNOWN; inscriptionId := None;
                   winningSat := None; losingSat := None;
                   reason := "Could not determine winner" |}, fetched), s2)
          end in
        match blockHeight tx1Data, blockHeight tx2Data with
        | Some h1, Some h2 =>
            if h1 <? h2 then
              repo1Wins ("Inscribed in block " ++ Js.numToString h1 ++
                         " (before block " ++ Js.numToString h2 ++ ")")%string
            else if h2 <? h1 then
              repo2Wins ("Inscribed in block " ++ Js.numToString h2 ++
                         " (before block " ++ Js.numToString h1 ++ ")")%string
            else
              match blockPosition tx1Data, blockPosition tx2Data with
              | Some p1, Some p2 =>
                  if p1 <? p2 then
                    repo1Wins ("Same block " ++ Js.numToString h1 ++ ", tx position " ++
                               Js.numToString p1 ++ " before " ++ Js.numToString p2)%string
                  else if p2 <? p1 then
                    repo2Wins ("Same block " ++ Js.numToString h2 ++ ", tx position " ++
                               Js.numToString p2 ++ " before " ++ Js.numToString p1)%string
                  else missing
              | _, _ => missing
              end
        | _, _ => missing
        end
    | _, _ => plain UNKNOWN None "Invalid inscription format" s
    end.

End FirstIsFirst.

(** The resolver on top of the access layer: the ledger is reached through
    [getTxPositionInBlock], the inscription service through two operations
    that only touch the world. *)
Definition onWorld {World A : Type} (f : World -> A * World)
    (st : @RunState World) : A * @RunState World :=
  let '(x, w) := f (world st) in
  (x, {| this := this st; world := w; trace := trace st |}).

Definition resolveConflictLive {World : Type}
    (httpsGet : string -> option string -> World -> Response * World)
    (now : World -> Z) (envAuthHeader : option string)
    (inscriptionSatoshi : string -> World -> option string * World)
    (inscriptionBySat : Z -> Z -> World -> option string * World)
    (conflict : Conflict) (st : @RunState World) : Resolution * @RunState World :=
  resolveConflict (getTxPositionInBlock httpsGet now envAuthHeader)
    (fun id => onWorld (inscriptionSatoshi id))
    (fun sat blk => onWorld (inscriptionBySat sat blk))
    conflict st.

(** A run of the resolver asks for the position of one transaction after
    another. *)
Definition positionsRun {World : Type}
    (httpsGet : string -> option string -> World -> Response * World)
    (now : World -> Z) (envAuthHeader : option string)
    (txids : list string) (st : @RunState World) : @RunState World :=
  fold_left (fun st txid => snd (getTxPositionInBlock httpsGet now envAuthHeader txid st))
    txids st.

(** The index of a provider in [primaryApis]. *)
Definition index (p : Provider) : nat :=
  match p with Mempool => 0%nat | Blockstream => 1%nat end.

(** Once a provider is marked exhausted, no later request of the given
    routes is made under its name. *)
Fixpoint noRequestAfterExhausted (routes : Route -> bool) (events : list Event) : Prop :=
  match events with
  | [] => True
  | MarkedExhausted p :: rest =>
      (forall via url, routes via = true -> ~ In (Requested via (name p) url) rest) /\
      noRequestAfterExhausted routes rest
  | Requested _ _ _ :: rest => noRequestAfterExhausted routes rest
  end.

Definition anyRoute (via : Route) : bool := true.

Definition routerOnly (via : Route) : bool :=
  match via with Router => true | BlockTxids => false end.

(** Two transaction ids and a ledger for the examples: the first
    transaction is in block 800000 at position 3, any other in block 800001
    at position 0. *)
Definition txidA : string :=
  "aaaaaaaaaaaaaaaaaaaaaaaaaaaaaaaaaaaaaaaaaaaaaaaaaaaaaaaaaaaaaaaa".

Definition txidB : string :=
  "bbbbbbbbbbbbbbbbbbbbbbbbbbbbbbbbbbbbbbbbbbbbbbbbbbbbbbbbbbbbbbbb".

Definition sampleLedger (txid : string) (u : unit) : LedgerPosition * unit :=
  if String.eqb txid txidA
  then ({| blockHeight := Some 800000; blockPosition := Some 3 |}, u)
  else ({| blockHeight := Some 800001; blockPosition := Some 0 |}, u).

Definition noSatoshi (id : string) (u : unit) : option string * unit := (None, u).

Definition noInscription (sat blk : Z) (u : unit) : option string * unit := (None, u).

Definition sampleConflict : Conflict :=
  {| block := 5; repo1Id := (txidA ++ "i0")%string; repo2Id := (txidB ++ "i0")%string;
     file1Sat := 100; file2Sat := 200 |}.

(** A conflict in which neither repository names an inscription. *)
Definition bothNotFound : Conflict :=
  {| block := 5; repo1Id := idNotFound; repo2Id := idNotFound;
     file1Sat := 100; file2Sat := 200 |}.

(** A network on which mempool.space rate-limits transaction lookups while
    Blockstream answers them, and mempool.space still serves block txids. *)
Definition rateLimitedMempool (url : string) (header : option string) (u : unit)
    : Response * unit :=
  if Js.startsWith "https://mempool.space/api/tx/" url then (RespStatus 429, u)
  else if Js.startsWith "https://blockstream.info/api/tx/" url then
    (RespOk (TxBody (Some {| block_height := Some 800000;
                             block_hash := Some "00000000000000000002a7c4" |})), u)
  else if Js.startsWith "https://mempool.space/api/block/" url then
    (RespOk (TxidsBody [txidB; txidA]), u)
  else (RespError "getaddrinfo ENOTFOUND", u).

(** A network on which mempool.space drops the connection and Blockstream
    rate-limits. *)
Definition mempoolDownBlockstreamLimited (url : string) (header : option string)
    (u : unit) : Response * unit :=
  if Js.startsWith "https://mempool.space/" url then (RespError "socket hang up", u)
  else (RespStatus 429, u).

Definition frozenClock (u : unit) : Z := 0.

(** [[a-f0-9]*] on a whole string. *)
Fixpoint allHex (s : string) : bool :=
  match s with
  | EmptyString => true
  | String c s' => (isLowerHex c && allHex s')%bool
  end.

(** The same conflict with the two repositories exchanged. *)
Definition swapConflict (c : Conflict) : Conflict :=
  {| block := block c; repo1Id := repo2Id c; repo2Id := repo1Id c;
     file1Sat := file2Sat c; file2Sat := file1Sat c |}.

Definition mirror (w : Winner) : Winner :=
  match w with REPO1 => REPO2 | REPO2 => REPO1 | w => w end.

(** A ledger or an inscription service whose answer to a question does not
    depend on when it is asked. *)
Definition steady {A B : Type} (f : A -> B) : A -> unit -> B * unit :=
  fun a u => (f a, u).

(** A conflict in which the first repository names no inscription and the
    second names something that is not an inscription id. *)
Definition oneSided : Conflict :=
  {| block := 5; repo1Id := idNotFound; repo2Id := "not an inscription";
     file1Sat := 100; file2Sat := 200 |}.


(** The number of HTTPS requests in a trace. *)
Definition isRequest (e : Event) : bool :=
  match e with Requested _ _ _ => true | MarkedExhausted _ => false end.

Definition requestCount (events : list Event) : nat :=
  length (List.filter isRequest events).

(** [st'] is [st] after at most [n] more requests, with the block cache as
    it was. *)
Definition Within {World : Type} (n : nat) (st st' : @RunState World) : Prop :=
  blockCache (this st') = blockCache (this st) /\
  (requestCount (trace st') <= requestCount (trace st) + n)%nat.

(** The most requests the router spends on a provider in one call: three
    attempts, and for Blockstream as many to verify the credentials and as
    many again without them after a 401. *)
Definition cost (p : Provider) : nat :=
  match p with Mempool => 3%nat | Blockstream => 9%nat end.

(** The safety property of a resolution: when a repository wins, and a
    ledger position was fetched for each side with both block heights known,
    the winner's height is not above the loser's. *)
Definition WinnerNotLater (r : Resolution) : Prop :=
  forall (pw pl : LedgerPosition) (hw hl : Z),
    winner (fst r) = REPO1 \/ winner (fst r) = REPO2 ->
    In (winner (fst r), pw) (snd r) ->
    In (opponent (winner (fst r)), pl) (snd r) ->
    blockHeight pw = Some hw ->
    blockHeight pl = Some hl ->
    hw <= hl.

(** The router invariant: a provider marked exhausted lies below
    [activeApiIndex], and the router has not asked it anything since. *)
Record RouterInv {World : Type} (st : @RunState World) : Prop := {
  inv_marked : forall p, In (MarkedExhausted p) (trace st) ->
    (index p < activeApiIndex (this st))%nat;
  inv_quiet : noRequestAfterExhausted routerOnly (trace st)
}.

(** [st'] is [st] after some requests made by [via] under [apiName]; the
    active index has not moved. *)
Definition Requests {World : Type} (via : Route) (apiName : string)
    (st st' : @RunState World) : Prop :=
  activeApiIndex (this st') = activeApiIndex (this st) /\
  exists urls, trace st' = trace st ++ map (Requested via apiName) urls.

(** *** Properties of the resolver *)

Ltac split_matches :=
  repeat match goal with
         | |- context [match ?x with _ => _ end] => destruct x eqn:?
         | |- context [if ?b then _ else _] => destruct b eqn:?
         end.

Lemma identical_never_neither {Obj : Type}
    (getTx : string -> Obj -> LedgerPosition * Obj)
    (getSat : string -> Obj -> option string * Obj)
    (getBySat : Z -> Z -> Obj -> option string * Obj)
    (conflict : Conflict) (s : Obj) :
  winner (fst (fst (resolveIdenticalInscriptionConflict getTx getSat getBySat conflict s)))
  <> NEITHER.
Proof.
  unfold resolveIdenticalInscriptionConflict.
  split_matches; simpl; discriminate.
Qed.

(** C1 fails on the code.  For the conflict in which both sides carry the
    'ID not found' sentinel, whatever the ledger and the inscription service
    answer, [resolveConflict] takes its first branch (equal ids) and hands
    the conflict to [resolveIdenticalInscriptionConflict]; the verdict is
    never NEITHER. *)
Theorem both_not_found_escalates {Obj : Type}
    (getTx : string -> Obj -> LedgerPosition * Obj)
    (getSat : string -> Obj -> option string * Obj)
    (getBySat : Z -> Z -> Obj -> option string * Obj) (s : Obj) :
  resolveConflict getTx getSat getBySat bothNotFound s =
    resolveIdenticalInscriptionConflict getTx getSat getBySat bothNotFound s /\
  winner (fst (fst (resolveConflict getTx getSat getBySat bothNotFound s))) <> NEITHER.
Proof.
  assert (E : resolveConflict getTx getSat getBySat bothNotFound s =
              resolveIdenticalInscriptionConflict getTx getSat getBySat bothNotFound s)
    by reflexivity.
  split; [exact E|]. rewrite E. apply identical_never_neither.
Qed.

Ltac settle_fetched :=
  repeat match goal with
         | H : _ \/ _ |- _ => destruct H
         | H : False |- _ => destruct H
         | H : In _ _ |- _ => simpl in H
         | H : (_, _) = (_, _) |- _ => inversion H; clear H; subst
         | H : REPO1 = REPO2 |- _ => discriminate H
         | H : REPO2 = REPO1 |- _ => discriminate H
         | H : _ = REPO1 |- _ => try discriminate H; clear H
         | H : _ = REPO2 |- _ => try discriminate H; clear H
         | H : (_ <? _) = true |- _ => apply Z.ltb_lt in H
         | H : (_ <? _) = false |- _ => apply Z.ltb_ge in H
         end.

Lemma identical_WinnerNotLater {Obj : Type}
    (getTx : string -> Obj -> LedgerPosition * Obj)
    (getSat : string -> Obj -> option string * Obj)
    (getBySat : Z -> Z -> Obj -> option string * Obj)
    (conflict : Conflict) (s : Obj) :
  WinnerNotLater
    (fst (resolveIdenticalInscriptionConflict getTx getSat getBySat conflict s)).
Proof.
  unfold WinnerNotLater, resolveIdenticalInscriptionConflict.
  split_matches; simpl; intros pw pl hw hl Hw Hin1 Hin2 H1 H2;
    settle_fetched; try congruence;
    repeat match goal with
           | H : blockHeight ?p = Some _, H' : blockHeight ?p = Some _ |- _ =>
               rewrite H in H'; injection H' as ?; subst
           | H : blockHeight ?p = None, H' : blockHeight ?p = Some _ |- _ =>
               rewrite H in H'; discriminate H'
           end; lia.
Qed.

(** C2. Whatever the ledger and the inscription service answer, a verdict
    of [resolveConflict] never names a winner whose fetched block height is
    strictly above the loser's when both heights are known; the same holds
    of the identical-inscription sub-protocol on its own. *)
Theorem winner_not_inscribed_later {Obj : Type}
    (getTx : string -> Obj -> LedgerPosition * Obj)
    (getSat : string -> Obj -> option string * Obj)
    (getBySat : Z -> Z -> Obj -> option string * Obj)
    (conflict : Conflict) (s : Obj) :
  WinnerNotLater (fst (resolveConflict getTx getSat getBySat conflict s)) /\
  WinnerNotLater
    (fst (resolveIdenticalInscriptionConflict getTx getSat getBySat conflict s)).
Proof.
  split; [|apply identical_WinnerNotLater].
  unfold resolveConflict.
  destruct (String.eqb (repo1Id conflict) (repo2Id conflict));
    [apply identical_WinnerNotLater|].
  unfold WinnerNotLater.
  split_matches; simpl; intros pw pl hw hl Hw Hin1 Hin2 H1 H2;
    settle_fetched; try congruence;
    repeat match goal with
           | H : blockHeight ?p = Some _, H' : blockHeight ?p = Some _ |- _ =>
               rewrite H in H'; injection H' as ?; subst
           | H : blockHeight ?p = None, H' : blockHeight ?p = Some _ |- _ =>
               rewrite H in H'; discriminate H'
           end; lia.
Qed.

Lemma winner_not_inscribed_later_witness :
  let resolution := fst (resolveConflict sampleLedger noSatoshi noInscription
                           sampleConflict tt) in
  winner (fst resolution) = REPO1 /\
  snd resolution =
    [(REPO1, {| blockHeight := Some 800000; blockPosition := Some 3 |});
     (REPO2, {| blockHeight := Some 800001; blockPosition := Some 0 |})] /\
  800000 <= 800001.
Proof.
  split; [reflexivity|]. split; [reflexivity|].
  destruct (winner_not_inscribed_later sampleLedger noSatoshi noInscription
              sampleConflict tt) as [H _].
  apply (H {| blockHeight := Some 800000; blockPosition := Some 3 |}
           {| blockHeight := Some 800001; blockPosition := Some 0 |}
           800000 800001).
  - left. reflexivity.
  - left. reflexivity.
  - right. left. reflexivity.
  - reflexivity.
  - reflexivity.
Defined.

(** *** Inscription ids and verdicts that need no lookup *)

Lemma takeHex_sound n : forall s hex rest,
  takeHex n s = Some (hex, rest) ->
  s = (hex ++ rest)%string /\ String.length hex = n /\ allHex hex = true.
Proof.
  induction n as [|n IH]; intros s hex rest; simpl.
  - intros E. injection E as <- <-. auto.
  - destruct s as [|c s']; [discriminate|].
    destruct (isLowerHex c) eqn:Hc; [|discriminate].
    destruct (takeHex n s') as [[h r]|] eqn:Et; [|discriminate].
    intros E. injection E as <- <-.
    apply IH in Et as (-> & L & A). simpl. rewrite Hc, A, L. auto.
Qed.

Lemma takeHex_complete hex rest :
  allHex hex = true ->
  takeHex (String.length hex) (hex ++ rest) = Some (hex, rest).
Proof.
  induction hex as [|c hex IH]; simpl; [reflexivity|].
  intros A. apply andb_true_iff in A as [Hc A].
  now rewrite Hc, IH.
Qed.

(** X15. [extractTxId] returns a txid exactly for the strings made of 64
    lowercase hexadecimal characters, the letter i and a nonempty run of
    digits, and the txid is then these 64 characters; everything else,
    'ID not found' and the empty string included, gives [null]. *)
Theorem extractTxId_exact (inscription txid : string) :
  extractTxId inscription = Some txid <->
  exists index : string,
    inscription = (txid ++ "i" ++ index)%string /\
    String.length txid = 64%nat /\ allHex txid = true /\
    index <> EmptyString /\ allDigits index = true.
Proof.
  unfold extractTxId. split.
  - destruct (negb (Js.truthyStr inscription) || String.eqb inscription idNotFound)%bool;
      [discriminate|].
    destruct (takeHex 64 inscription) as [[hex rest]|] eqn:Et; [|discriminate].
    apply takeHex_sound in Et as (-> & L & A).
    destruct rest as [|c rest]; [discriminate|].
    destruct (Ascii.eqb_spec c "i"); [subst c|
      destruct c as [[] [] [] [] [] [] [] []]; try discriminate; congruence].
    destruct rest as [|d digits]; [discriminate|].
    destruct (allDigits (String d digits)) eqn:D; [|discriminate].
    intros E. injection E as <-. exists (String d digits). auto 10.
  - intros (index & -> & L & A & Hne & D).
    assert (T : takeHex 64 (txid ++ "i" ++ index) = Some (txid, ("i" ++ index)%string))
      by (rewrite <- L; now apply takeHex_complete).
    destruct txid as [|c txid']; [discriminate|].
    assert (Hc : isLowerHex c = true)
      by (simpl in A; apply andb_true_iff in A; tauto).
    replace (negb (Js.truthyStr (String c txid' ++ "i" ++ index)) ||
             String.eqb (String c txid' ++ "i" ++ index) idNotFound)%bool with false.
    + rewrite T. destruct index as [|d digits]; [contradiction|].
      change ("i" ++ String d digits)%string with (String "i" (String d digits)).
      cbv iota beta. now rewrite D.
    + symmetry. simpl negb. simpl orb. unfold idNotFound.
      simpl. destruct (Ascii.eqb_spec c "I"); [|reflexivity].
      subst c. discriminate.
Qed.

(** X16. When the two ids differ and one of them is not an inscription id
    ('ID not found' or malformed), [resolveConflict] decides without asking
    the ledger or the inscription service anything: the object is left as it
    was and no position is fetched.  The other side wins when an id is
    'ID not found', even if the winning id is malformed; otherwise the
    verdict is UNKNOWN. *)
Theorem missing_id_needs_no_lookup {Obj : Type}
    (getTx : string -> Obj -> LedgerPosition * Obj)
    (getSat : string -> Obj -> option string * Obj)
    (getBySat : Z -> Z -> Obj -> option string * Obj)
    (conflict : Conflict) (s : Obj) :
  repo1Id conflict <> repo2Id conflict ->
  extractTxId (repo1Id conflict) = None \/ extractTxId (repo2Id conflict) = None ->
  let result := resolveConflict getTx getSat getBySat conflict s in
  snd result = s /\
  snd (fst result) = [] /\
  winner (fst (fst result)) =
    (if String.eqb (repo1Id conflict) idNotFound then REPO2
     else if String.eqb (repo2Id conflict) idNotFound then REPO1
     else UNKNOWN) /\
  inscriptionId (fst (fst result)) =
    (if String.eqb (repo1Id conflict) idNotFound then Some (repo2Id conflict)
     else if String.eqb (repo2Id conflict) idNotFound then Some (repo1Id conflict)
     else None).
Proof.
  intros Hne Hbad. cbn zeta. unfold resolveConflict.
  destruct (String.eqb_spec (repo1Id conflict) (repo2Id conflict)) as [E|_];
    [contradiction|].
  destruct (String.eqb_spec (repo1Id conflict) idNotFound) as [E1|N1];
    destruct (String.eqb_spec (repo2Id conflict) idNotFound) as [E2|N2];
    cbn [andb]; try (repeat split; reflexivity).
  - congruence.
  - destruct Hbad as [H|H]; rewrite H.
    + repeat split; reflexivity.
    + destruct (extractTxId (repo1Id conflict)); repeat split; reflexivity.
Qed.

Lemma missing_id_needs_no_lookup_witness :
  let result := resolveConflict sampleLedger noSatoshi noInscription oneSided tt in
  snd result = tt /\ snd (fst result) = [] /\
  winner (fst (fst result)) = REPO2 /\
  inscriptionId (fst (fst result)) = Some "not an inscription".
Proof.
  apply (missing_id_needs_no_lookup sampleLedger noSatoshi noInscription oneSided tt).
  - discriminate.
  - left. reflexivity.
Defined.

(** X17. The verdict does not depend on which repository is called repo1:
    with a ledger and an inscription service that answer the same question
    the same way, exchanging the two sides of a conflict exchanges REPO1 and
    REPO2 in the verdict and changes nothing else of the winner, its
    inscription id and the two sats. *)
Theorem verdict_mirrored (pos : string -> LedgerPosition)
    (satOf : string -> option string) (bySat : Z -> Z -> option string)
    (conflict : Conflict) :
  let resolve c :=
    fst (fst (resolveConflict (steady pos) (steady satOf)
                (fun sat blk => steady (bySat sat) blk) c tt)) in
  winner (resolve (swapConflict conflict)) = mirror (winner (resolve conflict)) /\
  inscriptionId (resolve (swapConflict conflict)) = inscriptionId (resolve conflict) /\
  winningSat (resolve (swapConflict conflict)) = winningSat (resolve conflict) /\
  losingSat (resolve (swapConflict conflict)) = losingSat (resolve conflict) /\
  verdictBlock (resolve (swapConflict conflict)) = verdictBlock (resolve conflict).
Proof.
  cbn zeta. unfold resolveConflict, swapConflict, steady.
  cbn [block repo1Id repo2Id file1Sat file2Sat].
  destruct conflict as [blk id1 id2 sat1 sat2].
  cbn [block repo1Id repo2Id file1Sat file2Sat].
  rewrite (String.eqb_sym id2 id1).
  destruct (String.eqb_spec id1 id2) as [E|Hne].
  - subst id2. unfold resolveIdenticalInscriptionConflict, steady.
    cbn [block repo1Id repo2Id file1Sat file2Sat].
    destruct (satOf id1) as [actual|]; [|repeat split; reflexivity].
    destruct (negb (Js.truthyStr actual)); [repeat split; reflexivity|].
    destruct (String.eqb actual (Js.numToString sat1)),
             (String.eqb actual (Js.numToString sat2)); cbn [andb negb];
      try (repeat split; reflexivity).
    + destruct (bySat sat2 blk) as [remaining|]; [|repeat split; reflexivity].
      destruct (negb (Js.truthyStr remaining)); [repeat split; reflexivity|].
      destruct (extractTxId id1), (extractTxId remaining);
        try (repeat split; reflexivity).
      destruct (blockHeight (pos s)), (blockHeight (pos s0));
        try (repeat split; reflexivity).
      destruct (z <? z0); [repeat split; reflexivity|].
      destruct (z0 <? z); [repeat split; reflexivity|].
      destruct (blockPosition (pos s)), (blockPosition (pos s0));
        try (repeat split; reflexivity).
      destruct (z1 <? z2); [repeat split; reflexivity|].
      destruct (z2 <? z1); repeat split; reflexivity.
    + destruct (bySat sat1 blk) as [remaining|]; [|repeat split; reflexivity].
      destruct (negb (Js.truthyStr remaining)); [repeat split; reflexivity|].
      destruct (extractTxId id1), (extractTxId remaining);
        try (repeat split; reflexivity).
      destruct (blockHeight (pos s)), (blockHeight (pos s0));
        try (repeat split; reflexivity).
      destruct (z <? z0); [repeat split; reflexivity|].
      destruct (z0 <? z); [repeat split; reflexivity|].
      destruct (blockPosition (pos s)), (blockPosition (pos s0));
        try (repeat split; reflexivity).
      destruct (z1 <? z2); [repeat split; reflexivity|].
      destruct (z2 <? z1); repeat split; reflexivity.
  - destruct (String.eqb_spec id1 idNotFound) as [E1|N1];
      destruct (String.eqb_spec id2 idNotFound) as [E2|N2]; cbn [andb];
      try congruence; try (repeat split; reflexivity).
    destruct (extractTxId id1) as [t1|], (extractTxId id2) as [t2|];
      try (repeat split; reflexivity).
    destruct (blockHeight (pos t1)) as [h1|], (blockHeight (pos t2)) as [h2|];
      try (repeat split; reflexivity).
    destruct (Z.ltb_spec h1 h2), (Z.ltb_spec h2 h1); try lia;
      try (repeat split; reflexivity).
    destruct (blockPosition (pos t1)) as [p1|], (blockPosition (pos t2)) as [p2|];
      try (repeat split; reflexivity).
    destruct (Z.ltb_spec p1 p2), (Z.ltb_spec p2 p1); try lia;
      repeat split; reflexivity.
Qed.

(** *** Properties of the provider router *)

Lemma Requests_refl {World : Type} via apiName (st : @RunState World) :
  Requests via apiName st st.
Proof. split; [reflexivity|]. exists []. simpl. now rewrite app_nil_r. Qed.

Lemma Requests_trans {World : Type} via apiName (st1 st2 st3 : @RunState World) :
  Requests via apiName st1 st2 -> Requests via apiName st2 st3 ->
  Requests via apiName st1 st3.
Proof.
  intros [A1 (u1 & T1)] [A2 (u2 & T2)]. split; [congruence|].
  exists (u1 ++ u2). now rewrite T2, T1, map_app, app_assoc.
Qed.

Lemma Requests_same {World : Type} via apiName (st st' : @RunState World) :
  trace st' = trace st -> activeApiIndex (this st') = activeApiIndex (this st) ->
  Requests via apiName st st'.
Proof. intros T A. split; [assumption|]. exists []. simpl. now rewrite app_nil_r. Qed.

Lemma name_inj p q : name p = name q -> p = q.
Proof. destruct p, q; simpl; intros H; congruence. Qed.

Lemma quiet_app_request routes events via apiName url :
  noRequestAfterExhausted routes events ->
  (routes via = true -> forall p, name p = apiName -> ~ In (MarkedExhausted p) events) ->
  noRequestAfterExhausted routes (events ++ [Requested via apiName url]).
Proof.
  induction events as [|e events IH]; intros Hq Hfree; simpl; [exact I|].
  destruct e as [via' api' url'|p].
  - apply IH; [exact Hq|]. intros Hr q Hn Hin. apply (Hfree Hr q Hn). now right.
  - destruct Hq as [Hp Hq]. split.
    + intros v u Hr Hin. apply in_app_iff in Hin as [Hin|[E|[]]].
      * now apply (Hp v u).
      * injection E as Ev Ea Eu. subst v u.
        apply (Hfree Hr p (eq_sym Ea)). now left.
    + apply IH; [exact Hq|]. intros Hr q Hn Hin. apply (Hfree Hr q Hn). now right.
Qed.

Lemma quiet_app_requests routes via apiName urls : forall events,
  noRequestAfterExhausted routes events ->
  (routes via = true -> forall p, name p = apiName -> ~ In (MarkedExhausted p) events) ->
  noRequestAfterExhausted routes (events ++ map (Requested via apiName) urls).
Proof.
  induction urls as [|u urls IH]; intros events Hq Hfree; simpl.
  - now rewrite app_nil_r.
  - replace (events ++ Requested via apiName u :: map (Requested via apiName) urls)
      with ((events ++ [Requested via apiName u]) ++ map (Requested via apiName) urls)
      by now rewrite <- app_assoc.
    apply IH; [now apply quiet_app_request|].
    intros Hr p Hn Hin. apply in_app_iff in Hin as [Hin|[E|[]]]; [|discriminate].
    now apply (Hfree Hr p Hn).
Qed.

Lemma quiet_app_mark routes events p :
  noRequestAfterExhausted routes events ->
  noRequestAfterExhausted routes (events ++ [MarkedExhausted p]).
Proof.
  induction events as [|e events IH]; intros Hq; simpl.
  - split; [intros ? ? ? []|exact I].
  - destruct e as [via' api' url'|q]; [now apply IH|].
    destruct Hq as [Hp Hq]. split; [|now apply IH].
    intros v u Hr Hin. apply in_app_iff in Hin as [Hin|[E|[]]]; [|discriminate].
    now apply (Hp v u).
Qed.

Lemma marked_app_requests via apiName urls events p :
  In (MarkedExhausted p) (events ++ map (Requested via apiName) urls) ->
  In (MarkedExhausted p) events.
Proof.
  intros Hin. apply in_app_iff in Hin as [Hin|Hin]; [assumption|].
  apply in_map_iff in Hin as (u & E & _). discriminate.
Qed.

(** Requests keep the invariant when they bypass the router's bookkeeping
    (block txids) or go to a provider at or above the active index. *)
Lemma RouterInv_requests {World : Type} via apiName (st st' : @RunState World) :
  RouterInv st -> Requests via apiName st st' ->
  (routerOnly via = true ->
   forall p, name p = apiName -> (activeApiIndex (this st) <= index p)%nat) ->
  RouterInv st'.
Proof.
  intros [Hm Hq] [A (urls & T)] Hfree. split.
  - intros p Hin. rewrite T in Hin. apply marked_app_requests in Hin.
    rewrite A. now apply Hm.
  - rewrite T. apply quiet_app_requests; [assumption|].
    intros Hr p Hn Hin. specialize (Hm p Hin). specialize (Hfree Hr p Hn). lia.
Qed.

Lemma attemptWithRetry_Requests {World : Type}
    (httpsGet : string -> option string -> World -> Response * World)
    via url apiName (st : @RunState World) :
  Requests via apiName st (snd (attemptWithRetry httpsGet via url apiName st)).
Proof.
  unfold attemptWithRetry.
  destruct (httpsGet url _ (world st)) as [resp w].
  split.
  - destruct resp as [body|code|m|m]; simpl; try reflexivity.
    destruct ((code =? 401) && String.eqb apiName "blockstream")%bool; simpl;
      [reflexivity|]. destruct (code =? 429); reflexivity.
  - exists [url].
    destruct resp as [body|code|m|m]; simpl; try reflexivity.
    destruct ((code =? 401) && String.eqb apiName "blockstream")%bool; simpl;
      [reflexivity|]. destruct (code =? 429); reflexivity.
Qed.

Lemma attemptPlain_Requests {World : Type}
    (httpsGet : string -> option string -> World -> Response * World)
    via url apiName header (st : @RunState World) :
  Requests via apiName st (snd (attemptPlain httpsGet via url apiName header st)).
Proof.
  unfold attemptPlain.
  destruct (httpsGet url header (world st)) as [resp w].
  split; [|exists [url]]; destruct resp; reflexivity.
Qed.

Lemma retrying_Requests {World A : Type} via apiName (attempt : @M World A) :
  (forall st, Requests via apiName st (snd (attempt st))) ->
  forall remaining st, Requests via apiName st (snd (retrying attempt remaining st)).
Proof.
  intros Hattempt. induction remaining as [|k IH]; intros st; simpl;
    specialize (Hattempt st); destruct (attempt st) as [[e|x] st']; simpl in *;
    try assumption.
  eapply Requests_trans; [exact Hattempt|apply IH].
Qed.

Lemma fetchJSONWithRetry_Requests {World : Type}
    (httpsGet : string -> option string -> World -> Response * World)
    via url apiName (st : @RunState World) :
  Requests via apiName st (snd (fetchJSONWithRetry httpsGet via url apiName st)).
Proof.
  apply retrying_Requests. intros st'. apply attemptWithRetry_Requests.
Qed.

Lemma verify_Requests {World : Type}
    (httpsGet : string -> option string -> World -> Response * World)
    (st : @RunState World) :
  Requests Router "blockstream" st (snd (verifyBlockstreamCredentials httpsGet st)).
Proof.
  unfold verifyBlockstreamCredentials.
  destruct (blockstreamVerified (this st)); [apply Requests_refl|].
  destruct (negb _); [apply Requests_refl|].
  pose proof (retrying_Requests Router "blockstream"
    (attemptPlain httpsGet Router (blockstreamBase ++ "/blocks/tip/height")%string
       "blockstream" (blockstreamAuthHeader (this st)))
    (fun st' => attemptPlain_Requests httpsGet _ _ _ _ st') 2%nat st) as H.
  unfold fetchJSON.
  destruct (retrying _ 2 st) as [[m|body] st1]; simpl in *.
  - destruct (Js.includes "401" m); [|exact H].
    eapply Requests_trans; [exact H|]. now apply Requests_same.
  - eapply Requests_trans; [exact H|]. now apply Requests_same.
Qed.

Lemma prepare_Requests {World : Type}
    (httpsGet : string -> option string -> World -> Response * World)
    (now : World -> Z) (envAuthHeader : option string) p (st : @RunState World) :
  Requests Router (name p) st (prepare httpsGet now envAuthHeader p st).
Proof.
  unfold prepare.
  set (st1 := match p with Mempool => st | Blockstream => _ end).
  assert (H1 : Requests Router (name p) st st1).
  { subst st1. destruct p; [apply Requests_refl|]. simpl name.
    destruct (_ && _)%bool.
    - eapply Requests_trans; [|apply verify_Requests]. now apply Requests_same.
    - now apply Requests_same. }
  destruct (resetAt _ <=? now (world st1)); [|exact H1].
  eapply Requests_trans; [exact H1|]. apply Requests_same; [reflexivity|].
  destruct p; reflexivity.
Qed.

Lemma markExhausted_RouterInv {World : Type} p (st : @RunState World) :
  RouterInv st -> RouterInv (markExhausted (index p) p st).
Proof.
  intros [Hm Hq]. split.
  - intros q Hin. unfold markExhausted in *. simpl in *.
    apply in_app_iff in Hin as [Hin|[E|[]]].
    + specialize (Hm q Hin). destruct p; simpl; lia.
    + injection E as <-. destruct p; simpl; lia.
  - unfold markExhausted. simpl. now apply quiet_app_mark.
Qed.

Lemma markExhausted_active {World : Type} i p (st : @RunState World) :
  activeApiIndex (this (markExhausted i p st)) =
  Nat.max (activeApiIndex (this st)) (i + 1).
Proof. unfold markExhausted. destruct p; reflexivity. Qed.

Lemma drop_primaryApis n i p rest :
  drop n primaryApis = (i, p) :: rest ->
  i = n /\ index p = n /\ rest = drop (Datatypes.S n) primaryApis.
Proof.
  destruct n as [|[|n]]; simpl; intros H.
  - injection H as <- <- <-. auto.
  - injection H as <- <- <-. auto.
  - destruct n; discriminate H.
Qed.

(** The loop of the router: the active index never decreases, and the
    invariant is kept when the loop is entered at or above the active
    index. *)
Lemma routerLoop_spec {World : Type}
    (httpsGet : string -> option string -> World -> Response * World)
    (now : World -> Z) (envAuthHeader : option string)
    (txidOrHash apiType : string) :
  forall rest n lastError (st : @RunState World),
    rest = drop n primaryApis ->
    let st' := snd (routerLoop httpsGet now envAuthHeader rest txidOrHash apiType
                      lastError st) in
    (activeApiIndex (this st) <= activeApiIndex (this st'))%nat /\
    (RouterInv st -> (activeApiIndex (this st) <= n)%nat -> RouterInv st').
Proof.
  induction rest as [|[i p] rest IH]; intros n lastError st Hrest; simpl.
  { split; [lia|auto]. }
  symmetry in Hrest. apply drop_primaryApis in Hrest as (-> & Hp & Hrest).
  pose proof (prepare_Requests httpsGet now envAuthHeader p st) as R1.
  set (st1 := prepare httpsGet now envAuthHeader p st) in *.
  destruct (exhausted (requestCounter p (this st1))).
  { destruct (IH (Datatypes.S n) lastError st1 Hrest) as [Hmono Hinv].
    destruct R1 as [A1 T1]. split; [lia|].
    intros HI Hle. apply Hinv; [|lia].
    eapply RouterInv_requests; [exact HI|split; [exact A1|exact T1]|].
    intros _ q Hq. apply name_inj in Hq. subst q. lia. }
  set (st2 := update _ st1).
  assert (R2 : Requests Router (name p) st st2).
  { eapply Requests_trans; [exact R1|]. apply Requests_same; [reflexivity|].
    destruct p; reflexivity. }
  pose proof (fetchJSONWithRetry_Requests httpsGet Router
                (builder p apiType txidOrHash) (name p) st2) as R3.
  destruct (fetchJSONWithRetry httpsGet Router _ (name p) st2) as [[error|data] st3];
    simpl in R3.
  2:{ simpl. pose proof (Requests_trans _ _ _ _ _ R2 R3) as [A T].
      split; [lia|]. intros HI Hle.
      eapply RouterInv_requests; [exact HI|split; [exact A|exact T]|].
      intros _ q Hq. apply name_inj in Hq. subst q. lia. }
  pose proof (Requests_trans _ _ _ _ _ R2 R3) as R.
  assert (HI3 : RouterInv st -> (activeApiIndex (this st) <= n)%nat -> RouterInv st3).
  { intros HI Hle. eapply RouterInv_requests; [exact HI|exact R|].
    intros _ q Hq. apply name_inj in Hq. subst q. lia. }
  destruct R as [A3 _].
  assert (Hmark : forall lastError' st4,
            activeApiIndex (this st4) = activeApiIndex (this st) ->
            (RouterInv st -> (activeApiIndex (this st) <= n)%nat -> RouterInv st4) ->
            let st' := snd (routerLoop httpsGet now envAuthHeader rest txidOrHash
                              apiType lastError' (markExhausted n p st4)) in
            (activeApiIndex (this st) <= activeApiIndex (this st'))%nat /\
            (RouterInv st -> (activeApiIndex (this st) <= n)%nat -> RouterInv st')).
  { intros lastError' st4 A4 HI4.
    destruct (IH (Datatypes.S n) lastError' (markExhausted n p st4) Hrest)
      as [Hmono Hinv].
    rewrite markExhausted_active in Hmono, Hinv. split; [lia|].
    intros HI Hle. apply Hinv; [|lia].
    rewrite <- Hp. apply markExhausted_RouterInv. now apply HI4. }
  assert (Hnext : forall lastError',
            let st' := snd (routerLoop httpsGet now envAuthHeader rest txidOrHash
                              apiType lastError' st3) in
            (activeApiIndex (this st) <= activeApiIndex (this st'))%nat /\
            (RouterInv st -> (activeApiIndex (this st) <= n)%nat -> RouterInv st')).
  { intros lastError'.
    destruct (IH (Datatypes.S n) lastError' st3 Hrest) as [Hmono Hinv].
    split; [lia|]. intros HI Hle. apply Hinv; [now apply HI3|lia]. }
  destruct (Js.includes "429" error || Js.includes "rate" (Js.toLowerCase error))%bool.
  { now apply Hmark. }
  destruct p; [apply Hnext|].
  destruct (Js.includes "401" error); [|apply Hnext].
  set (st3' := update (setAuth None false) st3).
  pose proof (fetchJSONWithRetry_Requests httpsGet Router
                (builder Blockstream apiType txidOrHash) "blockstream" st3') as R4.
  destruct (fetchJSONWithRetry httpsGet Router _ "blockstream" st3')
    as [[secondError|data] st4]; simpl in R4.
  - apply Hmark.
    + destruct R4 as [A4 _]. rewrite A4. subst st3'. simpl. exact A3.
    + intros HI Hle. eapply RouterInv_requests; [|exact R4|].
      * specialize (HI3 HI Hle). destruct HI3 as [Hm Hq]. now split.
      * intros _ q Hq. apply (name_inj q Blockstream) in Hq. subst q.
        subst st3'. simpl in *. lia.
  - simpl. destruct R4 as [A4 T4]. split.
    + rewrite A4. subst st3'. simpl. lia.
    + intros HI Hle. eapply RouterInv_requests; [|split; [exact A4|exact T4]|].
      * specialize (HI3 HI Hle). destruct HI3 as [Hm Hq]. now split.
      * intros _ q Hq. apply (name_inj q Blockstream) in Hq. subst q.
        subst st3'. simpl in *. lia.
Qed.

Lemma fetchFromAPI_spec {World : Type}
    (httpsGet : string -> option string -> World -> Response * World)
    (now : World -> Z) (envAuthHeader : option string)
    (endpoint txidOrHash apiType : string) (st : @RunState World) :
  let st' := snd (fetchFromAPI httpsGet now envAuthHeader endpoint txidOrHash apiType st) in
  (activeApiIndex (this st) <= activeApiIndex (this st'))%nat /\
  (RouterInv st -> RouterInv st').
Proof.
  unfold fetchFromAPI.
  destruct (routerLoop_spec httpsGet now envAuthHeader txidOrHash apiType
              (drop (activeApiIndex (this st)) primaryApis)
              (activeApiIndex (this st)) None st eq_refl) as [Hmono Hinv].
  split; [exact Hmono|]. intros HI. now apply Hinv.
Qed.

Lemma RouterInv_blockTxids {World : Type} apiName (st st' : @RunState World) :
  RouterInv st -> Requests BlockTxids apiName st st' -> RouterInv st'.
Proof.
  intros HI R. eapply RouterInv_requests; [exact HI|exact R|].
  simpl. discriminate.
Qed.

Lemma fetchBlockTxids_spec {World : Type}
    (httpsGet : string -> option string -> World -> Response * World)
    (blockHash : string) (st : @RunState World) :
  let st' := snd (fetchBlockTxids httpsGet blockHash st) in
  activeApiIndex (this st') = activeApiIndex (this st) /\
  (RouterInv st -> RouterInv st').
Proof.
  unfold fetchBlockTxids.
  pose proof (fetchJSONWithRetry_Requests httpsGet BlockTxids
    ("https://mempool.space/api/block/" ++ blockHash ++ "/txids")%string "mempool" st) as R1.
  destruct (fetchJSONWithRetry httpsGet BlockTxids _ "mempool" st) as [[e1|b1] st1];
    simpl in R1.
  2:{ simpl. split; [apply R1|]. intros HI. eapply RouterInv_blockTxids; eauto. }
  pose proof (fetchJSONWithRetry_Requests httpsGet BlockTxids
    (blockstreamBase ++ "/block/" ++ blockHash ++ "/txids")%string "blockstream" st1) as R2.
  destruct (fetchJSONWithRetry httpsGet BlockTxids _ "blockstream" st1) as [[e2|b2] st2];
    simpl in R2.
  2:{ simpl. destruct R1 as [A1 T1], R2 as [A2 T2]. split; [congruence|].
      intros HI. eapply RouterInv_blockTxids; [|split; [exact A2|exact T2]].
      eapply RouterInv_blockTxids; [exact HI|split; [exact A1|exact T1]]. }
  pose proof (fetchJSONWithRetry_Requests httpsGet BlockTxids
    ("https://api.blockchair.com/bitcoin/dashboards/block/" ++ blockHash)%string
    "blockchair" st2) as R3.
  assert (H2 : activeApiIndex (this st2) = activeApiIndex (this st) /\
               (RouterInv st -> RouterInv st2)).
  { destruct R1 as [A1 T1], R2 as [A2 T2]. split; [congruence|].
    intros HI. eapply RouterInv_blockTxids; [|split; [exact A2|exact T2]].
    eapply RouterInv_blockTxids; [exact HI|split; [exact A1|exact T1]]. }
  destruct H2 as [A2' I2'].
  assert (Hinfo : forall st3, Requests BlockTxids "blockchair" st2 st3 ->
    let st' := snd (match fetchJSONWithRetry httpsGet BlockTxids
                            ("https://blockchain.info/rawblock/" ++ blockHash)%string
                            "blockchaininfo" st3 with
                    | (inr (RawBlockBody (Some tx)), st4) =>
                        (inr (Some (omap (fun t =>
                           if Js.truthyOptStr t then t else None) tx)), st4)
                    | (_, st4) => (inl "All block txid APIs failed", st4)
                    end : (string + option (list string)) * RunState) in
    activeApiIndex (this st') = activeApiIndex (this st) /\
    (RouterInv st -> RouterInv st')).
  { intros st3 R.
    pose proof (fetchJSONWithRetry_Requests httpsGet BlockTxids
      ("https://blockchain.info/rawblock/" ++ blockHash)%string "blockchaininfo" st3) as R4.
    assert (G : activeApiIndex (this (snd (fetchJSONWithRetry httpsGet BlockTxids
                  ("https://blockchain.info/rawblock/" ++ blockHash)%string
                  "blockchaininfo" st3))) = activeApiIndex (this st) /\
                (RouterInv st -> RouterInv (snd (fetchJSONWithRetry httpsGet BlockTxids
                  ("https://blockchain.info/rawblock/" ++ blockHash)%string
                  "blockchaininfo" st3)))).
    { destruct R as [A T], R4 as [A4 T4]. split; [congruence|].
      intros HI. eapply RouterInv_blockTxids; [|split; [exact A4|exact T4]].
      eapply RouterInv_blockTxids; [exact (I2' HI)|split; [exact A|exact T]]. }
    destruct (fetchJSONWithRetry httpsGet BlockTxids _ "blockchaininfo" st3)
      as [[e4|b4] st4]; simpl in G |- *; [exact G|].
    destruct b4 as [| | |[tx|]|]; exact G. }
  destruct (fetchJSONWithRetry httpsGet BlockTxids _ "blockchair" st2) as [[e3|b3] st3];
    simpl in R3.
  - now apply Hinfo.
  - destruct b3 as [| |[transactions|]| |]; try now apply Hinfo.
    simpl. destruct R3 as [A3 T3]. split; [congruence|].
    intros HI. eapply RouterInv_blockTxids; [exact (I2' HI)|split; [exact A3|exact T3]].
Qed.

Lemma getTxPositionInBlock_spec {World : Type}
    (httpsGet : string -> option string -> World -> Response * World)
    (now : World -> Z) (envAuthHeader : option string)
    (txid : string) (st : @RunState World) :
  let st' := snd (getTxPositionInBlock httpsGet now envAuthHeader txid st) in
  (activeApiIndex (this st) <= activeApiIndex (this st'))%nat /\
  (RouterInv st -> RouterInv st').
Proof.
  unfold getTxPositionInBlock.
  pose proof (fetchFromAPI_spec httpsGet now envAuthHeader "tx" txid "tx" st) as H1.
  destruct (fetchFromAPI httpsGet now envAuthHeader "tx" txid "tx" st)
    as [[e|[api body]] st1]; simpl in H1; [exact H1|].
  destruct body as [[status|]| | | |]; try exact H1.
  destruct (block_height status) as [height|]; [|exact H1].
  destruct (block_hash status) as [hash|]; [|exact H1].
  destruct (Js.truthyNum height && Js.truthyStr hash)%bool; [|exact H1].
  destruct (blockCache (this st1) !! Js.numToString height); [exact H1|].
  pose proof (fetchBlockTxids_spec httpsGet hash st1) as H2.
  destruct H1 as [M1 I1].
  destruct (fetchBlockTxids httpsGet hash st1) as [[e|[[|t txList]|]] st2];
    simpl in H2 |- *; destruct H2 as [A2 I2];
    try (split; [lia|intros HI; now apply I2, I1]).
  split; [lia|]. intros HI. destruct (I2 (I1 HI)) as [Hm Hq]. now split.
Qed.

(** C6, as the code has it.  In a run of the resolver, whatever the
    network, the clock and the credentials: the router ([fetchFromAPI])
    never sends a request to a provider after marking it exhausted; every
    provider marked exhausted lies below [activeApiIndex], where the router
    loop starts; and [activeApiIndex] never decreases, across
    [fetchFromAPI] as across [getTxPositionInBlock].  (The fetch of a
    block's txid list does not go through the router.) *)
Theorem router_never_returns_to_exhausted {World : Type}
    (httpsGet : string -> option string -> World -> Response * World)
    (now : World -> Z) (envAuthHeader : option string)
    (w : World) (txids : list string) :
  let final := positionsRun httpsGet now envAuthHeader txids
                 (newResolver now envAuthHeader w) in
  noRequestAfterExhausted routerOnly (trace final) /\
  (forall p, In (MarkedExhausted p) (trace final) ->
     (index p < activeApiIndex (this final))%nat) /\
  (forall (st : RunState) endpoint txidOrHash apiType,
     (activeApiIndex (this st) <=
      activeApiIndex (this (snd (fetchFromAPI httpsGet now envAuthHeader
                                   endpoint txidOrHash apiType st))))%nat) /\
  (forall (st : RunState) txid,
     (activeApiIndex (this st) <=
      activeApiIndex (this (snd (getTxPositionInBlock httpsGet now envAuthHeader
                                   txid st))))%nat).
Proof.
  intros final.
  assert (HI : RouterInv final).
  { subst final. unfold positionsRun.
    assert (G : forall st, RouterInv st ->
              RouterInv (fold_left (fun st txid =>
                snd (getTxPositionInBlock httpsGet now envAuthHeader txid st)) txids st)).
    { induction txids as [|t txids IH]; intros st H; simpl; [assumption|].
      apply IH. now apply getTxPositionInBlock_spec. }
    apply G. split; simpl; [intros p []|exact I]. }
  destruct HI as [Hm Hq].
  split; [exact Hq|]. split; [exact Hm|]. split.
  - intros st endpoint txidOrHash apiType.
    apply (fetchFromAPI_spec httpsGet now envAuthHeader endpoint txidOrHash apiType st).
  - intros st txid. apply (getTxPositionInBlock_spec httpsGet now envAuthHeader txid st).
Qed.

Lemma router_never_returns_to_exhausted_witness :
  let final := positionsRun rateLimitedMempool frozenClock None [txidA; txidB]
                 (newResolver frozenClock None tt) in
  In (MarkedExhausted Mempool) (trace final) /\
  (index Mempool < activeApiIndex (this final))%nat /\
  noRequestAfterExhausted routerOnly (trace final).
Proof.
  intros final.
  destruct (router_never_returns_to_exhausted rateLimitedMempool frozenClock None
              tt [txidA; txidB]) as (Hq & Hm & _).
  assert (Hin : In (MarkedExhausted Mempool) (trace final))
    by (vm_compute; right; right; right; left; reflexivity).
  split; [exact Hin|]. split; [exact (Hm Mempool Hin)|exact Hq].
Defined.

(** The loop starts at [activeApiIndex], not at the first provider that is
    not exhausted: when mempool.space fails without a rate-limit signal and
    Blockstream is then marked exhausted, the index moves past both, and the
    next lookup sends no request at all although mempool.space was never
    marked. *)
Lemma router_skips_provider_not_marked :
  let st1 := positionsRun mempoolDownBlockstreamLimited frozenClock None [txidA]
               (newResolver frozenClock None tt) in
  let st2 := positionsRun mempoolDownBlockstreamLimited frozenClock None [txidB] st1 in
  activeApiIndex (this st1) = 2%nat /\
  exhausted (mempoolCounter (this st1)) = false /\
  ~ In (MarkedExhausted Mempool) (trace st1) /\
  trace st2 = trace st1.
Proof.
  intros st1 st2.
  assert (E : trace st1 =
    [Requested Router "mempool" ("https://mempool.space/api/tx/" ++ txidA);
     Requested Router "mempool" ("https://mempool.space/api/tx/" ++ txidA);
     Requested Router "mempool" ("https://mempool.space/api/tx/" ++ txidA);
     Requested Router "blockstream" ("https://blockstream.info/api/tx/" ++ txidA);
     Requested Router "blockstream" ("https://blockstream.info/api/tx/" ++ txidA);
     Requested Router "blockstream" ("https://blockstream.info/api/tx/" ++ txidA);
     MarkedExhausted Blockstream])
    by (vm_compute; reflexivity).
  repeat split; try (vm_compute; reflexivity).
  rewrite E. simpl. intuition discriminate.
Qed.

(** C6, as stated, fails: mempool.space answers the transaction lookup with
    429 and is marked exhausted, Blockstream serves the transaction, and the
    txid list of its block is then requested from mempool.space all the
    same. *)
Lemma exhausted_mempool_asked_for_block_txids :
  let final := positionsRun rateLimitedMempool frozenClock None [txidA]
                 (newResolver frozenClock None tt) in
  ~ noRequestAfterExhausted anyRoute (trace final).
Proof.
  intros final H.
  assert (E : trace final =
    [Requested Router "mempool" ("https://mempool.space/api/tx/" ++ txidA);
     Requested Router "mempool" ("https://mempool.space/api/tx/" ++ txidA);
     Requested Router "mempool" ("https://mempool.space/api/tx/" ++ txidA);
     MarkedExhausted Mempool;
     Requested Router "blockstream" ("https://blockstream.info/api/tx/" ++ txidA);
     Requested BlockTxids "mempool"
       "https://mempool.space/api/block/00000000000000000002a7c4/txids"])
    by (vm_compute; reflexivity).
  rewrite E in H. simpl in H. destruct H as [H _].
  apply (H BlockTxids "https://mempool.space/api/block/00000000000000000002a7c4/txids").
  - reflexivity.
  - right. left. reflexivity.
Qed.

(** *** What a lookup costs and what it leaves in the cache *)

Lemma requestCount_snoc events e :
  requestCount (events ++ [e]) =
  (requestCount events + if isRequest e then 1 else 0)%nat.
Proof.
  unfold requestCount. rewrite List.filter_app, length_app. simpl.
  destruct (isRequest e); reflexivity.
Qed.

Lemma Within_refl {World : Type} (st : @RunState World) : Within 0 st st.
Proof. split; [reflexivity|lia]. Qed.

Lemma Within_trans {World : Type} n m (st1 st2 st3 : @RunState World) :
  Within n st1 st2 -> Within m st2 st3 -> Within (n + m) st1 st3.
Proof. intros [C1 R1] [C2 R2]. split; [congruence|lia]. Qed.

Lemma Within_le {World : Type} n m (st st' : @RunState World) :
  (n <= m)%nat -> Within n st st' -> Within m st st'.
Proof. intros Hle [C R]. split; [assumption|lia]. Qed.

Lemma attemptWithRetry_Within {World : Type}
    (httpsGet : string -> option string -> World -> Response * World)
    via url apiName (st : @RunState World) :
  Within 1 st (snd (attemptWithRetry httpsGet via url apiName st)).
Proof.
  unfold attemptWithRetry, Within.
  destruct (httpsGet url _ (world st)) as [resp w].
  destruct resp as [body|code|m|m]; cbn [snd];
    try destruct (_ && _)%bool; try destruct (code =? 429);
    cbn [snd update this trace blockCache setAuth];
    rewrite requestCount_snoc; simpl; split; (reflexivity || lia).
Qed.

Lemma attemptPlain_Within {World : Type}
    (httpsGet : string -> option string -> World -> Response * World)
    via url apiName header (st : @RunState World) :
  Within 1 st (snd (attemptPlain httpsGet via url apiName header st)).
Proof.
  unfold attemptPlain, Within.
  destruct (httpsGet url header (world st)) as [resp w].
  destruct resp as [body|code|m|m]; cbn [snd this trace];
    rewrite requestCount_snoc; simpl; split; (reflexivity || lia).
Qed.

Lemma retrying_Within {World A : Type} (attempt : @M World A) :
  (forall st, Within 1 st (snd (attempt st))) ->
  forall remaining st, Within (S remaining) st (snd (retrying attempt remaining st)).
Proof.
  intros Hattempt. induction remaining as [|k IH]; intros st; simpl;
    specialize (Hattempt st); destruct (attempt st) as [[e|x] st']; simpl in *;
    try (eapply Within_le; [|exact Hattempt]; lia).
  change (S (S k)) with (1 + S k)%nat.
  eapply Within_trans; [exact Hattempt|apply IH].
Qed.

Lemma fetchJSONWithRetry_Within {World : Type}
    (httpsGet : string -> option string -> World -> Response * World)
    via url apiName (st : @RunState World) :
  Within 3 st (snd (fetchJSONWithRetry httpsGet via url apiName st)).
Proof.
  apply retrying_Within. intros st'. apply attemptWithRetry_Within.
Qed.

Lemma update_Within {World : Type} (f : Resolver -> Resolver) (st : @RunState World) :
  (forall r, blockCache (f r) = blockCache r) -> Within 0 st (update f st).
Proof. intros Hf. split; [apply Hf|simpl; lia]. Qed.

Lemma verify_Within {World : Type}
    (httpsGet : string -> option string -> World -> Response * World)
    (st : @RunState World) :
  Within 3 st (snd (verifyBlockstreamCredentials httpsGet st)).
Proof.
  unfold verifyBlockstreamCredentials.
  destruct (blockstreamVerified (this st));
    [eapply Within_le; [|apply Within_refl]; lia|].
  destruct (negb _); [eapply Within_le; [|apply Within_refl]; lia|].
  pose proof (retrying_Within
    (attemptPlain httpsGet Router (blockstreamBase ++ "/blocks/tip/height")%string
       "blockstream" (blockstreamAuthHeader (this st)))
    (fun st' => attemptPlain_Within httpsGet Router _ "blockstream" _ st') 2 st) as R.
  unfold fetchJSON.
  destruct (retrying _ 2 st) as [[m|b] st1]; simpl in R |- *.
  - destruct (Js.includes "401" m); [|exact R].
    change 3%nat with (3 + 0)%nat.
    eapply Within_trans; [exact R|]. now apply update_Within.
  - change 3%nat with (3 + 0)%nat.
    eapply Within_trans; [exact R|]. now apply update_Within.
Qed.

Lemma prepare_Within {World : Type}
    (httpsGet : string -> option string -> World -> Response * World)
    (now : World -> Z) (envAuthHeader : option string) p (st : @RunState World) :
  Within (match p with Mempool => 0 | Blockstream => 3 end) st
         (prepare httpsGet now envAuthHeader p st).
Proof.
  unfold prepare.
  set (st1 := match p with Mempool => st | Blockstream => _ end).
  assert (H1 : Within (match p with Mempool => 0 | Blockstream => 3 end) st st1).
  { subst st1. destruct p; [apply Within_refl|].
    unfold refreshBlockstreamAuth.
    destruct (_ && _)%bool.
    - change 3%nat with (0 + 3)%nat.
      eapply Within_trans; [|apply verify_Within]. now apply update_Within.
    - eapply Within_le; [|now apply update_Within]. lia. }
  destruct (resetAt _ <=? now (world st1)); [|exact H1].
  rewrite <- (Nat.add_0_r (match p with Mempool => 0 | Blockstream => 3 end)%nat).
  eapply Within_trans; [exact H1|]. apply update_Within. now destruct p.
Qed.

Lemma markExhausted_Within {World : Type} i p (st : @RunState World) :
  Within 0 st (markExhausted i p st).
Proof.
  unfold markExhausted, Within. cbn [emit update this trace].
  rewrite requestCount_snoc. simpl. split; [now destruct p|lia].
Qed.

Lemma routerLoop_Within {World : Type}
    (httpsGet : string -> option string -> World -> Response * World)
    (now : World -> Z) (envAuthHeader : option string)
    (txidOrHash apiType : string) :
  forall rest lastError (st : @RunState World),
    Within (list_sum (map (fun ip => cost (snd ip)) rest)) st
      (snd (routerLoop httpsGet now envAuthHeader rest txidOrHash apiType lastError st)).
Proof.
  induction rest as [|[i p] rest IH]; intros lastError st; [apply Within_refl|].
  cbn [routerLoop map list_sum snd].
  set (rem := list_sum (map (fun ip => cost (snd ip)) rest)) in *.
  pose proof (prepare_Within httpsGet now envAuthHeader p st) as P.
  set (st1 := prepare httpsGet now envAuthHeader p st) in *.
  destruct (exhausted (requestCounter p (this st1))).
  { eapply Within_le; [|eapply Within_trans; [exact P|apply IH]].
    fold rem. destruct p; simpl; lia. }
  set (st2 := update _ st1).
  assert (P2 : Within (match p with Mempool => 0 | Blockstream => 3 end) st st2).
  { rewrite <- (Nat.add_0_r (match p with Mempool => 0 | Blockstream => 3 end)%nat).
    eapply Within_trans; [exact P|]. apply update_Within. now destruct p. }
  pose proof (fetchJSONWithRetry_Within httpsGet Router
                (builder p apiType txidOrHash) (name p) st2) as F.
  destruct (fetchJSONWithRetry httpsGet Router _ (name p) st2) as [[error|data] st3];
    cbn [snd] in F |- *.
  2:{ eapply Within_le; [|eapply Within_trans; [exact P2|exact F]].
      destruct p; simpl; lia. }
  assert (P3 : Within (match p with Mempool => 3 | Blockstream => 6 end) st st3).
  { eapply Within_le; [|eapply Within_trans; [exact P2|exact F]]. destruct p; lia. }
  assert (Next : forall err st4, Within 0 st3 st4 ->
            Within (cost p + rem) st
              (snd (routerLoop httpsGet now envAuthHeader rest txidOrHash apiType
                      err st4))).
  { intros err st4 H4.
    eapply Within_le; [|eapply Within_trans;
      [eapply Within_trans; [exact P3|exact H4]|apply IH]].
    fold rem. destruct p; simpl; lia. }
  destruct (_ || _)%bool; [apply Next, markExhausted_Within|].
  destruct p; [apply Next, Within_refl|].
  destruct (Js.includes "401" error); [|apply Next, Within_refl].
  pose proof (fetchJSONWithRetry_Within httpsGet Router
                (builder Blockstream apiType txidOrHash) "blockstream"
                (update (setAuth None false) st3)) as F2.
  assert (P4 : Within 9 st (snd (fetchJSONWithRetry httpsGet Router
                (builder Blockstream apiType txidOrHash) "blockstream"
                (update (setAuth None false) st3)))).
  { change 9%nat with (6 + 0 + 3)%nat.
    eapply Within_trans; [eapply Within_trans; [exact P3|]|exact F2].
    now apply update_Within. }
  destruct (fetchJSONWithRetry httpsGet Router _ "blockstream" _) as [[e2|d2] st4];
    cbn [snd] in P4 |- *.
  - eapply Within_le; [|eapply Within_trans;
      [eapply Within_trans; [exact P4|apply markExhausted_Within]|apply IH]].
    fold rem. simpl. lia.
  - eapply Within_le; [|exact P4]. simpl. lia.
Qed.

Lemma fetchFromAPI_Within {World : Type}
    (httpsGet : string -> option string -> World -> Response * World)
    (now : World -> Z) (envAuthHeader : option string)
    (endpoint txidOrHash apiType : string) (st : @RunState World) :
  Within 12 st
    (snd (fetchFromAPI httpsGet now envAuthHeader endpoint txidOrHash apiType st)).
Proof.
  unfold fetchFromAPI.
  eapply Within_le; [|apply routerLoop_Within].
  destruct (activeApiIndex (this st)) as [|[|[|n]]]; simpl; lia.
Qed.

Lemma fetchBlockTxids_Within {World : Type}
    (httpsGet : string -> option string -> World -> Response * World)
    (blockHash : string) (st : @RunState World) :
  Within 12 st (snd (fetchBlockTxids httpsGet blockHash st)).
Proof.
  unfold fetchBlockTxids.
  pose proof (fetchJSONWithRetry_Within httpsGet BlockTxids
    ("https://mempool.space/api/block/" ++ blockHash ++ "/txids")%string "mempool" st) as R1.
  destruct (fetchJSONWithRetry httpsGet BlockTxids _ "mempool" st) as [[e1|b1] st1];
    cbn [snd] in R1 |- *; [|eapply Within_le; [|exact R1]; lia].
  pose proof (fetchJSONWithRetry_Within httpsGet BlockTxids
    (blockstreamBase ++ "/block/" ++ blockHash ++ "/txids")%string "blockstream" st1) as R2.
  destruct (fetchJSONWithRetry httpsGet BlockTxids _ "blockstream" st1) as [[e2|b2] st2];
    cbn [snd] in R2 |- *.
  2:{ eapply Within_le; [|eapply Within_trans; [exact R1|exact R2]]. lia. }
  assert (H2 : Within 6 st st2) by exact (Within_trans 3 3 _ _ _ R1 R2).
  pose proof (fetchJSONWithRetry_Within httpsGet BlockTxids
    ("https://api.blockchair.com/bitcoin/dashboards/block/" ++ blockHash)%string
    "blockchair" st2) as R3.
  assert (Hinfo : forall st3, Within 9 st st3 ->
    Within 12 st (snd (match fetchJSONWithRetry httpsGet BlockTxids
                            ("https://blockchain.info/rawblock/" ++ blockHash)%string
                            "blockchaininfo" st3 with
                    | (inr (RawBlockBody (Some tx)), st4) =>
                        (inr (Some (omap (fun t =>
                           if Js.truthyOptStr t then t else None) tx)), st4)
                    | (_, st4) => (inl "All block txid APIs failed", st4)
                    end : (string + option (list string)) * RunState))).
  { intros st3 R.
    pose proof (fetchJSONWithRetry_Within httpsGet BlockTxids
      ("https://blockchain.info/rawblock/" ++ blockHash)%string "blockchaininfo" st3) as R4.
    assert (G : Within 12 st (snd (fetchJSONWithRetry httpsGet BlockTxids
                  ("https://blockchain.info/rawblock/" ++ blockHash)%string
                  "blockchaininfo" st3)))
      by (change 12%nat with (9 + 3)%nat; eapply Within_trans; [exact R|exact R4]).
    destruct (fetchJSONWithRetry httpsGet BlockTxids _ "blockchaininfo" st3)
      as [[e4|b4] st4]; cbn [snd] in G |- *; [exact G|].
    destruct b4 as [| | |[tx|]|]; exact G. }
  assert (H3 : Within 9 st (snd (fetchJSONWithRetry httpsGet BlockTxids
    ("https://api.blockchair.com/bitcoin/dashboards/block/" ++ blockHash)%string
    "blockchair" st2)))
    by (change 9%nat with (6 + 3)%nat; eapply Within_trans; [exact H2|exact R3]).
  destruct (fetchJSONWithRetry httpsGet BlockTxids _ "blockchair" st2) as [[e3|b3] st3];
    cbn [snd] in H3.
  - now apply Hinfo.
  - destruct b3 as [| |[transactions|]| |]; try now apply Hinfo.
    cbn [snd]. eapply Within_le; [|exact H3]. lia.
Qed.

Lemma indexOf_spec txid : forall txList,
  match indexOf txid txList with
  | Some p =>
      0 <= p /\ txList !! Z.to_nat p = Some txid /\
      forall q, 0 <= q < p -> txList !! Z.to_nat q <> Some txid
  | None => ~ In txid txList
  end.
Proof.
  induction txList as [|t rest IH]; simpl; [tauto|].
  destruct (String.eqb_spec t txid) as [->|Hne].
  - split; [lia|]. split; [reflexivity|]. intros q Hq. lia.
  - destruct (indexOf txid rest) as [i|].
    + destruct IH as (H0 & Hi & Hfirst). split; [lia|]. split.
      * replace (Z.to_nat (i + 1)) with (S (Z.to_nat i)) by lia. exact Hi.
      * intros q Hq. destruct (Z.eq_dec q 0) as [->|Hq0].
        -- simpl. congruence.
        -- replace (Z.to_nat q) with (S (Z.to_nat (q - 1))) by lia.
           simpl. apply Hfirst. lia.
    + intros [H|H]; [congruence|contradiction].
Qed.

Lemma getTxPositionInBlock_requests {World : Type}
    (httpsGet : string -> option string -> World -> Response * World)
    (now : World -> Z) (envAuthHeader : option string)
    (txid : string) (st : @RunState World) :
  (requestCount (trace (snd (getTxPositionInBlock httpsGet now envAuthHeader txid st)))
   <= requestCount (trace st) + 24)%nat.
Proof.
  unfold getTxPositionInBlock.
  pose proof (fetchFromAPI_Within httpsGet now envAuthHeader "tx" txid "tx" st) as [_ H1].
  destruct (fetchFromAPI httpsGet now envAuthHeader "tx" txid "tx" st)
    as [[e|[api body]] st1]; cbn [snd] in H1 |- *; [lia|].
  destruct body as [[status|]| | | |]; cbn [snd]; try lia.
  destruct (block_height status) as [height|]; cbn [snd]; [|lia].
  destruct (block_hash status) as [hash|]; cbn [snd]; [|lia].
  destruct (Js.truthyNum height && Js.truthyStr hash)%bool; cbn [snd]; [|lia].
  destruct (blockCache (this st1) !! Js.numToString height); cbn [snd]; [lia|].
  pose proof (fetchBlockTxids_Within httpsGet hash st1) as [_ H2].
  destruct (fetchBlockTxids httpsGet hash st1) as [[e|[[|t txList]|]] st2];
    cbn [snd update trace] in H2 |- *; lia.
Qed.

(** X18. One call of [getTxPositionInBlock] sends at most 24 requests
    (redirects apart), whatever the network answers: the router
    [fetchFromAPI] sends at most 12 (three attempts at mempool.space; for
    Blockstream three to verify the credentials, three attempts and three
    more without credentials after a 401), and the fetch of the txid list of
    the block at most 12 (three attempts at each of four providers). *)
Theorem lookup_sends_at_most_24_requests {World : Type}
    (httpsGet : string -> option string -> World -> Response * World)
    (now : World -> Z) (envAuthHeader : option string)
    (endpoint txid apiType blockHash : string) (st : @RunState World) :
  let sent (st' : @RunState World) :=
    (requestCount (trace st') - requestCount (trace st))%nat in
  (sent (snd (fetchFromAPI httpsGet now envAuthHeader endpoint txid apiType st)) <= 12)%nat /\
  (sent (snd (fetchBlockTxids httpsGet blockHash st)) <= 12)%nat /\
  (sent (snd (getTxPositionInBlock httpsGet now envAuthHeader txid st)) <= 24)%nat.
Proof.
  cbn zeta.
  pose proof (fetchFromAPI_Within httpsGet now envAuthHeader endpoint txid apiType st)
    as [_ H1].
  pose proof (fetchBlockTxids_Within httpsGet blockHash st) as [_ H2].
  pose proof (getTxPositionInBlock_requests httpsGet now envAuthHeader txid st) as H3.
  repeat split; lia.
Qed.

(** X19. The block cache only grows, and a position that
    [getTxPositionInBlock] reports is backed by it: the height is never 0,
    no position comes without a height, the txid list of the height is in
    the cache after the call, and the position is the index of the first
    occurrence of the txid in that list (none when the list does not hold
    the txid).  The list is looked up by height alone: once a height is
    cached, the list is not fetched again, whatever block hash the
    transaction reports. *)
Theorem position_backed_by_cache {World : Type}
    (httpsGet : string -> option string -> World -> Response * World)
    (now : World -> Z) (envAuthHeader : option string)
    (txid : string) (st : @RunState World) :
  let result := getTxPositionInBlock httpsGet now envAuthHeader txid st in
  (forall key txList, blockCache (this st) !! key = Some txList ->
     blockCache (this (snd result)) !! key = Some txList) /\
  match blockHeight (fst result) with
  | None => blockPosition (fst result) = None
  | Some height =>
      height <> 0 /\
      exists txList,
        blockCache (this (snd result)) !! Js.numToString height = Some txList /\
        match blockPosition (fst result) with
        | Some p =>
            0 <= p /\ txList !! Z.to_nat p = Some txid /\
            forall q, 0 <= q < p -> txList !! Z.to_nat q <> Some txid
        | None => ~ In txid txList
        end
  end.
Proof.
  cbn zeta. unfold getTxPositionInBlock.
  pose proof (fetchFromAPI_Within httpsGet now envAuthHeader "tx" txid "tx" st) as [C1 _].
  destruct (fetchFromAPI httpsGet now envAuthHeader "tx" txid "tx" st)
    as [[e|[api body]] st1]; cbn [snd] in C1.
  { cbn [fst snd unknownPosition blockHeight blockPosition]. rewrite C1. auto. }
  assert (Hnone : (forall key txList, blockCache (this st) !! key = Some txList ->
                     blockCache (this st1) !! key = Some txList) /\
                  blockPosition unknownPosition = None)
    by (rewrite C1; auto).
  destruct body as [[status|]| | | |]; try exact Hnone.
  destruct (block_height status) as [height|]; [|exact Hnone].
  destruct (block_hash status) as [hash|]; [|exact Hnone].
  destruct (Js.truthyNum height && Js.truthyStr hash)%bool eqn:Ht; [|exact Hnone].
  assert (H0 : height <> 0).
  { apply andb_true_iff in Ht as [Ht _]. unfold Js.truthyNum in Ht.
    destruct (Z.eqb_spec height 0); [discriminate|assumption]. }
  destruct (blockCache (this st1) !! Js.numToString height) as [cached|] eqn:Hc.
  { cbn [fst snd blockHeight blockPosition]. split; [rewrite C1; auto|].
    split; [assumption|]. exists cached. split; [assumption|apply indexOf_spec]. }
  pose proof (fetchBlockTxids_Within httpsGet hash st1) as [C2 _].
  destruct (fetchBlockTxids httpsGet hash st1) as [[e|[[|t txList]|]] st2];
    cbn [snd] in C2;
    try (cbn [fst snd unknownPosition blockHeight blockPosition];
         rewrite C2, C1; auto).
  cbn [fst snd blockHeight blockPosition update this setBlockCache blockCache].
  split.
  - intros key l Hk. rewrite C2. rewrite <- C1 in Hk.
    destruct (decide (Js.numToString height = key)) as [<-|Hne]; [congruence|].
    now rewrite lookup_insert_ne.
  - split; [assumption|]. exists (t :: txList).
    split; [apply lookup_insert_eq|apply indexOf_spec].
Qed.

(** *** The run as a whole *)

Section Spending.

(** A measure of what has been spent so far (requests, time), which a
    ledger lookup raises by at most [k] and the inscription service leaves
    alone. *)
Context {Obj : Type} (spent : Obj -> nat) (k : nat).
Variable getTx : string -> Obj -> LedgerPosition * Obj.
Variable getSat : string -> Obj -> option string * Obj.
Variable getBySat : Z -> Z -> Obj -> option string * Obj.
Hypothesis getTx_spends : forall t s, (spent (snd (getTx t s)) <= spent s + k)%nat.
Hypothesis getSat_free : forall id s, (spent (snd (getSat id s)) <= spent s)%nat.
Hypothesis getBySat_free : forall sat blk s,
  (spent (snd (getBySat sat blk s)) <= spent s)%nat.




End Spending.


(** *** Retries *)




End TrueBitmapResolver.

(** ** duplicate-remover.mjs: taking the losers out of the registry *)

Module DuplicateRemover.

Import Js.

(** An element of the array a sat file holds: an object, given by the
    fields the registry uses (a field the object lacks is [undefined]), or a
    JSON value that is not an object. *)
Inductive Element :=
| EObject (e : DuplicateValidator.Entry)
| EScalar (v : JsVal).

(** What [JSON.parse(fs.readFileSync(...))] makes of a file: it throws, or
    gives something that is not an array, or gives an array. *)
Inductive FileContent :=
| Unparsable
| NotArray
| Array (elements : list Element).

(** The registry directory: the files, in the order [readdirSync] lists
    them.  The directory is taken as it is in memory: listing, reading and
    writing a file that is there succeed. *)
Definition Registry := list (string * FileContent).

(** [s.endsWith(p)]. *)
Definition endsWith (p s : string) : bool :=
  (Nat.leb (String.length p) (String.length s) &&
   String.eqb (String.substring (String.length s - String.length p)
                 (String.length p) s) p)%bool.

Definition isSatFile (f : string) : bool :=
  (startsWith "sat_" f && endsWith ".json" f)%bool.

(** [entry && typeof entry === 'object' && entry.sat === targetSat]. *)
Definition holdsSat (targetSat : JsVal) (entry : Element) : bool :=
  match entry with
  | EObject e => bool_decide (DuplicateValidator.sat e = targetSat)
  | EScalar _ => false
  end.

(** The [for (const file of files)] loop of [findSatFile]. *)
Fixpoint scanFiles (files : Registry) (targetSat : JsVal)
    : option (string * list Element) :=
  match files with
  | [] => None
  | (file, Array content) :: rest =>
      if existsb (holdsSat targetSat) content then Some (file, content)
      else scanFiles rest targetSat
  | (_, _) :: rest => scanFiles rest targetSat
  end.

(** [findSatFile(registryPath, targetSat)]. *)
Definition findSatFile (registryPath : Registry) (targetSat : JsVal)
    : option (string * list Element) :=
  scanFiles (List.filter (fun f => isSatFile (fst f)) registryPath) targetSat.

(** [entry.sat]: reading a property of [null] or [undefined] throws
    ([None]); of another scalar it gives [undefined]. *)
Definition satOf (entry : Element) : option JsVal :=
  match entry with
  | EObject e => Some (DuplicateValidator.sat e)
  | EScalar JsNull | EScalar JsUndefined => None
  | EScalar _ => Some JsUndefined
  end.

(** [content.filter(entry => entry.sat !== loserSat)]; [None] when the
    callback throws. *)
Fixpoint filterOut (loserSat : JsVal) (content : list Element)
    : option (list Element) :=
  match content with
  | [] => Some []
  | entry :: rest =>
      match satOf entry with
      | None => None
      | Some v =>
          match filterOut loserSat rest with
          | None => None
          | Some kept =>
              Some (if bool_decide (v = loserSat) then kept else entry :: kept)
          end
      end
  end.

Definition readFile (registryPath : Registry) (file : string) : option FileContent :=
  match List.find (fun f => String.eqb (fst f) file) registryPath with
  | Some f => Some (snd f)
  | None => None
  end.

Definition writeFile (registryPath : Registry) (file : string)
    (content : FileContent) : Registry :=
  map (fun f => if String.eqb (fst f) file then (file, content) else f) registryPath.

Inductive Reason := not_found | invalid_format | thrown.

Inductive RemovalResult :=
| Removed (originalCount newCount : nat)
| NotRemoved (reason : Reason).

(** [removeLoserFromFile(registryPath, satFile, loserSat)]: an exception
    ([None]), or the result and the registry it leaves. *)
Definition removeLoserFromFile (registryPath : Registry) (satFile : string)
    (loserSat : JsVal) : option (RemovalResult * Registry) :=
  match readFile registryPath satFile with
  | None | Some Unparsable => None
  | Some NotArray => Some (NotRemoved invalid_format, registryPath)
  | Some (Array content) =>
      match filterOut loserSat content with
      | None => None
      | Some filtered =>
          if Nat.eqb (length filtered) (length content)
          then Some (NotRemoved not_found, registryPath)
          else Some (Removed (length content) (length filtered),
                     writeFile registryPath satFile (Array filtered))
      end
  end.

(** An element of [results.losers] of the competition report. *)
Record Loser := { block : JsVal; sat : JsVal }.

Record RemovedEntry := {
  removedBlock : JsVal; removedSat : JsVal; removedFile : string;
  entriesBefore : nat; entriesAfter : nat
}.

Record FailedEntry := {
  failedBlock : JsVal; failedSat : JsVal; failedFile : string; reason : Reason
}.

(** [removalLog]. *)
Record RemovalLog := {
  removed : list RemovedEntry;
  failed : list FailedEntry;
  notFound : list Loser
}.

Definition emptyLog : RemovalLog := {| removed := []; failed := []; notFound := [] |}.

(** The body of the [for] loop of [main]. *)
Definition removeOne (st : Registry * RemovalLog) (loser : Loser)
    : Registry * RemovalLog :=
  let '(registryPath, removalLog) := st in
  match findSatFile registryPath (sat loser) with
  | None =>
      (registryPath,
       {| removed := removed removalLog; failed := failed removalLog;
          notFound := notFound removalLog ++ [loser] |})
  | Some (file, _) =>
      let fail why registry' :=
        (registry',
         {| removed := removed removalLog;
            failed := failed removalLog ++
              [{| failedBlock := block loser; failedSat := sat loser;
                  failedFile := file; reason := why |}];
            notFound := notFound removalLog |}) in
      match removeLoserFromFile registryPath file (sat loser) with
      | Some (Removed originalCount newCount, registry') =>
          (registry',
           {| removed := removed removalLog ++
                [{| removedBlock := block loser; removedSat := sat loser;
                    removedFile := file; entriesBefore := originalCount;
                    entriesAfter := newCount |}];
              failed := failed removalLog;
              notFound := notFound removalLog |})
      | Some (NotRemoved why, registry') => fail why registry'
      | None => fail thrown registryPath
      end
  end.

(** [main], from the losers of the report on. *)
Definition main (registryPath : Registry) (losers : list Loser)
    : Registry * RemovalLog :=
  fold_left removeOne losers (registryPath, emptyLog).

(** An element is kept when its sat is none of the given ones. *)
Definition keepOutside (sats : list JsVal) (entry : Element) : bool :=
  negb (existsb (fun s => bool_decide (satOf entry = Some s)) sats).

(** What may have happened to a file: nothing, or, for an array, the
    removal of the elements whose sat is one of some of the given sats. *)
Definition prunedFrom (sats : list JsVal) (before after : FileContent) : Prop :=
  match before with
  | Array content =>
      exists gone, incl gone sats /\
        after = Array (List.filter (keepOutside gone) content)
  | other => after = other
  end.

Definition Pruned (sats : list JsVal) (before after : Registry) : Prop :=
  Forall2 (fun f f' => fst f' = fst f /\ prunedFrom sats (snd f) (snd f'))
          before after.

(** A small registry for the examples: one sat file with two records of
    sat 7 and one of sat 9, and a file that is no sat file. *)
Definition record (b s : Z) : Element :=
  EObject {| DuplicateValidator.block := JsNum b;
             DuplicateValidator.iD := JsStr "i0";
             DuplicateValidator.sat := JsNum s |}.

Definition sampleRegistry : Registry :=
  [("notes.txt", Unparsable);
   ("sat_0-9999.json", Array [record 1 7; record 2 9; record 3 7])].

Definition sampleLosers : list Loser :=
  [{| block := JsNum 1; sat := JsNum 7 |}; {| block := JsNum 4; sat := JsNum 8 |}].

(** *** Properties *)

Lemma scanFiles_found files targetSat file content :
  scanFiles files targetSat = Some (file, content) ->
  In (file, Array content) files /\ existsb (holdsSat targetSat) content = true.
Proof.
  induction files as [|[f c] files IH]; simpl; [discriminate|].
  destruct c as [| |elements].
  - intros H. apply IH in H. tauto.
  - intros H. apply IH in H. tauto.
  - destruct (existsb (holdsSat targetSat) elements) eqn:E.
    + intros H. injection H as <- <-. auto.
    + intros H. apply IH in H. tauto.
Qed.

Lemma findSatFile_found registryPath targetSat file content :
  findSatFile registryPath targetSat = Some (file, content) ->
  In (file, Array content) registryPath /\
  existsb (holdsSat targetSat) content = true.
Proof.
  unfold findSatFile. intros H. apply scanFiles_found in H as [Hin He].
  apply filter_In in Hin. tauto.
Qed.

Lemma readFile_In registryPath file c :
  List.NoDup (map fst registryPath) -> In (file, c) registryPath ->
  readFile registryPath file = Some c.
Proof.
  unfold readFile. induction registryPath as [|[f c0] rest IH]; simpl; [tauto|].
  intros Hnd Hin. apply List.NoDup_cons_iff in Hnd as [Hout Hnd].
  destruct (String.eqb_spec f file) as [->|Hne].
  - destruct Hin as [E|Hin]; [now injection E as ->|].
    destruct Hout. apply in_map_iff. exists (file, c). auto.
  - destruct Hin as [E|Hin]; [congruence|]. now apply IH.
Qed.

Lemma filterOut_filter loserSat content filtered :
  filterOut loserSat content = Some filtered ->
  filtered = List.filter (keepOutside [loserSat]) content.
Proof.
  revert filtered. induction content as [|entry rest IH]; simpl; intros filtered.
  - now intros [= <-].
  - destruct (satOf entry) as [v|] eqn:Ev; [|discriminate].
    destruct (filterOut loserSat rest) as [kept|]; [|discriminate].
    intros [= <-]. unfold keepOutside at 1. simpl. rewrite Ev, orb_false_r.
    destruct (decide (v = loserSat)) as [->|Hne].
    + rewrite !bool_decide_eq_true_2 by reflexivity. simpl. now apply IH.
    + rewrite bool_decide_eq_false_2 by assumption.
      rewrite bool_decide_eq_false_2 by congruence. simpl. f_equal. now apply IH.
Qed.

Lemma filter_shorter (keep : Element -> bool) content :
  (exists entry, In entry content /\ keep entry = false) ->
  (length (List.filter keep content) < length content)%nat.
Proof.
  intros (entry & Hin & Hk). induction content as [|x rest IH]; [destruct Hin|].
  simpl. pose proof (List.filter_length_le keep rest) as Hle.
  destruct Hin as [->|Hin].
  - rewrite Hk. lia.
  - specialize (IH Hin). destruct (keep x); simpl; lia.
Qed.

Lemma holdsSat_dropped targetSat content :
  existsb (holdsSat targetSat) content = true ->
  exists entry, In entry content /\ keepOutside [targetSat] entry = false.
Proof.
  intros H. apply existsb_exists in H as (entry & Hin & Hh).
  exists entry. split; [assumption|].
  destruct entry as [e|v]; [|discriminate]. simpl in Hh.
  apply bool_decide_eq_true in Hh. unfold keepOutside. simpl.
  rewrite bool_decide_eq_true_2 by congruence. reflexivity.
Qed.

Lemma keepOutside_nil content : List.filter (keepOutside []) content = content.
Proof.
  induction content as [|x rest IH]; simpl; [reflexivity|]. now rewrite IH.
Qed.

Lemma keepOutside_app gone gone' content :
  List.filter (keepOutside gone') (List.filter (keepOutside gone) content) =
  List.filter (keepOutside (gone ++ gone')) content.
Proof.
  assert (E : forall x, keepOutside (gone ++ gone') x =
                        (keepOutside gone x && keepOutside gone' x)%bool).
  { intros x. unfold keepOutside. rewrite existsb_app. apply negb_orb. }
  induction content as [|x rest IH]; [reflexivity|].
  cbn [List.filter]. rewrite E.
  destruct (keepOutside gone x); cbn [andb List.filter]; [|exact IH].
  destruct (keepOutside gone' x); [f_equal|]; exact IH.
Qed.

Lemma prunedFrom_refl sats c : prunedFrom sats c c.
Proof.
  destruct c as [| |content]; simpl; try reflexivity.
  exists []. split; [intros ? []|]. now rewrite keepOutside_nil.
Qed.

Lemma prunedFrom_trans sats c1 c2 c3 :
  prunedFrom sats c1 c2 -> prunedFrom sats c2 c3 -> prunedFrom sats c1 c3.
Proof.
  destruct c1 as [| |content]; simpl.
  - intros -> H. exact H.
  - intros -> H. exact H.
  - intros (gone & Hg & ->) (gone' & Hg' & ->).
    exists (gone ++ gone'). split; [now apply incl_app|].
    now rewrite keepOutside_app.
Qed.

Lemma Pruned_refl sats registryPath : Pruned sats registryPath registryPath.
Proof.
  induction registryPath as [|f rest IH]; constructor; [|exact IH].
  split; [reflexivity|apply prunedFrom_refl].
Qed.

Lemma Pruned_trans sats r1 r2 r3 :
  Pruned sats r1 r2 -> Pruned sats r2 r3 -> Pruned sats r1 r3.
Proof.
  intros H12. revert r3. induction H12 as [|f1 f2 r1 r2 [Hn Hp] H12 IH];
    intros r3 H23; inversion H23 as [|f2' f3 r2' r3' [Hn' Hp'] H23']; subst.
  - constructor.
  - constructor; [|now apply IH].
    split; [congruence|eapply prunedFrom_trans; eauto].
Qed.

Lemma Pruned_names sats r1 r2 : Pruned sats r1 r2 -> map fst r2 = map fst r1.
Proof.
  induction 1 as [|f1 f2 r1 r2 [Hn _] _ IH]; simpl; [reflexivity|].
  now rewrite Hn, IH.
Qed.

Lemma Pruned_keeps_gone sats r1 r2 file content target :
  Pruned sats r1 r2 -> In (file, Array content) r1 ->
  existsb (holdsSat target) content = false ->
  exists content', In (file, Array content') r2 /\
                   existsb (holdsSat target) content' = false.
Proof.
  intros P Hc Hgone.
  induction P as [|f1 f2 r1 r2 [Hn Hp] P IHP]; [destruct Hc|].
  destruct Hc as [E|Hc].
  - subst f1. simpl in Hn, Hp. destruct Hp as (gone & _ & E2).
    exists (List.filter (keepOutside gone) content). split.
    + left. destruct f2 as [n2 c2]. simpl in *. now subst.
    + apply not_true_iff_false. intros H.
      apply existsb_exists in H as (x & Hx & Hh).
      apply filter_In in Hx as [Hx _].
      assert (existsb (holdsSat target) content = true)
        by (apply existsb_exists; eauto).
      congruence.
  - destruct (IHP Hc) as (c' & Hc' & Hg'). exists c'. split; [now right|exact Hg'].
Qed.

Lemma writeFile_Pruned sats registryPath file content loserSat :
  List.NoDup (map fst registryPath) ->
  In (file, Array content) registryPath -> In loserSat sats ->
  Pruned sats registryPath
    (writeFile registryPath file
       (Array (List.filter (keepOutside [loserSat]) content))).
Proof.
  intros Hnd Hin Hs. unfold writeFile.
  induction registryPath as [|[f c] rest IH]; [constructor|].
  simpl in Hnd. apply List.NoDup_cons_iff in Hnd as [Hout Hnd].
  simpl. destruct (String.eqb_spec f file) as [->|Hne].
  - constructor.
    + split; [reflexivity|]. simpl.
      destruct Hin as [E|Hin].
      * injection E as ->. exists [loserSat]. split; [|reflexivity].
        intros x [<-|[]]. assumption.
      * destruct Hout. apply in_map_iff. exists (file, Array content). auto.
    + destruct Hin as [E|Hin].
      * clear IH. revert Hout. clear. induction rest as [|[f' c'] rest IH];
          intros Hout; [constructor|].
        simpl. destruct (String.eqb_spec f' file) as [->|Hne].
        -- destruct Hout. now left.
        -- constructor; [split; [reflexivity|apply prunedFrom_refl]|].
           apply IH. intros H. apply Hout. now right.
      * now apply IH.
  - constructor; [split; [reflexivity|apply prunedFrom_refl]|].
    destruct Hin as [E|Hin]; [congruence|]. now apply IH.
Qed.

(** One loser, under distinct file names: the registry is pruned by the
    loser's sat at most, and the log grows by one entry, which is not a
    failure with reason [not_found] or [invalid_format]. *)
Lemma removeOne_step sats registryPath removalLog loser :
  List.NoDup (map fst registryPath) -> In (sat loser) sats ->
  let st' := removeOne (registryPath, removalLog) loser in
  Pruned sats registryPath (fst st') /\
  (forall f, In f (failed (snd st')) ->
     In f (failed removalLog) \/ reason f = thrown) /\
  (forall r, In r (removed (snd st')) ->
     In r (removed removalLog) \/
     (removedSat r = sat loser /\ (entriesAfter r < entriesBefore r)%nat /\
      exists content,
        In (removedFile r, Array content) (fst st') /\
        existsb (holdsSat (sat loser)) content = false)).
Proof.
  intros Hnd Hs. cbn zeta. unfold removeOne.
  destruct (findSatFile registryPath (sat loser)) as [[file content]|] eqn:Ef.
  2:{ simpl. split; [apply Pruned_refl|]. split; auto. }
  apply findSatFile_found in Ef as [Hin Hhold].
  unfold removeLoserFromFile. rewrite (readFile_In _ _ _ Hnd Hin).
  destruct (filterOut (sat loser) content) as [filtered|] eqn:Efil.
  2:{ simpl. split; [apply Pruned_refl|]. split; [|auto].
      intros f Hf. apply in_app_iff in Hf as [Hf|[<-|[]]]; auto. }
  apply filterOut_filter in Efil. subst filtered.
  pose proof (filter_shorter _ _ (holdsSat_dropped _ _ Hhold)) as Hlt.
  destruct (Nat.eqb_spec (length (List.filter (keepOutside [sat loser]) content))
                         (length content)) as [E|_]; [lia|].
  cbn [fst snd removed failed].
  split; [now apply writeFile_Pruned|]. split; [auto|].
  intros r Hr. apply in_app_iff in Hr as [Hr|[<-|[]]]; [now left|]. right.
  cbn [removedSat removedFile entriesBefore entriesAfter].
  split; [reflexivity|]. split; [assumption|].
  exists (List.filter (keepOutside [sat loser]) content). split.
  - unfold writeFile. apply in_map_iff. exists (file, Array content).
    now rewrite String.eqb_refl.
  - apply not_true_iff_false. intros H. apply existsb_exists in H as (x & Hx & Hh).
    apply filter_In in Hx as [_ Hk]. destruct x as [e|v]; [|discriminate].
    simpl in Hh. apply bool_decide_eq_true in Hh.
    unfold keepOutside in Hk. simpl in Hk.
    rewrite bool_decide_eq_true_2 in Hk by congruence. discriminate.
Qed.

Lemma removeOne_counts st loser :
  let st' := removeOne st loser in
  (length (removed (snd st')) + length (failed (snd st')) +
   length (notFound (snd st')) =
   S (length (removed (snd st)) + length (failed (snd st)) +
      length (notFound (snd st))))%nat.
Proof.
  destruct st as [registryPath removalLog]. cbn zeta. unfold removeOne.
  destruct (findSatFile registryPath (sat loser)) as [[file content]|].
  - destruct (removeLoserFromFile registryPath file (sat loser))
      as [[[before after|why] registry']|]; simpl; rewrite length_app; simpl; lia.
  - simpl. rewrite length_app. simpl. lia.
Qed.

(** X20. Every loser of the report ends in exactly one of the three lists
    of the removal log: removed, failed or not found. *)
Theorem every_loser_logged_once (registryPath : Registry) (losers : list Loser) :
  let removalLog := snd (main registryPath losers) in
  (length (removed removalLog) + length (failed removalLog) +
   length (notFound removalLog) = length losers)%nat.
Proof.
  cbn zeta. unfold main.
  assert (G : forall st,
    (length (removed (snd (fold_left removeOne losers st))) +
     length (failed (snd (fold_left removeOne losers st))) +
     length (notFound (snd (fold_left removeOne losers st))) =
     length (removed (snd st)) + length (failed (snd st)) +
     length (notFound (snd st)) + length losers)%nat).
  { induction losers as [|loser rest IH]; intros st; simpl; [lia|].
    rewrite IH. pose proof (removeOne_counts st loser) as H. cbn zeta in H. lia. }
  rewrite G. simpl. lia.
Qed.

Lemma main_invariant sats losers : forall registryPath removalLog,
  List.NoDup (map fst registryPath) -> incl (map sat losers) sats ->
  let st' := fold_left removeOne losers (registryPath, removalLog) in
  Pruned sats registryPath (fst st') /\
  (forall f, In f (failed (snd st')) ->
     In f (failed removalLog) \/ reason f = thrown) /\
  (forall r, In r (removed (snd st')) ->
     In r (removed removalLog) \/
     (In (removedSat r) (map sat losers) /\ (entriesAfter r < entriesBefore r)%nat /\
      exists content,
        In (removedFile r, Array content) (fst st') /\
        existsb (holdsSat (removedSat r)) content = false)).
Proof.
  induction losers as [|loser rest IH]; intros registryPath removalLog Hnd Hincl.
  - simpl. split; [apply Pruned_refl|]. split; auto.
  - cbn [fold_left].
    assert (Hs : In (sat loser) sats) by (apply Hincl; now left).
    pose proof (removeOne_step sats registryPath removalLog loser Hnd Hs)
      as (P1 & F1 & R1). cbn zeta in P1, F1, R1.
    destruct (removeOne (registryPath, removalLog) loser) as [registry1 log1] eqn:E1.
    cbn [fst snd] in P1, F1, R1.
    assert (Hnd1 : List.NoDup (map fst registry1))
      by (rewrite (Pruned_names _ _ _ P1); exact Hnd).
    assert (Hincl1 : incl (map sat rest) sats)
      by (intros x Hx; apply Hincl; now right).
    specialize (IH registry1 log1 Hnd1 Hincl1) as (P2 & F2 & R2). cbn zeta in P2, F2, R2.
    split; [eapply Pruned_trans; eauto|]. split.
    + intros f Hf. destruct (F2 f Hf) as [H|H]; [apply F1, H|now right].
    + intros r Hr. destruct (R2 r Hr) as [H|(Hs2 & Hlt & content & Hc & Hgone)].
      * destruct (R1 r H) as [H1|(Hs1 & Hlt & content & Hc & Hgone)]; [now left|].
        right. split; [left; congruence|]. split; [assumption|].
        rewrite Hs1. eapply Pruned_keeps_gone; eauto.
      * right. split; [now right|]. split; [assumption|]. eauto.
Qed.

(** X21. With distinct file names in the registry directory, a run changes
    no file name and removes nothing but loser sats: a file that does not
    hold an array is left as it is, and an array keeps, in order, every
    element except those whose sat is one of some of the losers' sats
    (such elements go whatever their block). *)
Theorem only_loser_sats_removed (registryPath : Registry) (losers : list Loser) :
  List.NoDup (map fst registryPath) ->
  Pruned (map sat losers) registryPath (fst (main registryPath losers)).
Proof.
  intros Hnd. unfold main.
  apply (main_invariant (map sat losers) losers registryPath emptyLog Hnd).
  intros x Hx. exact Hx.
Qed.

Lemma only_loser_sats_removed_witness :
  fst (main sampleRegistry sampleLosers) =
    [("notes.txt", Unparsable); ("sat_0-9999.json", Array [record 2 9])] /\
  Pruned (map sat sampleLosers) sampleRegistry (fst (main sampleRegistry sampleLosers)).
Proof.
  split; [reflexivity|].
  apply (only_loser_sats_removed sampleRegistry sampleLosers).
  repeat constructor; simpl; intuition discriminate.
Defined.

(** X22. With distinct file names, a removal fails only by an exception
    (a [null] element in the file that holds the sat): the results
    [not_found] and [invalid_format] of [removeLoserFromFile] never reach
    the log, because the file was just found to be an array holding the
    sat.  And every loser logged as removed made its file shorter and is
    gone from that file at the end of the run. *)
Theorem removal_fails_only_by_exception (registryPath : Registry)
    (losers : list Loser) :
  List.NoDup (map fst registryPath) ->
  let result := main registryPath losers in
  (forall f, In f (failed (snd result)) -> reason f = thrown) /\
  (forall r, In r (removed (snd result)) ->
     (entriesAfter r < entriesBefore r)%nat /\
     exists content,
       In (removedFile r, Array content) (fst result) /\
       existsb (holdsSat (removedSat r)) content = false).
Proof.
  intros Hnd. cbn zeta. unfold main.
  destruct (main_invariant (map sat losers) losers registryPath emptyLog Hnd
              (fun x Hx => Hx)) as (_ & F & R). cbn zeta in F, R.
  split.
  - intros f Hf. destruct (F f Hf) as [[]|H]. exact H.
  - intros r Hr. destruct (R r Hr) as [[]|(_ & Hlt & Hc)]. auto.
Qed.

Lemma removal_fails_only_by_exception_witness :
  let result := main sampleRegistry sampleLosers in
  length (removed (snd result)) = 1%nat /\
  (forall f, In f (failed (snd result)) -> reason f = thrown) /\
  (forall r, In r (removed (snd result)) ->
     (entriesAfter r < entriesBefore r)%nat /\
     exists content,
       In (removedFile r, Array content) (fst result) /\
       existsb (holdsSat (removedSat r)) content = false).
Proof.
  split; [reflexivity|].
  apply (removal_fails_only_by_exception sampleRegistry sampleLosers).
  repeat constructor; simpl; intuition discriminate.
Defined.

End DuplicateRemover.

(** ** validator.mjs: comparing every file pair and collecting the block conflicts *)

Module RegistryRun.

Import SatComparator.

(** An element of a GitHub contents listing, with the two properties
    [getRegistryFiles] reads. *)
Record Item := { itemType : string; itemName : string }.

Definition isSatFile (item : Item) : bool :=
  (String.eqb (itemType item) "file" && Js.startsWith "sat_" (itemName item) &&
   DuplicateRemover.endsWith ".json" (itemName item))%bool.

(** The comparator of [Array.prototype.sort()] without argument, on
    strings: by code units. *)
Definition compareDefault (a b : string) : Z :=
  match String.compare a b with Lt => -1 | Eq => 0 | Gt => 1 end.

(** An element of [this.results]: the summary of a comparison, or the
    record of an error. *)
Record FileResult := {
  filename : string;
  error : option string;
  stats : option Stats;
  hasDifferences : bool;
  differences : list DiffEntry
}.

Section Run.

(** The network: [fetchJSON] of a contents listing resolves with the
    listing or rejects; [readArray] is what [SatComparator.loadFile] does up
    to the parsed array: it throws with a message or yields the array. *)
Context {World : Type}.
Variable fetchJSON : string -> World -> option (list Item) * World.
Variable readArray : string -> World -> (string + list RawEntry) * World.

(** [getRegistryFiles(repoListUrl)]; [None] when it throws. *)
Definition getRegistryFiles (repoListUrl : string) (w : World)
    : option (list string) * World :=
  match fetchJSON repoListUrl w with
  | (Some contents, w') =>
      (Some (Js.sort compareDefault (map itemName (List.filter isSatFile contents))), w')
  | (None, w') => (None, w')
  end.

(** [compareFilePair(filename, index, total)], on the world and
    [this.results]. *)
Definition compareFilePair (repo1Base repo2Base : string)
    (st : World * list FileResult) (file : string) : World * list FileResult :=
  let '(w, results) := st in
  let errorResult message :=
    {| filename := file; error := Some message; stats := None;
       hasDifferences := false; differences := [] |} in
  match readArray (repo1Base ++ file)%string w with
  | (inl message, w1) => (w1, results ++ [errorResult message])
  | (inr json1, w1) =>
      match readArray (repo2Base ++ file)%string w1 with
      | (inl message, w2) => (w2, results ++ [errorResult message])
      | (inr json2, w2) =>
          let comparator := diff json1 json2 in
          (w2, results ++
             [{| filename := file; error := None;
                 stats := Some (SatComparator.stats comparator);
                 hasDifferences :=
                   0 <? Z.of_nat (length (SatComparator.differences comparator));
                 differences := SatComparator.differences comparator |}])
      end
  end.

(** [repo1Files.filter(f => repo2Files.includes(f))]. *)
Definition filesInBoth (repo1Files repo2Files : list string) : list string :=
  List.filter (fun f => existsb (String.eqb f) repo2Files) repo1Files.

(** Steps 1 and 2 of [run]: list the files of both repositories and compare
    each file present in both; [None] when a listing fails (the run ends
    with exit code 1). *)
Definition compareRepositories (repo1ListUrl repo2ListUrl repo1Base repo2Base : string)
    (w : World) : option (list FileResult) * World :=
  match getRegistryFiles repo1ListUrl w with
  | (None, w1) => (None, w1)
  | (Some repo1Files, w1) =>
      match getRegistryFiles repo2ListUrl w1 with
      | (None, w2) => (None, w2)
      | (Some repo2Files, w2) =>
          let '(w3, results) :=
            fold_left (compareFilePair repo1Base repo2Base)
                      (filesInBoth repo1Files repo2Files) (w2, []) in
          (Some results, w3)
      end
  end.

End Run.

Definition isBlockConflict (d : DiffEntry) : bool := typeEqb (type d) BLOCK_CONFLICT.

(** [(a, b) => a.block - b.block]; a missing block makes the difference
    NaN, which the sort takes for 0. *)
Definition compareBlocks (a b : DiffEntry) : Z :=
  match block a, block b with
  | Some x, Some y => x - y
  | _, _ => 0
  end.

(** [allBlockConflicts] of [generateReport], before the inscription ids are
    looked up. *)
Definition allBlockConflicts (results : list FileResult) : list DiffEntry :=
  Js.sort compareBlocks
    (flat_map (fun r => List.filter isBlockConflict (differences r)) results).

(** [filesWithDiffs] of [run]. *)
Definition filesWithDifferences (results : list FileResult) : Z :=
  Z.of_nat (length (List.filter hasDifferences results)).

(** The processed prefix of the insertion sort, kept in reverse: every
    element is followed by elements whose key is not larger. *)
Fixpoint Descending {A : Type} (key : A -> Z) (r : list A) : Prop :=
  match r with
  | [] => True
  | y :: rest => Forall (fun e => key e <= key y) rest /\ Descending key rest
  end.

(** What [compareFilePair] leaves in a result. *)
Definition Consistent (r : FileResult) : Prop :=
  (hasDifferences r = true <-> differences r <> []) /\
  (error r <> None -> differences r = []) /\
  Forall (fun d => type d = BLOCK_CONFLICT -> exists b, block d = Some b)
         (differences r).

(** A network on which no registry file can be read. *)
Definition unreadable : string -> unit -> (string + list RawEntry) * unit :=
  fun url w => (inl ("HTTP 404: Not Found for " ++ url)%string, w).

(** *** Properties *)

Section SortByKey.

Context {A : Type} (key : A -> Z) (cmp : A -> A -> Z) (P : A -> Prop).
Hypothesis cmp_key : forall a b, P a -> P b -> cmp a b = key a - key b.

Lemma insert_perm (x : A) r : Permutation (Js.insertSorted cmp x r) (x :: r).
Proof.
  induction r as [|y rest IH]; simpl; [reflexivity|].
  destruct (0 <? cmp y x); [|reflexivity].
  rewrite IH. apply perm_swap.
Qed.

Lemma insert_Descending x : P x -> forall r,
  Forall P r -> Descending key r -> Descending key (Js.insertSorted cmp x r).
Proof.
  intros Hx. induction r as [|y rest IH]; intros Hall Hs; simpl.
  { split; [constructor|exact I]. }
  inversion Hall as [|? ? Hy Hrest]; subst. destruct Hs as [Hle Hs].
  rewrite (cmp_key y x Hy Hx).
  destruct (Z.ltb_spec 0 (key y - key x)); simpl.
  - split; [|now apply IH].
    eapply Permutation_Forall; [symmetry; apply insert_perm|].
    constructor; [lia|assumption].
  - split; [|split; assumption].
    constructor; [lia|].
    eapply List.Forall_impl; [|exact Hle]. intros e He. simpl in He. lia.
Qed.

Lemma fold_insert_Descending l : forall r,
  Forall P l -> Forall P r -> Descending key r ->
  Descending key (fold_left (fun acc x => Js.insertSorted cmp x acc) l r).
Proof.
  induction l as [|x l IH]; intros r Hl Hr Hs; simpl; [assumption|].
  inversion Hl as [|? ? Hx Hl']; subst. apply IH; [assumption| |].
  - eapply Permutation_Forall; [symmetry; apply insert_perm|]. now constructor.
  - now apply insert_Descending.
Qed.

Lemma Descending_rev r :
  Descending key r -> StronglySorted (fun a b => key a <= key b) (rev r).
Proof.
  induction r as [|y rest IH]; intros Hs; simpl; [constructor|].
  destruct Hs as [Hle Hs]. specialize (IH Hs).
  induction (rev rest) as [|z l IHl] eqn:E in IH, Hle |- *.
  - simpl. constructor; constructor.
  - assert (Hall : Forall (fun e => key e <= key y) (z :: l)).
    { rewrite <- E. eapply Permutation_Forall; [apply Permutation_rev|exact Hle]. }
    clear E Hle. revert Hall IH. generalize (z :: l). clear.
    induction l as [|a l IH]; intros Hall Hs; simpl.
    + constructor; constructor.
    + inversion Hall; subst. inversion Hs; subst.
      constructor; [now apply IH|].
      apply Forall_app. split; [assumption|]. now constructor.
Qed.

Lemma sort_by_key l :
  Forall P l -> StronglySorted (fun a b => key a <= key b) (Js.sort cmp l).
Proof.
  intros Hl. unfold Js.sort. apply Descending_rev.
  apply fold_insert_Descending; [assumption|constructor|exact I].
Qed.

End SortByKey.

Lemma compareFilePair_step {World : Type}
    (readArray : string -> World -> (string + list RawEntry) * World)
    repo1Base repo2Base w results file :
  exists r, snd (compareFilePair readArray repo1Base repo2Base (w, results) file) =
              results ++ [r] /\
            filename r = file /\ Consistent r /\
            ((forall url w0, exists m w1, readArray url w0 = (inl m, w1)) ->
             hasDifferences r = false).
Proof.
  unfold compareFilePair.
  destruct (readArray (repo1Base ++ file)%string w) as [[m1|json1] w1] eqn:E1.
  { eexists. split; [reflexivity|]. split; [reflexivity|]. split; [|reflexivity].
    split; [simpl; split; [discriminate|congruence]|]. split; [reflexivity|constructor]. }
  destruct (readArray (repo2Base ++ file)%string w1) as [[m2|json2] w2] eqn:E2.
  { eexists. split; [reflexivity|]. split; [reflexivity|]. split; [|reflexivity].
    split; [simpl; split; [discriminate|congruence]|]. split; [reflexivity|constructor]. }
  eexists. split; [reflexivity|]. split; [reflexivity|]. split.
  - split; [|split].
    + cbn [hasDifferences differences].
      destruct (SatComparator.differences (diff json1 json2)) as [|d l].
      * split; [discriminate|congruence].
      * split; [discriminate|reflexivity].
    + simpl. congruence.
    + simpl. apply List.Forall_forall. intros d Hd Ht.
      apply In_differences in Hd as [(s & E)|(b & E)].
      * unfold satEntryFor in E.
        destruct (mapGet s (loadFile json1)), (mapGet s (loadFile json2));
          try destruct (_ =? _); try discriminate; injection E as <-; discriminate.
      * unfold blockEntryFor in E.
        destruct (mapGet b (reverseMap (loadFile json1))); [|discriminate].
        destruct (mapGet b (reverseMap (loadFile json2))); [|discriminate].
        destruct (_ && _)%bool; [|discriminate]. injection E as <-. eauto.
  - intros Hdown. destruct (Hdown (repo1Base ++ file)%string w) as (m & w' & E).
    congruence.
Qed.

Lemma compareFilePairs_results {World : Type}
    (readArray : string -> World -> (string + list RawEntry) * World)
    repo1Base repo2Base files : forall w results,
  exists added,
    snd (fold_left (compareFilePair readArray repo1Base repo2Base) files (w, results)) =
      results ++ added /\
    map filename added = files /\ Forall Consistent added /\
    ((forall url w0, exists m w1, readArray url w0 = (inl m, w1)) ->
     Forall (fun r => hasDifferences r = false) added).
Proof.
  induction files as [|file files IH]; intros w results.
  - exists []. simpl. rewrite app_nil_r. auto.
  - cbn [fold_left].
    destruct (compareFilePair_step readArray repo1Base repo2Base w results file)
      as (r & E & Hn & Hc & Hd).
    destruct (compareFilePair readArray repo1Base repo2Base (w, results) file)
      as [w1 results1]. simpl in E. subst results1.
    destruct (IH w1 (results ++ [r])) as (added & E' & Hn' & Hc' & Hd').
    exists (r :: added). rewrite E', <- app_assoc. split; [reflexivity|].
    split; [simpl; congruence|]. split; [now constructor|].
    intros Hdown. constructor; auto.
Qed.

(** X23. Steps 1 and 2 of [run] stop only when a listing fails.  When both
    listings arrive, the comparison leaves exactly one result per file to
    compare, in the order of the first listing, whatever the network does
    afterwards: a file pair that cannot be loaded is recorded as an error
    and the run goes on.  The files compared are the sat files of the first
    repository that the second one lists too. *)
Theorem one_result_per_common_file {World : Type}
    (fetchJSON : string -> World -> option (list Item) * World)
    (readArray : string -> World -> (string + list RawEntry) * World)
    (repo1ListUrl repo2ListUrl repo1Base repo2Base : string) (w : World) :
  let satFiles contents :=
    Js.sort compareDefault (map itemName (List.filter isSatFile contents)) in
  let outcome :=
    compareRepositories fetchJSON readArray repo1ListUrl repo2ListUrl
      repo1Base repo2Base w in
  match fetchJSON repo1ListUrl w with
  | (None, _) => fst outcome = None
  | (Some contents1, w1) =>
      match fetchJSON repo2ListUrl w1 with
      | (None, _) => fst outcome = None
      | (Some contents2, _) =>
          exists results,
            fst outcome = Some results /\
            map filename results =
              List.filter (fun f => existsb (String.eqb f) (satFiles contents2))
                          (satFiles contents1)
      end
  end.
Proof.
  cbn zeta. unfold compareRepositories, getRegistryFiles.
  destruct (fetchJSON repo1ListUrl w) as [[contents1|] w1]; [|reflexivity].
  destruct (fetchJSON repo2ListUrl w1) as [[contents2|] w2]; [|reflexivity].
  set (files1 := Js.sort compareDefault (map itemName (List.filter isSatFile contents1))).
  set (files2 := Js.sort compareDefault (map itemName (List.filter isSatFile contents2))).
  destruct (compareFilePairs_results readArray repo1Base repo2Base
              (filesInBoth files1 files2) w2 []) as (added & E & Hn & _).
  destruct (fold_left _ (filesInBoth files1 files2) (w2, [])) as [w3 results].
  simpl in E. subst results. exists added. split; [reflexivity|exact Hn].
Qed.

(** X24. A file pair that could not be loaded is never counted as
    different: when no registry file can be read, the run finds no file with
    differences (and announces that all files are identical), although
    nothing was compared. *)
Theorem unreadable_files_count_as_identical {World : Type}
    (readArray : string -> World -> (string + list RawEntry) * World)
    (repo1Base repo2Base : string) (files : list string) (w : World) :
  (forall url w0, exists m w1, readArray url w0 = (inl m, w1)) ->
  let results :=
    snd (fold_left (compareFilePair readArray repo1Base repo2Base) files (w, [])) in
  filesWithDifferences results = 0 /\ allBlockConflicts results = [] /\
  length results = length files.
Proof.
  intros Hdown. cbn zeta.
  destruct (compareFilePairs_results readArray repo1Base repo2Base files w [])
    as (added & E & Hn & Hc & Hd).
  rewrite E. cbn [app]. specialize (Hd Hdown).
  split; [|split].
  - unfold filesWithDifferences.
    replace (List.filter hasDifferences added) with (@nil FileResult); [reflexivity|].
    symmetry. clear - Hd. induction Hd as [|r l Hr _ IH]; simpl; [reflexivity|].
    now rewrite Hr.
  - unfold allBlockConflicts.
    replace (flat_map _ added) with (@nil DiffEntry); [reflexivity|].
    symmetry. clear - Hd Hc. induction Hd as [|r l Hr _ IH]; simpl; [reflexivity|].
    inversion Hc as [|? ? [Hiff _] Hc']; subst.
    destruct (differences r) as [|d ds] eqn:Ed.
    + simpl. now apply IH.
    + assert (hasDifferences r = true) by (apply Hiff; discriminate). congruence.
  - rewrite <- Hn. now rewrite length_map.
Qed.

Lemma unreadable_files_count_as_identical_witness :
  let results :=
    snd (fold_left (compareFilePair unreadable "repo1/" "repo2/")
           ["sat_0-9999.json"; "sat_10000-19999.json"] (tt, [])) in
  filesWithDifferences results = 0 /\ allBlockConflicts results = [] /\
  length results = 2%nat.
Proof.
  apply (unreadable_files_count_as_identical unreadable "repo1/" "repo2/"
           ["sat_0-9999.json"; "sat_10000-19999.json"] tt).
  intros url w0. exists ("HTTP 404: Not Found for " ++ url)%string, w0. reflexivity.
Defined.

(** X25. The block conflicts that [generateReport] collects from the
    results of a run are all the BLOCK_CONFLICT entries of all files, each
    as often as it was found, in ascending order of block (block 0
    included: this comparator does not test for truthiness). *)
Theorem block_conflicts_sorted_by_block {World : Type}
    (readArray : string -> World -> (string + list RawEntry) * World)
    (repo1Base repo2Base : string) (files : list string) (w : World) :
  let results :=
    snd (fold_left (compareFilePair readArray repo1Base repo2Base) files (w, [])) in
  Permutation (allBlockConflicts results)
    (flat_map (fun r => List.filter isBlockConflict (differences r)) results) /\
  exists blocks,
    map block (allBlockConflicts results) = map Some blocks /\
    StronglySorted Z.le blocks.
Proof.
  cbn zeta.
  destruct (compareFilePairs_results readArray repo1Base repo2Base files w [])
    as (added & E & _ & Hc & _).
  rewrite E. cbn [app]. split; [apply sort_perm|].
  set (found := flat_map (fun r => List.filter isBlockConflict (differences r)) added).
  assert (Hfound : Forall (fun d => exists b, block d = Some b) found).
  { subst found. apply List.Forall_forall. intros d Hd.
    apply in_flat_map in Hd as (r & Hr & Hd). apply filter_In in Hd as [Hd Ht].
    rewrite List.Forall_forall in Hc. destruct (Hc r Hr) as (_ & _ & Hb).
    rewrite List.Forall_forall in Hb. apply (Hb d Hd).
    unfold isBlockConflict in Ht. destruct (type d); try discriminate. reflexivity. }
  pose proof (sort_by_key (fun d => default 0 (block d)) compareBlocks
                (fun d => exists b, block d = Some b)) as Hsorted.
  specialize (Hsorted (fun a b Ha Hb =>
    match Ha, Hb with
    | ex_intro _ x Hx, ex_intro _ y Hy =>
        eq_trans (f_equal2 (fun u v => match u, v with
                                       | Some x, Some y => x - y
                                       | _, _ => 0
                                       end) Hx Hy)
                 (eq_sym (f_equal2 (fun u v => default 0 u - default 0 v) Hx Hy))
    end) found Hfound).
  unfold allBlockConflicts. fold found.
  assert (Hall : Forall (fun d => exists b, block d = Some b)
                        (Js.sort compareBlocks found))
    by (eapply Permutation_Forall; [symmetry; apply sort_perm|exact Hfound]).
  revert Hsorted Hall. generalize (Js.sort compareBlocks found). clear.
  induction l as [|d l IH]; intros Hs Hall.
  - exists []. split; [reflexivity|constructor].
  - inversion Hs as [|? ? Hs' Hle]; subst. inversion Hall as [|? ? [b Hb] Hall']; subst.
    destruct (IH Hs' Hall') as (blocks & E & Hsorted).
    exists (b :: blocks). split; [simpl; now rewrite Hb, E|].
    constructor; [assumption|].
    apply List.Forall_forall. intros x Hx.
    assert (Hin : In (Some x) (map block l)) by (rewrite E; now apply in_map).
    apply in_map_iff in Hin as (d' & Hd' & Hin).
    rewrite List.Forall_forall in Hle. specialize (Hle d' Hin).
    rewrite Hb, Hd' in Hle. exact Hle.
Qed.

End RegistryRun.

(** ** true-bitmap.mjs: the report of the winners *)

Module ResolverReport.

Import TrueBitmapResolver.

(** The [winner] of an element of [winnerCategories]: one value, or an
    array of values. *)
Inductive Category :=
| One (w : Winner)
| Several (ws : list Winner).

Definition winnerEqb (a b : Winner) : bool :=
  match a, b with
  | REPO1, REPO1 | REPO2, REPO2 | BOTH, BOTH | NEITHER, NEITHER
  | UNKNOWN, UNKNOWN => true
  | _, _ => false
  end.

Definition winnerCategories : list Category :=
  [One REPO1; One REPO2; One BOTH; Several [NEITHER; UNKNOWN]].

(** [r.winner === category.winner], or [category.winner.includes(r.winner)]
    for an array. *)
Definition inCategory (category : Category) (r : Verdict) : bool :=
  match category with
  | One w => winnerEqb (winner r) w
  | Several ws => existsb (winnerEqb (winner r)) ws
  end.

(** [blocks] of a category: filtered, mapped to the block and sorted with
    [(a, b) => a - b]. *)
Definition blocksOf (category : Category) (results : list Verdict) : list Z :=
  Js.sort Z.sub (map verdictBlock (List.filter (inCategory category) results)).

(** [Math.ceil(n / 4)]. *)
Definition rowsFor (n : nat) : nat := ((n + 3) / 4)%nat.

(** The cell of a row and a column of the table: the block at index
    [row + col * rows], if there is one. *)
Definition cell (blocks : list Z) (rows row col : nat) : option Z :=
  let index := (row + col * rows)%nat in
  if (index <? length blocks)%nat then blocks !! index else None.

(** The lines of the four-column table of a category, each with its
    blocks from left to right. *)
Definition tableRows (blocks : list Z) : list (list Z) :=
  let rows := rowsFor (length blocks) in
  map (fun row => omap (cell blocks rows row) (seq 0 4)) (seq 0 rows).

(** *** Properties *)

Lemma categories_partition (results : list Verdict) :
  Permutation
    (map verdictBlock (List.filter (inCategory (One REPO1)) results) ++
     map verdictBlock (List.filter (inCategory (One REPO2)) results) ++
     map verdictBlock (List.filter (inCategory (One BOTH)) results) ++
     map verdictBlock (List.filter (inCategory (Several [NEITHER; UNKNOWN])) results))
    (map verdictBlock results).
Proof.
  induction results as [|r results IH]; [reflexivity|].
  cbn [List.filter inCategory existsb map].
  destruct (winner r); cbn [winnerEqb orb map app].
  - now constructor.
  - symmetry. apply Permutation_cons_app. now symmetry.
  - symmetry. rewrite app_assoc. apply Permutation_cons_app.
    rewrite <- app_assoc. now symmetry.
  - symmetry. rewrite !app_assoc. apply Permutation_cons_app.
    rewrite <- !app_assoc. now symmetry.
  - symmetry. rewrite !app_assoc. apply Permutation_cons_app.
    rewrite <- !app_assoc. now symmetry.
Qed.

(** X29. In the report, every verdict's block is listed under exactly one
    of the four headings (REPO1 WINS, REPO2 WINS, BOTH MATCH,
    NEITHER/UNKNOWN), and under each heading the blocks are in ascending
    order. *)
Theorem every_block_under_one_heading (results : list Verdict) :
  Permutation (concat (map (fun c => blocksOf c results) winnerCategories))
              (map verdictBlock results) /\
  Forall (fun c => StronglySorted Z.le (blocksOf c results)) winnerCategories.
Proof.
  split.
  - cbn [winnerCategories map concat]. rewrite app_nil_r.
    unfold blocksOf.
    etransitivity; [|apply categories_partition].
    repeat apply Permutation_app; apply SatComparator.sort_perm.
  - apply List.Forall_forall. intros c _. unfold blocksOf.
    apply (RegistryRun.sort_by_key (fun z => z) Z.sub (fun _ => True)).
    + reflexivity.
    + apply List.Forall_forall. intros; exact I.
Qed.

Lemma omap_none {A B : Type} (l : list A) : omap (fun _ : A => @None B) l = [].
Proof. induction l; simpl; auto. Qed.

Lemma omap_ext_in {A B : Type} (f g : A -> option B) (l : list A) :
  (forall x, In x l -> f x = g x) -> omap f l = omap g l.
Proof.
  induction l as [|x l IH]; intros H; simpl; [reflexivity|].
  rewrite (H x) by now left.
  destruct (g x); [f_equal|]; apply IH; intros y Hy; apply H; now right.
Qed.

Lemma omap_lookup_seq (l : list Z) : forall m s,
  (length l <= m)%nat -> omap (fun i => l !! (i - s)%nat) (seq s m) = l.
Proof.
  induction l as [|x l IH]; intros m s Hm.
  - rewrite (omap_ext_in _ (fun _ => None)); [apply omap_none|reflexivity].
  - destruct m as [|m]; [simpl in Hm; lia|]. cbn [seq omap list_omap].
    rewrite Nat.sub_diag. cbn [lookup list_lookup]. f_equal.
    transitivity (omap (fun i => l !! (i - S s)%nat) (seq (S s) m));
      [|apply IH; simpl in Hm; lia].
    apply omap_ext_in. intros i Hi. apply in_seq in Hi.
    replace (i - s)%nat with (S (i - S s)) by lia. reflexivity.
Qed.

Lemma omap_concat {A B : Type} (f : A -> option B) (ls : list (list A)) :
  omap f (concat ls) = concat (map (omap f) ls).
Proof.
  induction ls as [|l ls IH]; [reflexivity|].
  cbn [concat map]. now rewrite omap_app, IH.
Qed.

Lemma rowsFor_covers n : (n <= 4 * rowsFor n)%nat.
Proof.
  unfold rowsFor. pose proof (Nat.div_mod_eq (n + 3) 4) as E.
  pose proof (Nat.mod_upper_bound (n + 3) 4 ltac:(lia)). lia.
Qed.

Lemma table_indices rows :
  Permutation (seq 0 (4 * rows))
    (concat (map (fun row => map (fun col => (row + col * rows)%nat) (seq 0 4))
                 (seq 0 rows))).
Proof.
  apply Permutation.NoDup_Permutation_bis; [apply seq_NoDup| |].
  - rewrite length_concat, length_seq, map_map.
    assert (G : forall l : list nat,
              list_sum (map (fun row =>
                length (map (fun col => (row + col * rows)%nat) (seq 0 4))) l) =
              (4 * length l)%nat).
    { induction l as [|a l IH]; [reflexivity|]. cbn [map].
      unfold list_sum in *. cbn [fold_right]. rewrite IH.
      rewrite length_map, length_seq. cbn [length]. lia. }
    rewrite G, length_seq. lia.
  - intros i Hi. apply in_seq in Hi.
    assert (Hrows : rows <> 0%nat) by lia.
    apply in_concat. exists (map (fun col => (i mod rows + col * rows)%nat) (seq 0 4)).
    split.
    + apply in_map_iff. exists (i mod rows)%nat. split; [reflexivity|].
      apply in_seq. pose proof (Nat.mod_upper_bound i rows Hrows). lia.
    + apply in_map_iff. exists (i / rows)%nat. split.
      * pose proof (Nat.div_mod_eq i rows). lia.
      * apply in_seq. split; [lia|]. simpl.
        apply Nat.Div0.div_lt_upper_bound. lia.
Qed.

(** X30. The four-column table of a category shows every block of the
    category exactly once: the index formula [row + col * rows], with
    [rows] the number of blocks divided by four and rounded up, reaches each
    position of the list once and leaves out what lies beyond its end. *)
Theorem table_shows_every_block_once (blocks : list Z) :
  Permutation (concat (tableRows blocks)) blocks /\
  length (tableRows blocks) = rowsFor (length blocks) /\
  Forall (fun line => (length line <= 4)%nat) (tableRows blocks).
Proof.
  unfold tableRows. set (rows := rowsFor (length blocks)).
  split; [|split].
  - assert (E : map (fun row => omap (cell blocks rows row) (seq 0 4)) (seq 0 rows) =
                map (omap (fun i => blocks !! i))
                    (map (fun row => map (fun col => (row + col * rows)%nat) (seq 0 4))
                         (seq 0 rows))).
    { rewrite map_map. apply map_ext. intros row.
      assert (G : forall cols : list nat,
                omap (cell blocks rows row) cols =
                omap (fun i => blocks !! i)
                     (map (fun col => (row + col * rows)%nat) cols)).
      { induction cols as [|col cols IH]; [reflexivity|].
        cbn [map omap list_omap]. unfold cell at 1.
        destruct (Nat.ltb_spec (row + col * rows) (length blocks)) as [Hlt|Hge].
        - destruct (blocks !! (row + col * rows)%nat); [f_equal|]; exact IH.
        - apply lookup_ge_None in Hge. rewrite Hge. exact IH. }
      apply G. }
    rewrite E, <- omap_concat.
    rewrite <- (SatComparator.omap_perm _ _ _ (table_indices rows)).
    apply Permutation_refl'.
    transitivity (omap (fun i => blocks !! (i - 0)%nat) (seq 0 (4 * rows)));
      [|apply omap_lookup_seq, rowsFor_covers].
    apply omap_ext_in. intros i _. now rewrite Nat.sub_0_r.
  - now rewrite length_map, length_seq.
  - apply List.Forall_forall. intros line Hin.
    apply in_map_iff in Hin as (row & <- & _).
    assert (G : forall cols : list nat,
              (length (omap (cell blocks rows row) cols) <= length cols)%nat).
    { induction cols as [|col cols IH]; [simpl; lia|].
      cbn [omap list_omap]. destruct (cell blocks rows row col); simpl; lia. }
    apply (G (seq 0 4)).
Qed.

End ResolverReport.
